(** * WebcamRecorder: a shallow embedding of [webcam_recorder/webcam_recorder.py]

    The recorder job owns two child processes (rpicam-vid feeding ffmpeg),
    relays 8 KiB chunks from the first to the second, and, while
    [is_recording] is set, appends the same chunks to rotating segment files
    under [save_dir].  The embedding keeps the job's fields, the archive
    directory and a chronological trace of the observable operations in one
    record, and runs the Python methods as functions in a state-and-exception
    monad.  Everything the job cannot decide by itself (what a read returns,
    whether an I/O call fails, what the clock shows, what another thread
    assigned to [is_recording]) is supplied by an environment value. *)

From Stdlib Require Import ZArith String Ascii List Bool Lia.
From stdpp Require Import base option list gmap strings.

Local Open Scope string_scope.

(** ** Strings and path names *)

Module Pathlib.

(** [str.rfind(c)]: index of the last occurrence, [None] for Python's -1. *)
Fixpoint rfind (c : ascii) (s : string) : option nat :=
  match s with
  | EmptyString => None
  | String a s' =>
      match rfind c s' with
      | Some i => Some (S i)
      | None => if Ascii.eqb a c then Some 0 else None
      end
  end.

(** [s[i:]] and [s[:i]]. *)
Fixpoint drop_str (i : nat) (s : string) : string :=
  match i, s with
  | 0, _ => s
  | S i', String _ s' => drop_str i' s'
  | S _, EmptyString => EmptyString
  end.

Fixpoint take_str (i : nat) (s : string) : string :=
  match i, s with
  | 0, _ => EmptyString
  | S i', String a s' => String a (take_str i' s')
  | S _, EmptyString => EmptyString
  end.

Fixpoint startswith (p s : string) : bool :=
  match p, s with
  | EmptyString, _ => true
  | String a p', String b s' => Ascii.eqb a b && startswith p' s'
  | String _ _, EmptyString => false
  end.

Definition endswith (suf s : string) : bool :=
  (String.length suf <=? String.length s)%nat
  && String.eqb (drop_str (String.length s - String.length suf) s) suf.

(** [PurePath.suffix] of a final path component: the text from the last dot
    on, unless that dot is the first or the last character. *)
Definition suffix (name : string) : string :=
  match rfind "." name with
  | Some i =>
      if (0 <? i)%nat && (i <? String.length name - 1)%nat
      then drop_str i name else ""
  | None => ""
  end.

(** A path inside a directory: [parent / name]. *)
Record Path := mkPath { parent : string; name : string }.

Definition truediv (dir : string) (component : string) : Path :=
  {| parent := dir; name := component |}.

Definition str (p : Path) : string := parent p +:+ "/" +:+ name p.

(** [Path.with_suffix(suffix)].  [None] stands for the [ValueError] pathlib
    raises on a malformed suffix or on an empty name. *)
Definition with_suffix (p : Path) (suf : string) : option Path :=
  if (match rfind "/" suf with Some _ => true | None => false end)
     || (negb (String.eqb suf "") && negb (startswith "." suf))
     || String.eqb suf "."
     || String.eqb (name p) ""
  then None
  else
    let old := suffix (name p) in
    let stem :=
      if String.eqb old "" then name p
      else take_str (String.length (name p) - String.length old) (name p) in
    Some {| parent := parent p; name := stem +:+ suf |}.

(** The shell pattern [raw_*.h264] that names completed segments. *)
Definition is_final_name (n : string) : bool :=
  (9 <=? String.length n)%nat && startswith "raw_" n && endswith ".h264" n.

(** The last character of a string, used to tell suffixes apart. *)
Fixpoint last_char (s : string) : option ascii :=
  match s with
  | EmptyString => None
  | String c s' => match last_char s' with Some d => Some d | None => Some c end
  end.

End Pathlib.

(** ** Clock readings

    [datetime.now()] values, their difference and [strftime], written after
    CPython's [datetime] module (proleptic Gregorian ordinals). *)

Module Datetime.

Local Open Scope Z_scope.

Record datetime := mkDatetime {
  year : Z; month : Z; day : Z;
  hour : Z; minute : Z; second : Z; microsecond : Z
}.

Definition _is_leap (y : Z) : bool :=
  (y mod 4 =? 0) && (negb (y mod 100 =? 0) || (y mod 400 =? 0)).

Definition _days_before_year (y : Z) : Z :=
  let y' := y - 1 in y' * 365 + y' / 4 - y' / 100 + y' / 400.

Definition _DAYS_BEFORE_MONTH : list Z :=
  [0; 31; 59; 90; 120; 151; 181; 212; 243; 273; 304; 334].

Definition _days_before_month (y m : Z) : Z :=
  nth (Z.to_nat (m - 1)) _DAYS_BEFORE_MONTH 0
  + (if (2 <? m) && _is_leap y then 1 else 0).

Definition toordinal (d : datetime) : Z :=
  _days_before_year (year d) + _days_before_month (year d) (month d) + day d.

(** [(a - b)] as a whole number of microseconds:
    [timedelta(days, seconds, microseconds)] flattened. *)
Definition sub_us (a b : datetime) : Z :=
  let secs (d : datetime) := second d + minute d * 60 + hour d * 3600 in
  ((toordinal a - toordinal b) * 86400 + (secs a - secs b)) * 1000000
  + (microsecond a - microsecond b).

(** [(a - b).total_seconds() >= n] for an integer [n].  [total_seconds] is the
    microsecond count divided by 10**6; against an integer bound the
    comparison is the same on the exact microsecond count. *)
Definition total_seconds_ge (a b : datetime) (n : Z) : bool :=
  n * 1000000 <=? sub_us a b.

Definition digit (n : Z) : ascii := ascii_of_nat (48 + Z.to_nat (n mod 10)).

Definition pad2 (n : Z) : string :=
  String (digit (n / 10)) (String (digit n) EmptyString).

Definition pad4 (n : Z) : string :=
  String (digit (n / 1000)) (String (digit (n / 100)) (pad2 n)).

(** [strftime("%Y-%m-%d_%H-%M-%S")]. *)
Definition strftime (d : datetime) : string :=
  pad4 (year d) +:+ "-" +:+ pad2 (month d) +:+ "-" +:+ pad2 (day d) +:+ "_"
  +:+ pad2 (hour d) +:+ "-" +:+ pad2 (minute d) +:+ "-" +:+ pad2 (second d).

End Datetime.

(** ** The recorder job *)

Module Recorder.

Import Pathlib Datetime.

Abbreviation bytes := (list Byte.byte) (only parsing).

(** The exception classes that occur; all are subclasses of [Exception],
    and [BrokenPipeError] is a subclass of [OSError]. *)
Inductive exn := BrokenPipeError | OSError | ValueError | AttributeError | TimeoutExpired.

Definition isinstance_OSError (e : exn) : bool :=
  match e with BrokenPipeError | OSError => true | _ => false end.

Definition isinstance_TimeoutExpired (e : exn) : bool :=
  match e with TimeoutExpired => true | _ => false end.

Definition isinstance_Exception (e : exn) : bool := true.

Inductive level := INFO | WARNING | ERROR.

Inductive program := rpicam_vid | ffmpeg.

(** A [subprocess.Popen] object. *)
Record Popen := mkPopen { prog : program; pid : nat }.

(** A file object returned by [open(path, 'wb')], a buffered writer: its
    name, whether it has been closed, and the bytes a failed flush has left
    in its buffer. *)
Record file := mkFile { f_name : string; closed : bool; buffered : bytes }.

(** What the job does to the outside world, in the order it does it. *)
Inductive effect :=
| Log (l : level) (msg : string)
| Sleep (seconds : nat)
| HlsClean (ok : bool)
| Spawn (p : Popen)
| StdinWrite (p : Popen) (chunk : bytes)
| StdinClose (p : Popen)
| Terminate (p : Popen)
| WaitTimeout (p : Popen) (timeout : nat) (exited : bool)
| Kill (p : Popen)
| Wait (p : Popen)
| FsOpen (n : string)
| FsWrite (n : string) (data : bytes)
| FsClose (n : string)
| FsRename (src dst : string).

(** The fields of a [WebcamRecorder] the methods below touch, the listing of
    [save_dir] (file name to content) and the trace. *)
Record recorder := mkRecorder {
  camera_process : option Popen;
  ffmpeg_process : option Popen;
  current_file_handle : option file;
  is_recording : bool;
  save_dir : string;
  segment_duration : Z;
  archive : gmap string bytes;
  trace : list effect
}.

Definition with_camera_process (v : option Popen) (r : recorder) : recorder :=
  mkRecorder v (ffmpeg_process r) (current_file_handle r) (is_recording r)
    (save_dir r) (segment_duration r) (archive r) (trace r).

Definition with_ffmpeg_process (v : option Popen) (r : recorder) : recorder :=
  mkRecorder (camera_process r) v (current_file_handle r) (is_recording r)
    (save_dir r) (segment_duration r) (archive r) (trace r).

Definition with_current_file_handle (v : option file) (r : recorder) : recorder :=
  mkRecorder (camera_process r) (ffmpeg_process r) v (is_recording r)
    (save_dir r) (segment_duration r) (archive r) (trace r).

Definition with_is_recording (v : bool) (r : recorder) : recorder :=
  mkRecorder (camera_process r) (ffmpeg_process r) (current_file_handle r) v
    (save_dir r) (segment_duration r) (archive r) (trace r).

Definition with_archive (v : gmap string bytes) (r : recorder) : recorder :=
  mkRecorder (camera_process r) (ffmpeg_process r) (current_file_handle r)
    (is_recording r) (save_dir r) (segment_duration r) v (trace r).

Definition with_trace (v : list effect) (r : recorder) : recorder :=
  mkRecorder (camera_process r) (ffmpeg_process r) (current_file_handle r)
    (is_recording r) (save_dir r) (segment_duration r) (archive r) v.

(** *** The monad: state, exceptions, and runs that have not returned *)

Inductive outcome (A : Type) :=
| Ok (a : A)          (* returned [a] *)
| Raise (e : exn)     (* an exception is propagating *)
| Pending.            (* blocked: the environment supplied nothing further *)

Arguments Ok {A} a.
Arguments Raise {A} e.
Arguments Pending {A}.

Definition M (A : Type) : Type := recorder -> recorder * outcome A.

Definition ret {A} (a : A) : M A := fun r => (r, Ok a).

Definition bind {A B} (m : M A) (k : A -> M B) : M B :=
  fun r =>
    match m r with
    | (r', Ok a) => k a r'
    | (r', Raise e) => (r', Raise e)
    | (r', Pending) => (r', Pending)
    end.

Definition raise {A} (e : exn) : M A := fun r => (r, Raise e).

Definition block {A} : M A := fun r => (r, Pending).

Definition gets {A} (f : recorder -> A) : M A := fun r => (r, Ok (f r)).

Definition modify (f : recorder -> recorder) : M unit := fun r => (f r, Ok tt).

(** [try: m  except <classes>: h] *)
Definition try_except {A} (m : M A) (classes : exn -> bool) (h : exn -> M A) : M A :=
  fun r =>
    match m r with
    | (r', Raise e) => if classes e then h e r' else (r', Raise e)
    | res => res
    end.

Declare Scope recorder_scope.
Delimit Scope recorder_scope with rec.
Notation "x <- m ;; k" := (bind m (fun x => k))
  (at level 100, m at next level, right associativity) : recorder_scope.
Notation "m ;; k" := (bind m (fun _ => k))
  (at level 100, right associativity) : recorder_scope.
Local Open Scope recorder_scope.

Definition emit (e : effect) : M unit :=
  modify (fun r => with_trace (trace r ++ [e])%list r).

Definition logger (l : level) (msg : string) : M unit := emit (Log l msg).

Definition sleep (seconds : nat) : M unit := emit (Sleep seconds).

Definition value_of {A} (o : option A) : M A :=
  match o with Some a => ret a | None => raise ValueError end.

(** *** Files under [save_dir] *)

(** [open(path, 'wb')]: creates the file or truncates it. *)
Definition open_wb (ok : bool) (p : Path) : M file :=
  if ok then
    modify (fun r => with_archive (<[name p := []]> (archive r)) r) ;;
    emit (FsOpen (name p)) ;;
    ret {| f_name := name p; closed := false; buffered := [] |}
  else raise OSError.

(** How [f.write(chunk); f.flush()] ends: everything has reached the file,
    or an [OSError] after only the first [partial] bytes reached it.  Of the
    bytes after those, the first [kept] stay in the writer's buffer (all of
    them when the chunk went through the buffer, none when the writer wrote
    it through) and the rest are lost. *)
Inductive write_result := Written | Failed (partial kept : nat).

Definition append_bytes (n : string) (data : bytes) (a : gmap string bytes)
  : gmap string bytes :=
  <[n := (default [] (a !! n) ++ data)%list]> a.

(** The handle after a write or a flush: the same object with another
    buffer content. *)
Definition with_buffered (b : bytes) (f : file) : file :=
  {| f_name := f_name f; closed := closed f; buffered := b |}.

(** [f.write(chunk); f.flush()], the handle being the object [f] the field
    refers to: what is to be written is what an earlier failure left in the
    buffer followed by the chunk. *)
Definition file_write (w : write_result) (f : file) (chunk : bytes) : M unit :=
  if closed f then raise ValueError
  else
    let data := (buffered f ++ chunk)%list in
    match w with
    | Written =>
        modify (fun r => with_archive (append_bytes (f_name f) data (archive r)) r) ;;
        modify (with_current_file_handle (Some (with_buffered [] f))) ;;
        emit (FsWrite (f_name f) data)
    | Failed k m =>
        modify (fun r =>
          with_archive (append_bytes (f_name f) (take k data) (archive r)) r) ;;
        modify (with_current_file_handle
                  (Some (with_buffered (take m (drop k data)) f))) ;;
        emit (FsWrite (f_name f) (take k data)) ;;
        raise OSError
    end.

(** What a close writes out of the buffer before it closes the file: all of
    it when the close succeeds, the first [partial] bytes when it fails. *)
Definition flushed_at_close (ok : bool) (partial : nat) (f : file) : bytes :=
  if ok then buffered f else take partial (buffered f).

(** [self.current_file_handle.close()], the handle being the object [f] the
    field refers to.  Closing first flushes what an earlier failed write left
    in the buffer, then marks the object closed, whether the flush worked or
    not; closing a closed file does nothing. *)
Definition file_close (ok : bool) (partial : nat) (f : file) : M unit :=
  if closed f then ret tt
  else
    match flushed_at_close ok partial f with
    | [] => ret tt
    | out =>
        modify (fun r => with_archive (append_bytes (f_name f) out (archive r)) r) ;;
        emit (FsWrite (f_name f) out)
    end ;;
    modify (with_current_file_handle
              (Some {| f_name := f_name f; closed := true; buffered := [] |})) ;;
    emit (FsClose (f_name f)) ;;
    if ok then ret tt else raise OSError.

(** [path.exists()] *)
Definition path_exists (p : Path) : M bool :=
  gets (fun r => bool_decide (is_Some (archive r !! name p))).

(** [src.rename(dst)]: replaces [dst] if it is there. *)
Definition path_rename (ok : bool) (src dst : Path) : M unit :=
  if ok then
    content <- gets (fun r => archive r !! name src) ;;
    match content with
    | Some data =>
        modify (fun r =>
          with_archive (<[name dst := data]> (delete (name src) (archive r))) r) ;;
        emit (FsRename (name src) (name dst))
    | None => raise OSError
    end
  else raise OSError.

(** *** [set_is_recording] *)

Definition set_is_recording (value : bool) : M unit :=
  current <- gets is_recording ;;
  if Bool.eqb value current then ret tt
  else
    modify (with_is_recording value) ;;
    logger INFO ("Recording " +:+ (if value then "enabled" else "disabled")).

(** *** [stop_camera_streaming] and [on_disconnected] *)

(** What the environment decides during a stop: whether each child exits
    within the 10 second wait, and whether closing the segment file works. *)
Record stop_env := mkStopEnv {
  s_camera_exits : bool;
  s_ffmpeg_exits : bool;
  s_close_ok : bool;
  s_close_partial : nat   (* of the buffered bytes, how many a failing close
                             still writes *)
}.

(** [p.wait(timeout=t)] *)
Definition wait_timeout (p : Popen) (t : nat) (exits : bool) : M unit :=
  emit (WaitTimeout p t exits) ;;
  if exits then ret tt else raise TimeoutExpired.

Definition stop_process (p : Popen) (exits : bool) : M unit :=
  emit (Terminate p) ;;
  try_except (wait_timeout p 10 exits) isinstance_TimeoutExpired
    (fun _ => emit (Kill p) ;; emit (Wait p)).

Definition stop_camera_streaming (s : stop_env) : M unit :=
  logger INFO "Stopping camera streaming" ;;
  cp <- gets camera_process ;;
  match cp with
  | Some p => stop_process p (s_camera_exits s) ;; modify (with_camera_process None)
  | None => ret tt
  end ;;
  fp <- gets ffmpeg_process ;;
  match fp with
  | Some p => stop_process p (s_ffmpeg_exits s) ;; modify (with_ffmpeg_process None)
  | None => ret tt
  end ;;
  h <- gets current_file_handle ;;
  match h with
  | Some f =>
      file_close (s_close_ok s) (s_close_partial s) f ;;
      modify (with_current_file_handle None)
  | None => ret tt
  end.

(** [super().on_disconnected()] belongs to the host framework. *)
Definition on_disconnected (s : stop_env) : M unit := stop_camera_streaming s.

(** *** [_camera_streaming_loop] *)

(** The two local variables of the loop that outlive a chunk iteration. *)
Record locals := mkLocals {
  current_segment_start : option datetime;
  current_file_path : option Path
}.

Inductive pipe_result := Delivered | PipeBroken | PipeOSError.

(** Everything the environment decides during one pass through the inner
    [while True] loop. *)
Record chunk_env := mkChunkEnv {
  e_chunk : bytes;              (* what [stdout.read(8192)] returns *)
  e_pipe : pipe_result;         (* [stdin.write(chunk); stdin.flush()] *)
  e_toggles : list bool;        (* [set_is_recording] calls of other threads
                                   since the previous pass *)
  e_now_check : datetime;       (* [datetime.now()] in the rotation test *)
  e_now_stamp : datetime;       (* [datetime.now()] for the file name *)
  e_now_start : datetime;       (* [datetime.now()] for the segment start *)
  e_close_ok : bool;
  e_rename_ok : bool;
  e_open_ok : bool;
  e_write : write_result;
  e_close_partial : nat         (* of the buffered bytes, how many a failing
                                   close still writes *)
}.

Inductive control := Continue | Break.

(** [self.camera_process.stdout.read(8192)] *)
Definition stdout_read (e : chunk_env) : M bytes :=
  cp <- gets camera_process ;;
  match cp with
  | Some _ => ret (e_chunk e)
  | None => raise AttributeError
  end.

(** [self.ffmpeg_process.stdin.write(chunk); self.ffmpeg_process.stdin.flush()] *)
Definition stdin_write (res : pipe_result) (chunk : bytes) : M unit :=
  fp <- gets ffmpeg_process ;;
  match fp with
  | Some p =>
      match res with
      | Delivered => emit (StdinWrite p chunk)
      | PipeBroken => raise BrokenPipeError
      | PipeOSError => raise OSError
      end
  | None => raise AttributeError
  end.

Fixpoint apply_toggles (vs : list bool) : M unit :=
  match vs with
  | [] => ret tt
  | v :: vs' => set_is_recording v ;; apply_toggles vs'
  end.

(** The lines shared by both places that finish a segment:
    [if current_file_path and current_file_path.with_suffix('.tmp').exists():
         current_file_path.with_suffix('.tmp').rename(current_file_path)
         self.logger.info(...)] *)
Definition promote (rename_ok : bool) (cfp : option Path) : M unit :=
  match cfp with
  | None => ret tt
  | Some p =>
      tmp <- value_of (with_suffix p ".tmp") ;;
      there <- path_exists tmp ;;
      if there then
        tmp' <- value_of (with_suffix p ".tmp") ;;
        path_rename rename_ok tmp' p ;;
        logger INFO ("Completed recording segment: " +:+ str p)
      else ret tt
  end.

Definition segment_due (e : chunk_env) (l : locals) (minutes : Z) : bool :=
  match current_segment_start l with
  | None => true
  | Some t0 => total_seconds_ge (e_now_check e) t0 (minutes * 60)
  end.

Definition final_path (dir : string) (d : datetime) : Path :=
  truediv dir ("raw_" +:+ strftime d +:+ ".h264").

(** The second half of a pass, [if self.is_recording: ... else: ...]: what
    happens to the chunk on the archive side. *)
Definition record_chunk (e : chunk_env) (l : locals) (chunk : bytes) : M locals :=
  recording <- gets is_recording ;;
  if recording then
    minutes <- gets segment_duration ;;
    l1 <- (if segment_due e l minutes then
             h <- gets current_file_handle ;;
             match h with
             | Some f =>
                 file_close (e_close_ok e) (e_close_partial e) f ;;
                 promote (e_rename_ok e) (current_file_path l)
             | None => ret tt
             end ;;
             dir <- gets save_dir ;;
             let cfp := final_path dir (e_now_stamp e) in
             temp_file_path <- value_of (with_suffix cfp ".tmp") ;;
             f <- open_wb (e_open_ok e) temp_file_path ;;
             modify (with_current_file_handle (Some f)) ;;
             ret {| current_segment_start := Some (e_now_start e);
                    current_file_path := Some cfp |}
           else ret l) ;;
    h <- gets current_file_handle ;;
    match h with
    | Some f => file_write (e_write e) f chunk
    | None => ret tt
    end ;;
    ret l1
  else
    h <- gets current_file_handle ;;
    match h with
    | Some f =>
        file_close (e_close_ok e) (e_close_partial e) f ;;
        modify (with_current_file_handle None) ;;
        promote (e_rename_ok e) (current_file_path l) ;;
        ret {| current_segment_start := None; current_file_path := None |}
    | None => ret l
    end.

(** The first half of a pass: read a chunk, leave the loop at end of stream,
    hand the chunk to ffmpeg, leave the loop if that fails.  [None] stands
    for [break]. *)
Definition relay_to_hls (e : chunk_env) : M (option bytes) :=
  chunk <- stdout_read e ;;
  match chunk with
  | [] => ret None
  | _ :: _ =>
      try_except (stdin_write (e_pipe e) chunk ;; ret (Some chunk))
        isinstance_OSError
        (fun _ => logger WARNING "HLS stream disconnected" ;; ret None)
  end.

(** One pass through the body of the inner [while True].  Other threads'
    assignments to [is_recording] take effect before the flag is read. *)
Definition relay_chunk (e : chunk_env) (l : locals) : M (locals * control) :=
  sent <- relay_to_hls e ;;
  match sent with
  | None => ret (l, Break)
  | Some chunk =>
      apply_toggles (e_toggles e) ;;
      l' <- record_chunk e l chunk ;;
      ret (l', Continue)
  end.

(** The inner [while True]: one [chunk_env] per pass.  When the supplied
    passes are used up and no pass has left the loop, the loop is blocked in
    [read]. *)
Fixpoint relay_loop (es : list chunk_env) (l : locals) : M unit :=
  match es with
  | [] => block
  | e :: es' =>
      step <- relay_chunk e l ;;
      match step with
      | (_, Break) => ret tt
      | (l', Continue) => relay_loop es' l'
      end
  end.

Inductive job_state := init | ready | sleeping | lost | disconnected.

Definition is_disconnected (s : job_state) : bool :=
  match s with disconnected => true | _ => false end.

(** Everything the environment decides during one pass through the outer
    [while self.state != "disconnected"] loop. *)
Record iter_env := mkIterEnv {
  i_state : job_state;            (* [self.state] in the loop test *)
  i_clean_ok : bool;
  i_clean_text : string;          (* [str(e)] of what the clean-up caught *)
  i_camera : option nat;          (* pid, or [Popen] raises *)
  i_ffmpeg : option nat;
  i_chunks : list chunk_env;
  i_camera_exit : option Z;       (* return code, or the child never exits *)
  i_stdin_close_ok : bool;
  i_ffmpeg_exit : option Z;
  i_state_end : job_state;        (* [self.state] after the waits *)
  i_exn_text : exn -> string      (* [str(e)] of the exception the handler of
                                     this pass catches *)
}.

(** [_clean_old_hls_segments]: its own handler turns every failure into a
    warning that ends with [str(e)]. *)
Definition _clean_old_hls_segments (ok : bool) (text : string) : M unit :=
  emit (HlsClean ok) ;;
  if ok then ret tt
  else logger WARNING ("Failed to clean old HLS segments: " +:+ text).

(** [subprocess.Popen(cmd, ...)] *)
Definition popen (which : program) (spawned : option nat) : M Popen :=
  match spawned with
  | Some n => let p := {| prog := which; pid := n |} in emit (Spawn p) ;; ret p
  | None => raise OSError
  end.

(** [proc.wait()]; blocks for as long as the child runs. *)
Definition process_wait (field : recorder -> option Popen) (exit : option Z) : M Z :=
  op <- gets field ;;
  match op with
  | None => raise AttributeError
  | Some p =>
      match exit with
      | Some rc => emit (Wait p) ;; ret rc
      | None => block
      end
  end.

(** [self.ffmpeg_process.stdin.close()] *)
Definition stdin_close (ok : bool) : M unit :=
  fp <- gets ffmpeg_process ;;
  match fp with
  | None => raise AttributeError
  | Some p => if ok then emit (StdinClose p) else raise BrokenPipeError
  end.

(** The body of the [try] in the outer loop, up to the two waits; the value
    is [self.camera_process.returncode]. *)
Definition stream_once (i : iter_env) : M Z :=
  _clean_old_hls_segments (i_clean_ok i) (i_clean_text i) ;;
  cp <- popen rpicam_vid (i_camera i) ;;
  modify (with_camera_process (Some cp)) ;;
  fp <- popen ffmpeg (i_ffmpeg i) ;;
  modify (with_ffmpeg_process (Some fp)) ;;
  relay_loop (i_chunks i)
    {| current_segment_start := None; current_file_path := None |} ;;
  returncode <- process_wait camera_process (i_camera_exit i) ;;
  stdin_close (i_stdin_close_ok i) ;;
  process_wait ffmpeg_process (i_ffmpeg_exit i) ;;
  ret returncode.

(** The whole body of the [try]. *)
Definition pipeline (i : iter_env) : M unit :=
  returncode <- stream_once i ;;
  if negb (returncode =? 0)%Z && negb (is_disconnected (i_state_end i)) then
    logger ERROR "Camera streaming failed, restarting in 5 seconds" ;;
    sleep 5
  else ret tt.

(** The handler [except Exception as e: log; sleep(5)]; [str] gives the
    text [f"{e}"] puts into the message. *)
Definition on_exception (str : exn -> string) (e : exn) : M unit :=
  logger ERROR ("Error in camera streaming loop: " +:+ str e) ;;
  sleep 5.

(** [try: <pipeline> except Exception as e: <handler>] *)
Definition guarded_pipeline (i : iter_env) : M unit :=
  try_except (pipeline i) isinstance_Exception (on_exception (i_exn_text i)).

(** The outer loop, one [iter_env] per pass.  [Ok tt] means the loop test
    failed and the method returned; [Pending] means it is still running. *)
Fixpoint _camera_streaming_loop (passes : list iter_env) : M unit :=
  match passes with
  | [] => block
  | i :: passes' =>
      if is_disconnected (i_state i) then ret tt
      else guarded_pipeline i ;; _camera_streaming_loop passes'
  end.

End Recorder.


(** ** The specification's wording, for comparison with the code *)

Module Spec.

Import Recorder.

Definition program_eqb (a b : program) : bool :=
  match a, b with
  | rpicam_vid, rpicam_vid | ffmpeg, ffmpeg => true
  | _, _ => false
  end.

Definition Popen_eqb (p q : Popen) : bool :=
  program_eqb (prog p) (prog q) && Nat.eqb (pid p) (pid q).

(** Section 4.1 on stopping one child: request graceful termination, wait up
    to 10 time units, escalate to forced termination if that wait expires and
    then wait for the exit status.  Nothing is done for a child that is not
    there. *)
Definition graceful_then_forced (child : option Popen) (exits_in_time : bool)
  : list effect :=
  match child with
  | None => []
  | Some p =>
      Terminate p :: WaitTimeout p 10 exits_in_time
      :: (if exits_in_time then [] else [Kill p; Wait p])
  end.

(** A child is reaped (is no zombie) once some wait on it has returned. *)
Definition reaps (p : Popen) (e : effect) : bool :=
  match e with
  | WaitTimeout q _ true => Popen_eqb p q
  | Wait q => Popen_eqb p q
  | _ => false
  end.

Definition reaped (p : Popen) (tr : list effect) : bool := existsb (reaps p) tr.

Definition is_process_effect (e : effect) : bool :=
  match e with
  | Terminate _ | WaitTimeout _ _ _ | Kill _ | Wait _ | Spawn _ => true
  | _ => false
  end.

Definition process_effects (tr : list effect) : list effect :=
  List.filter is_process_effect tr.

(** The chunks that reached ffmpeg's standard input, in order. *)
Definition delivered_chunks (tr : list effect) : list bytes :=
  flat_map (fun e => match e with StdinWrite _ c => [c] | _ => [] end) tr.

(** How many children were started. *)
Definition spawn_count (tr : list effect) : nat :=
  length (List.filter (fun e => match e with Spawn _ => true | _ => false end) tr).

(** *** Staged writes

    A segment is written under its staging name and reaches its final name
    only by a rename that directly follows the close of the staging file. *)

Definition staged_pair (src dst : string) : Prop :=
  exists ts, src = "raw_" +:+ ts +:+ ".tmp" /\ dst = "raw_" +:+ ts +:+ ".h264".

(** [disciplined c tr]: in [tr], run after [c] was the file closed last (if
    the last operation was a close at all), nothing is opened or written
    under a final name, and every rename takes the staging file that was
    closed by the operation just before it to the final name of the same
    segment. *)
Fixpoint disciplined (just_closed : option string) (tr : list effect) : Prop :=
  match tr with
  | [] => True
  | e :: tr' =>
      match e with
      | FsClose n => disciplined (Some n) tr'
      | FsRename s d =>
          just_closed = Some s /\ staged_pair s d /\ disciplined None tr'
      | FsOpen n => Pathlib.is_final_name n = false /\ disciplined None tr'
      | FsWrite n _ => Pathlib.is_final_name n = false /\ disciplined None tr'
      | _ => disciplined None tr'
      end
  end.

(** The open handle, if there is one, is not on a final name. *)
Definition handle_staged (r : recorder) : Prop :=
  match current_file_handle r with
  | Some f => Pathlib.is_final_name (f_name f) = false
  | None => True
  end.

(** The final names a trace renamed a file to, in order. *)
Definition promoted (tr : list effect) : list string :=
  flat_map (fun e => match e with FsRename _ d => [d] | _ => [] end) tr.

(** The names a trace opened, in order. *)
Definition opened (tr : list effect) : list string :=
  flat_map (fun e => match e with FsOpen n => [n] | _ => [] end) tr.

(** *** What was recorded

    The specification's "sequence of chunks delivered while recording is
    enabled": the flag a pass sees is the last value another thread assigned
    before it, and the sequence ends with the stream. *)
Fixpoint recorded (flag : bool) (es : list chunk_env) : list bytes :=
  match es with
  | [] => []
  | e :: es' =>
      match e_chunk e with
      | [] => []
      | _ :: _ =>
          let flag' := List.last (e_toggles e) flag in
          ((if flag' then [e_chunk e] else []) ++ recorded flag' es')%list
      end
  end.

(** The bytes of a file of the archive directory; nothing for a file that
    is not there. *)
Definition content (a : gmap string bytes) (n : string) : bytes :=
  default [] (a !! n).

(** The bytes of the segment that is still open, if one is. *)
Definition open_content (r : recorder) : bytes :=
  match current_file_handle r with
  | Some f => if closed f then [] else content (archive r) (f_name f)
  | None => []
  end.

(** A pass in which no operation fails. *)
Definition faultless (e : chunk_env) : Prop :=
  e_pipe e = Delivered /\ e_close_ok e = true /\ e_rename_ok e = true
  /\ e_open_ok e = true /\ e_write e = Written.

End Spec.

(** ** Invariants of the streaming loop *)

Module Invariants.

Import Pathlib Recorder Spec.

(** The loop's local variables agree with the job: when a segment path is
    set, the handle is open on the staging name of that segment and the
    staging file holds data. *)
Definition seg_ok (l : locals) (r : recorder) : Prop :=
  match current_file_path l with
  | None => True
  | Some p =>
      exists dir ts data,
        p = truediv dir ("raw_" +:+ ts +:+ ".h264")
        /\ current_file_handle r = Some (mkFile ("raw_" +:+ ts +:+ ".tmp") false [])
        /\ archive r !! ("raw_" +:+ ts +:+ ".tmp") = Some data
        /\ data <> []
  end.

(** No zero-length file appears under a final name. *)
Definition finals_kept (a0 a : gmap string bytes) : Prop :=
  forall n, is_final_name n = true -> a !! n = Some [] -> a0 !! n = Some [].

(** Under final names the directory is as before, except at the names in
    [ds]. *)
Definition finals_same_except (ds : list string) (a0 a : gmap string bytes) : Prop :=
  forall n, is_final_name n = true -> a !! n = a0 !! n \/ In n ds.

Definition is_fs_effect (e : effect) : bool :=
  match e with
  | FsOpen _ | FsWrite _ _ | FsClose _ | FsRename _ _ => true
  | _ => false
  end.

(** A step that leaves the archive side alone. *)
Definition quiet_step (r r' : recorder) : Prop :=
  archive r' = archive r
  /\ current_file_handle r' = current_file_handle r
  /\ exists em, trace r' = (trace r ++ em)%list
               /\ Forall (fun e => is_fs_effect e = false) em.

(** What every stretch of the loop does to the directory and the trace. *)
Definition evolves (r r' : recorder) : Prop :=
  finals_kept (archive r) (archive r')
  /\ exists em, trace r' = (trace r ++ em)%list
               /\ disciplined None em
               /\ finals_same_except (promoted em) (archive r) (archive r').

(** Under final names nothing changed. *)
Definition finals_untouched (r r' : recorder) : Prop :=
  forall n, is_final_name n = true -> archive r' !! n = archive r !! n.

Definition no_locals : locals :=
  {| current_segment_start := None; current_file_path := None |}.

Definition stg (ts : string) : string := "raw_" +:+ ts +:+ ".tmp".
Definition fin (ts : string) : string := "raw_" +:+ ts +:+ ".h264".

(** Bookkeeping of a run without failures, counted from the trace [tr0]:
    the segments with timestamps [done] have been promoted in that order,
    the segment [cur] (if any) is open, and the promoted files followed by
    the open staging file hold exactly the bytes [B]. *)
Definition tracks (tr0 : list effect) (done : list string) (cur : option string)
           (B : bytes) (l : locals) (r : recorder) : Prop :=
  (exists em, trace r = (tr0 ++ em)%list
              /\ promoted em = map fin done
              /\ opened em = map stg (done ++ option_list cur))
  /\ (concat (map (fun t => content (archive r) (fin t)) done)
      ++ match cur with Some t => content (archive r) (stg t) | None => [] end)%list
     = B
  /\ match cur with
     | Some t =>
         (exists d, current_file_path l = Some (truediv d (fin t)))
         /\ current_file_handle r = Some (mkFile (stg t) false [])
         /\ is_Some (archive r !! stg t)
     | None => l = no_locals /\ current_file_handle r = None
     end.

(** A computation that leaves the archive side alone from every state. *)
Definition quiet {A} (m : M A) : Prop := forall r, quiet_step r (fst (m r)).

(** A computation that keeps [handle_staged] and relates its start state to
    its end state by [R]. *)
Definition sound (R : recorder -> recorder -> Prop) {A} (m : M A) : Prop :=
  forall r, handle_staged r ->
            handle_staged (fst (m r)) /\ R r (fst (m r)).

(** A pass of the outer loop all of whose inner passes satisfy [P]. *)
Definition allowed_pass (P : chunk_env -> Prop) (i : iter_env) : Prop :=
  Forall P (i_chunks i).

End Invariants.

(** ** Concrete runs *)

Module Scenarios.

Import Pathlib Datetime Recorder.

Definition nine_thirty : datetime := mkDatetime 2024 5 17 9 30 0 0.
Definition nine_thirty_five : datetime := mkDatetime 2024 5 17 9 35 0 0.
Definition nine_forty_five : datetime := mkDatetime 2024 5 17 9 45 0 0.

Definition chunk_a : bytes := [Byte.x00; Byte.x00; Byte.x01; Byte.x67].
Definition chunk_b : bytes := [Byte.x00; Byte.x00; Byte.x01; Byte.x68].
Definition chunk_c : bytes := [Byte.x00; Byte.x00; Byte.x01; Byte.x65].

(** A job as [__init__] leaves it, with the default configuration and an
    empty [save_dir]. *)
Definition fresh (recording : bool) : recorder :=
  {| camera_process := None; ffmpeg_process := None;
     current_file_handle := None; is_recording := recording;
     save_dir := "/home/pioreactor/data/camera"; segment_duration := 15;
     archive := ∅; trace := [] |}.

(** What [str(e)] gives for the exceptions of a full disk and of a closed
    pipe. *)
Definition strerror (e : exn) : string :=
  match e with
  | BrokenPipeError => "[Errno 32] Broken pipe"
  | OSError => "[Errno 28] No space left on device"
  | ValueError => "write to closed file"
  | AttributeError => "'NoneType' object has no attribute 'stdout'"
  | TimeoutExpired => "timed out after 10 seconds"
  end.

(** A pass of the inner loop in which nothing fails. *)
Definition smooth (chunk : bytes) (now : datetime) : chunk_env :=
  {| e_chunk := chunk; e_pipe := Delivered; e_toggles := [];
     e_now_check := now; e_now_stamp := now; e_now_start := now;
     e_close_ok := true; e_rename_ok := true; e_open_ok := true;
     e_write := Written; e_close_partial := 0 |}.

(** A pass of the outer loop in which both children start and, if the relay
    ends, exit with status 0. *)
Definition healthy (chunks : list chunk_env) : iter_env :=
  {| i_state := ready; i_clean_ok := true; i_clean_text := "";
     i_camera := Some 100; i_ffmpeg := Some 101;
     i_chunks := chunks;
     i_camera_exit := Some 0%Z; i_stdin_close_ok := true;
     i_ffmpeg_exit := Some 0%Z; i_state_end := ready;
     i_exn_text := strerror |}.

(** The job while a segment is open: recording was on and one chunk has
    been relayed. *)
Definition mid_segment : recorder :=
  fst (_camera_streaming_loop [healthy [smooth chunk_a nine_thirty]] (fresh true)).

(** A pass in which the archive write fails after [n] bytes; the chunk went
    through the writer's buffer, so the rest of it stays there. *)
Definition disk_full (chunk : bytes) (now : datetime) (n : nat) : chunk_env :=
  {| e_chunk := chunk; e_pipe := Delivered; e_toggles := [];
     e_now_check := now; e_now_stamp := now; e_now_start := now;
     e_close_ok := true; e_rename_ok := true; e_open_ok := true;
     e_write := Failed n (length chunk); e_close_partial := 0 |}.

(** A pass in which ffmpeg has closed its end of the pipe. *)
Definition pipe_closed (chunk : bytes) (now : datetime) : chunk_env :=
  {| e_chunk := chunk; e_pipe := PipeBroken; e_toggles := [];
     e_now_check := now; e_now_stamp := now; e_now_start := now;
     e_close_ok := true; e_rename_ok := true; e_open_ok := true;
     e_write := Written; e_close_partial := 0 |}.

(** A pass of the outer loop whose capture child keeps running: [wait()]
    on it does not return. *)
Definition camera_keeps_running (chunks : list chunk_env) : iter_env :=
  {| i_state := ready; i_clean_ok := true; i_clean_text := "";
     i_camera := Some 100; i_ffmpeg := Some 101;
     i_chunks := chunks;
     i_camera_exit := None; i_stdin_close_ok := true;
     i_ffmpeg_exit := Some 0%Z; i_state_end := ready;
     i_exn_text := strerror |}.

(** A later pass, with new process ids. *)
Definition restarted (chunks : list chunk_env) : iter_env :=
  {| i_state := ready; i_clean_ok := true; i_clean_text := "";
     i_camera := Some 200; i_ffmpeg := Some 201;
     i_chunks := chunks;
     i_camera_exit := Some 0%Z; i_stdin_close_ok := true;
     i_ffmpeg_exit := Some 0%Z; i_state_end := ready;
     i_exn_text := strerror |}.


Definition all_exit : stop_env :=
  {| s_camera_exits := true; s_ffmpeg_exits := true; s_close_ok := true;
     s_close_partial := 0 |}.

End Scenarios.

(** ** Bookkeeping for the properties of whole runs *)

Module Bookkeeping.

Import Recorder.

(** The process fields and the flag are as before and the trace has only
    grown. *)
Definition stable (r r' : recorder) : Prop :=
  camera_process r' = camera_process r
  /\ ffmpeg_process r' = ffmpeg_process r
  /\ is_recording r' = is_recording r
  /\ exists em, trace r' = (trace r ++ em)%list.


(** A computation that keeps the invariant [I] and relates the state it
    starts from to the state it ends in by [R], however it ends. *)
Definition preserves (I : recorder -> Prop) (R : recorder -> recorder -> Prop)
           {A} (m : M A) : Prop :=
  forall r, I r -> I (fst (m r)) /\ R r (fst (m r)).

(** The trace has grown by effects that all satisfy [Q]. *)
Definition grows_by (Q : effect -> Prop) (r r' : recorder) : Prop :=
  exists em, trace r' = (trace r ++ em)%list /\ Forall Q em.

(** Effects that signal a child or wait for it with a timeout; only
    [stop_camera_streaming] has them. *)
Definition is_signal (e : effect) : bool :=
  match e with
  | Terminate _ | Kill _ | WaitTimeout _ _ _ => true
  | _ => false
  end.

Definition is_stdin_write (e : effect) : bool :=
  match e with StdinWrite _ _ => true | _ => false end.

(** What a run has added to the trace. *)
Definition emitted (r r' : recorder) : list effect :=
  drop (length (trace r)) (trace r').

(** Nobody records and no segment is open. *)
Definition idle (r : recorder) : Prop :=
  is_recording r = false /\ current_file_handle r = None.

(** No other thread asks for recording during the pass. *)
Definition leaves_recording_off (e : chunk_env) : Prop :=
  Forall (fun v => v = false) (e_toggles e).

End Bookkeeping.

(** ** Further concrete runs *)

Module MoreScenarios.

Import Pathlib Datetime Recorder Scenarios.

(** The job while a pipeline is up and no segment is open. *)
Definition streaming (recording : bool) : recorder :=
  with_ffmpeg_process (Some (mkPopen ffmpeg 101))
    (with_camera_process (Some (mkPopen rpicam_vid 100)) (fresh recording)).

(** Three chunks across one rotation: the third arrives 15 minutes after the
    first. *)
Definition two_segments : list chunk_env :=
  [smooth chunk_a nine_thirty; smooth chunk_b nine_thirty_five;
   smooth chunk_c nine_forty_five].




End MoreScenarios.

(** ** The two command lines of [_camera_streaming_loop] *)

From Stdlib Require DecimalString.

Module Commands.

Import Pathlib.

Local Open Scope Z_scope.

(** [list.insert(i, x)]: a negative index counts from the end, and an index
    outside the list is clamped to its ends. *)
Definition py_insert {A} (i : Z) (x : A) (l : list A) : list A :=
  let n := Z.of_nat (length l) in
  let i1 := if i <? 0 then i + n else i in
  let i2 := if i1 <? 0 then 0 else if n <? i1 then n else i1 in
  (take (Z.to_nat i2) l ++ x :: drop (Z.to_nat i2) l)%list.

(** [str(n)] for an [int]. *)
Definition str_int (z : Z) : string :=
  DecimalString.NilZero.string_of_int (Z.to_int z).

(** The settings [__init__] reads that the command lines use. *)
Record settings := mkSettings {
  width : Z; height : Z; framerate : Z; vflip : bool; hls_dir : string
}.

Definition rpicam_base (s : settings) : list string :=
  ["rpicam-vid"; "-t"; "0";
   "--width"; str_int (width s);
   "--height"; str_int (height s);
   "--framerate"; str_int (framerate s);
   "--nopreview"; "--codec"; "h264"; "--profile"; "high"; "--inline";
   "--level"; "4.2"; "-o"; "-"]%string.

(** [rpicam_cmd] after the conditional [insert(-2, "--vflip")]. *)
Definition rpicam_cmd (s : settings) : list string :=
  if vflip s then py_insert (-2) "--vflip"%string (rpicam_base s)
  else rpicam_base s.

Definition ffmpeg_cmd (s : settings) : list string :=
  ["ffmpeg"; "-nostdin"; "-f"; "h264"; "-i"; "-"; "-c"; "copy"; "-f"; "hls";
   "-hls_time"; "2"; "-hls_list_size"; "5"; "-hls_flags"; "delete_segments";
   str (truediv (hls_dir s) "webcam.m3u8")]%string.

(** The value that follows the first occurrence of an option. *)
Fixpoint option_value (opt : string) (cmd : list string) : option string :=
  match cmd with
  | [] => None
  | a :: rest =>
      if String.eqb a opt
      then match rest with v :: _ => Some v | [] => None end
      else option_value opt rest
  end.

Definition is_digit (c : ascii) : bool :=
  (48 <=? Z.of_nat (nat_of_ascii c)) && (Z.of_nat (nat_of_ascii c) <=? 57).

(** Text that begins like a decimal numeral: a digit, or a minus sign and a
    digit. *)
Definition intlike (s : string) : bool :=
  match s with
  | String c rest =>
      is_digit c
      || (Ascii.eqb c "-"
          && match rest with String d _ => is_digit d | EmptyString => false end)
  | EmptyString => false
  end.

End Commands.

(** ** [_clean_old_hls_segments] over the live-output directory *)

Module Janitor.

Import Pathlib Recorder.

(** [fnmatch] of a file name against [webcam*.ts]. *)
Definition is_fragment (n : string) : bool :=
  (9 <=? String.length n)%nat && startswith "webcam" n && endswith ".ts" n.

(** The pattern [webcam.m3u8] has no wildcard: it matches that name only. *)
Definition is_manifest (n : string) : bool := String.eqb n "webcam.m3u8".

(** [hls_dir.glob(pattern)]: the entries of the directory, as it is listed
    when the loop starts, that match. *)
Definition glob (matches : string -> bool) (dir : list string) : list string :=
  List.filter matches dir.

Definition remove_name (n : string) (dir : list string) : list string :=
  List.filter (fun m => negb (String.eqb m n)) dir.

(** [for file in names: file.unlink()].  [fails] tells for which names
    [unlink] raises; the result is the directory afterwards and the name at
    which the loop was left by an exception, if it was. *)
Fixpoint unlink_each (fails : string -> bool) (names dir : list string)
  : list string * option string :=
  match names with
  | [] => (dir, None)
  | n :: rest =>
      if fails n then (dir, Some n)
      else unlink_each fails rest (remove_name n dir)
  end.

Definition warning : level * string :=
  (WARNING, "Failed to clean old HLS segments").

(** The method: both loops inside one [try], any exception turned into one
    warning.  The value is the directory afterwards and what was logged. *)
Definition _clean_old_hls_segments (fails : string -> bool) (dir : list string)
  : list string * list (level * string) :=
  match unlink_each fails (glob is_fragment dir) dir with
  | (dir1, Some _) => (dir1, [warning])
  | (dir1, None) =>
      match unlink_each fails (glob is_manifest dir1) dir1 with
      | (dir2, Some _) => (dir2, [warning])
      | (dir2, None) => (dir2, [])
      end
  end.

(** A file of the rolling stream. *)
Definition is_stream_file (n : string) : bool := is_fragment n || is_manifest n.

End Janitor.

(** ** Starting the streaming thread *)

Module Lifecycle.

Import Recorder.

(** A [threading.Thread] object. *)
Record Thread := mkThread { tid : nat }.

(** The fields [__init__], [on_init_to_ready] and [start_camera_streaming]
    touch, the threads started so far and the log. *)
Record job := mkJob {
  camera_process : option Popen;
  ffmpeg_process : option Popen;
  streaming_thread : option Thread;
  current_file_handle : option file;
  is_recording : bool;
  started : list Thread;
  log : list (level * string)
}.

(** The fields as [__init__] sets them (the configuration aside). *)
Definition __init__ : job :=
  {| camera_process := None; ffmpeg_process := None; streaming_thread := None;
     current_file_handle := None; is_recording := false;
     started := []; log := [] |}.

(** [start_camera_streaming].  [alive] is what [is_alive()] answers and
    [new] is the thread object the constructor returns. *)
Definition start_camera_streaming (alive : Thread -> bool) (new : Thread) (j : job) : job :=
  let start :=
    {| camera_process := camera_process j; ffmpeg_process := ffmpeg_process j;
       streaming_thread := Some new;
       current_file_handle := current_file_handle j;
       is_recording := is_recording j;
       started := (started j ++ [new])%list;
       log := (log j ++ [(INFO, "Starting camera streaming")])%list |} in
  match streaming_thread j with
  | Some t => if alive t then j else start
  | None => start
  end.

(** [on_init_to_ready]; [super().on_init_to_ready()] belongs to the host
    framework. *)
Definition on_init_to_ready (alive : Thread -> bool) (new : Thread) (j : job) : job :=
  start_camera_streaming alive new
    {| camera_process := camera_process j; ffmpeg_process := ffmpeg_process j;
       streaming_thread := streaming_thread j;
       current_file_handle := current_file_handle j;
       is_recording := is_recording j;
       started := started j;
       log := (log j ++ [(INFO, "Webcam recorder initialized and ready")])%list |}.

End Lifecycle.

(** ** Vocabulary for whole runs *)

Module Runs.

Import Pathlib Datetime Recorder Spec.

(** *** Calls of [set_is_recording] *)

(** The calls of a sequence that change the flag, starting from [cur]. *)
Fixpoint flips (cur : bool) (vs : list bool) : list bool :=
  match vs with
  | [] => []
  | v :: vs' => if Bool.eqb v cur then flips cur vs' else v :: flips v vs'
  end.

(** Each value is the opposite of the one before it, the first the opposite
    of [cur]. *)
Fixpoint alternating (cur : bool) (vs : list bool) : Prop :=
  match vs with
  | [] => True
  | v :: vs' => v = negb cur /\ alternating v vs'
  end.

(** The line [set_is_recording] logs when it changes the flag to [v]. *)
Definition recording_message (v : bool) : effect :=
  Log INFO ("Recording " +:+ (if v then "enabled" else "disabled")).

(** *** Clock readings [datetime] can hold *)

Definition on_calendar (d : datetime) : Prop :=
  (1 <= year d <= 9999 /\ 1 <= month d <= 12 /\ 1 <= day d <= 31
   /\ 0 <= hour d <= 23 /\ 0 <= minute d <= 59 /\ 0 <= second d <= 59)%Z.

(** Equal up to the microseconds. *)
Definition same_second (a b : datetime) : Prop :=
  year a = year b /\ month a = month b /\ day a = day b
  /\ hour a = hour b /\ minute a = minute b /\ second a = second b.

(** *** Children *)

(** The child of the given program started last in a trace; [before] if the
    trace starts none. *)
Definition last_spawned (which : program) (tr : list effect) (before : option Popen)
  : option Popen :=
  fold_left
    (fun acc e =>
       match e with
       | Spawn p => if program_eqb (prog p) which then Some p else acc
       | _ => acc
       end)
    tr before.

Definition is_spawn (e : effect) : bool :=
  match e with Spawn _ => true | _ => false end.

(** The process fields are as before and no child was started. *)
Definition steady (r r' : recorder) : Prop :=
  camera_process r' = camera_process r
  /\ ffmpeg_process r' = ffmpeg_process r
  /\ exists em, trace r' = (trace r ++ em)%list
               /\ Forall (fun e => is_spawn e = false) em.

(** The process fields hold the children started last. *)
Definition fields_follow_spawns (r r' : recorder) : Prop :=
  exists em, trace r' = (trace r ++ em)%list
             /\ camera_process r' = last_spawned rpicam_vid em (camera_process r)
             /\ ffmpeg_process r' = last_spawned ffmpeg em (ffmpeg_process r).

(** *** Which staging file a rename may take *)

(** The staging file a pipeline pass has open for its own segment, as far as
    the trace shows it: set by an open, cleared by a rename and by the start
    of a child. *)
Definition own_state (cur : option string) (e : effect) : option string :=
  match e with
  | FsOpen n => Some n
  | FsRename _ _ => None
  | Spawn _ => None
  | _ => cur
  end.

(** Every rename of the trace takes the file that was opened since the last
    start of a child and not renamed since. *)
Fixpoint owned (cur : option string) (tr : list effect) : Prop :=
  match tr with
  | [] => True
  | e :: tr' =>
      match e with
      | FsRename s _ => cur = Some s
      | _ => True
      end
      /\ owned (own_state cur e) tr'
  end.

(** The trace has grown by a stretch in which every rename takes the pass's
    own staging file, whatever was open before the stretch. *)
Definition promotes_own (r r' : recorder) : Prop :=
  exists em, trace r' = (trace r ++ em)%list /\ forall c, owned c em.

(** Effects that neither touch the archive directory nor start a child. *)
Definition is_plain (e : effect) : bool :=
  negb (Invariants.is_fs_effect e) && negb (is_spawn e).

(** The loop's segment path, when set, is the one whose staging file the
    trace shows as the pass's own. *)
Definition agrees (l : locals) (cur : option string) : Prop :=
  match current_file_path l with
  | None => True
  | Some p =>
      match with_suffix p ".tmp" with
      | Some tmp => cur = Some (name tmp)
      | None => True
      end
  end.

(** *** Starting a pipeline *)

Definition is_startup (e : effect) : bool :=
  match e with HlsClean _ | Spawn _ => true | _ => false end.

(** What a pass of the outer loop does to start its pipeline: it cleans the
    HLS directory, starts the capture child and then the transcode child,
    and gets no further than the first start that fails. *)
Definition starts_of (i : iter_env) : list effect :=
  HlsClean (i_clean_ok i)
  :: match i_camera i with
     | None => []
     | Some n =>
         Spawn {| prog := rpicam_vid; pid := n |}
         :: match i_ffmpeg i with
            | None => []
            | Some m => [Spawn {| prog := ffmpeg; pid := m |}]
            end
     end.

(** The trace has grown, and the start-up effects it has grown by are [X]. *)
Definition starts (X : list effect) (r r' : recorder) : Prop :=
  exists em, trace r' = (trace r ++ em)%list /\ List.filter is_startup em = X.

(** *** Failures of the program's own making *)

(** The loop's two local variables are set together, and while they are set
    the job holds a handle that has not been closed, on a segment whose
    final name has the expected shape. *)
Definition in_segment (l : locals) (r : recorder) : Prop :=
  match current_segment_start l, current_file_path l with
  | None, None => True
  | Some _, Some p =>
      (exists dir ts, p = truediv dir ("raw_" +:+ ts +:+ ".h264"))
      /\ exists n, current_file_handle r
                   = Some {| f_name := n; closed := false; buffered := [] |}
  | _, _ => False
  end.

(** If the computation ended by an exception, it is one the operating system
    raised ([OSError] or its subclass [BrokenPipeError]), not one caused by a
    missing child, a closed file or a malformed path. *)
Definition os_error_only {A} (o : outcome A) : Prop :=
  match o with
  | Raise x => isinstance_OSError x = true
  | _ => True
  end.

(** *** Computations that come to an end *)

(** [m] returns or raises from every state; it never waits for the
    environment. *)
Definition settles {A} (m : M A) : Prop := forall r, snd (m r) <> Pending.

(** A pass that handed its chunk to ffmpeg. *)
Definition handed_over (e : chunk_env) : Prop :=
  e_chunk e <> [] /\ e_pipe e = Delivered.

End Runs.

(** ** Vocabulary for failures and names *)

Module Passes.

Import Pathlib Datetime Recorder Spec.

(** The value of [is_recording] after the passes [es] of the inner loop,
    started with [flag]: each pass sees the last value another thread
    assigned before it. *)
Definition flag_after (flag : bool) (es : list chunk_env) : bool :=
  fold_left (fun f c => List.last (e_toggles c) f) es flag.

(** A pass that hands a chunk to ffmpeg and whose archive operations all
    work. *)
Definition uneventful (c : chunk_env) : Prop := faultless c /\ e_chunk c <> [].


(** The clock readings that name the segments of a run. *)
Definition stamps (passes : list iter_env) : list datetime :=
  flat_map (fun i => map e_now_stamp (i_chunks i)) passes.

(** [n] is the staging name of a segment named after one of the readings
    [ds]: [raw_<timestamp>.tmp]. *)
Definition staging_name_of (ds : list datetime) (n : string) : Prop :=
  exists d, In d ds /\ n = "raw_" +:+ strftime d +:+ ".tmp".

(** What the archive side of the loop may do: open a staging name; write to
    and close a staging name or the file [left] of a handle that was there
    before the run; rename a staging name to the final name with the same
    timestamp. *)
Definition staged_effect (ds : list datetime) (left : option string) (e : effect)
  : Prop :=
  match e with
  | FsOpen n => staging_name_of ds n
  | FsWrite n _ | FsClose n => staging_name_of ds n \/ left = Some n
  | FsRename s t =>
      exists d, In d ds
                /\ s = "raw_" +:+ strftime d +:+ ".tmp"
                /\ t = "raw_" +:+ strftime d +:+ ".h264"
  | _ => True
  end.

(** The handle the job holds is on a staging name or is the one that was
    there before the run. *)
Definition handle_named (ds : list datetime) (left : option string) (r : recorder)
  : Prop :=
  match current_file_handle r with
  | Some f => staging_name_of ds (f_name f) \/ left = Some (f_name f)
  | None => True
  end.

(** The loop's segment path, when set, is a final path named after one of
    the readings. *)
Definition path_named (ds : list datetime) (l : locals) : Prop :=
  match current_file_path l with
  | None => True
  | Some p => exists dir d, In d ds /\ p = final_path dir d
  end.

End Passes.
(** * Properties *)

Module PathlibFacts.

Import Pathlib.

Lemma append_cons (c : ascii) (a b : string) :
  String c a +:+ b = String c (a +:+ b).
Proof. reflexivity. Qed.

Lemma append_nil_l (b : string) : "" +:+ b = b.
Proof. reflexivity. Qed.

Lemma length_append (a b : string) :
  String.length (a +:+ b) = String.length a + String.length b.
Proof.
  induction a as [|c a IH]; [reflexivity|].
  rewrite append_cons. simpl. now rewrite IH.
Qed.

Lemma append_assoc (a b c : string) : (a +:+ b) +:+ c = a +:+ (b +:+ c).
Proof.
  induction a as [|x a IH]; [reflexivity|].
  rewrite !append_cons. now rewrite IH.
Qed.

Lemma rfind_append (c : ascii) (a b : string) :
  rfind c (a +:+ b) =
  match rfind c b with
  | Some i => Some (String.length a + i)
  | None => rfind c a
  end.
Proof.
  induction a as [|x a IH].
  - rewrite append_nil_l. destruct (rfind c b); reflexivity.
  - rewrite append_cons. simpl. rewrite IH. destruct (rfind c b); reflexivity.
Qed.

Lemma drop_str_append (a b : string) : drop_str (String.length a) (a +:+ b) = b.
Proof.
  induction a as [|x a IH]; [now destruct b|].
  rewrite append_cons. exact IH.
Qed.

Lemma take_str_append (a b : string) : take_str (String.length a) (a +:+ b) = a.
Proof.
  induction a as [|x a IH]; [reflexivity|].
  rewrite append_cons. simpl. now rewrite IH.
Qed.

Lemma endswith_append (suf a t : string) :
  String.length t = String.length suf ->
  endswith suf (a +:+ t) = String.eqb t suf.
Proof.
  intros Hlen. unfold endswith. rewrite length_append, Hlen.
  replace (String.length a + String.length suf - String.length suf)
    with (String.length a) by lia.
  rewrite drop_str_append.
  replace (String.length suf <=? String.length a + String.length suf)%nat
    with true by (symmetry; apply Nat.leb_le; lia).
  reflexivity.
Qed.

Lemma suffix_h264 (stem : string) :
  stem <> "" -> suffix (stem +:+ ".h264") = ".h264".
Proof.
  intros Hne. unfold suffix. rewrite rfind_append.
  change (rfind "." ".h264") with (Some 0). cbv beta iota.
  rewrite Nat.add_0_r, length_append.
  change (String.length ".h264") with 5.
  destruct stem as [|c stem]; [congruence|].
  change (String.length (String c stem)) with (S (String.length stem)).
  replace (0 <? S (String.length stem))%nat with true
    by (symmetry; apply Nat.ltb_lt; lia).
  replace (S (String.length stem) <? S (String.length stem) + 5 - 1)%nat
    with true by (symmetry; apply Nat.ltb_lt; lia).
  exact (drop_str_append (String c stem) ".h264").
Qed.

Lemma with_suffix_h264_tmp (dir stem : string) :
  stem <> "" ->
  with_suffix (truediv dir (stem +:+ ".h264")) ".tmp"
  = Some (truediv dir (stem +:+ ".tmp")).
Proof.
  intros Hne. unfold with_suffix, truediv. simpl parent. simpl name.
  assert (Hnm : String.eqb (stem +:+ ".h264") "" = false).
  { destruct stem; [congruence | reflexivity]. }
  rewrite Hnm, suffix_h264 by assumption.
  change (rfind "/" ".tmp") with (@None nat).
  change (String.eqb ".tmp" "") with false.
  change (startswith "." ".tmp") with true.
  change (String.eqb ".tmp" ".") with false.
  change (String.eqb ".h264" "") with false.
  cbv beta iota zeta delta [orb andb negb].
  rewrite length_append. change (String.length ".h264") with 5.
  replace (String.length stem + 5 - 5) with (String.length stem) by lia.
  now rewrite take_str_append.
Qed.

Lemma take_drop_str (i : nat) (s : string) : take_str i s +:+ drop_str i s = s.
Proof.
  revert s; induction i as [|i IH]; intros [|c s]; try reflexivity.
  simpl. rewrite append_cons. now rewrite IH.
Qed.

Lemma endswith_split (suf s : string) :
  endswith suf s = true -> exists a, s = a +:+ suf.
Proof.
  unfold endswith. intros H. apply andb_prop in H as [_ H].
  apply String.eqb_eq in H.
  exists (take_str (String.length s - String.length suf) s).
  pose proof (take_drop_str (String.length s - String.length suf) s) as E.
  rewrite H in E. now symmetry.
Qed.

Lemma last_char_append (a t : string) :
  t <> "" -> last_char (a +:+ t) = last_char t.
Proof.
  intros Ht. induction a as [|c a IH]; [reflexivity|].
  rewrite append_cons. simpl. rewrite IH.
  destruct t as [|d t]; [congruence|]. simpl. now destruct (last_char t).
Qed.

Lemma tmp_not_final (stem : string) : is_final_name (stem +:+ ".tmp") = false.
Proof.
  unfold is_final_name.
  destruct (endswith ".h264" (stem +:+ ".tmp")) eqn:E;
    [|now rewrite andb_false_r].
  apply endswith_split in E as [a Ha].
  apply (f_equal last_char) in Ha.
  rewrite !last_char_append in Ha by discriminate.
  discriminate Ha.
Qed.

Lemma h264_is_final (ts : string) :
  is_final_name ("raw_" +:+ ts +:+ ".h264") = true.
Proof.
  unfold is_final_name.
  rewrite <- append_assoc.
  rewrite (endswith_append ".h264" ("raw_" +:+ ts) ".h264") by reflexivity.
  rewrite !length_append.
  change (String.length "raw_") with 4. change (String.length ".h264") with 5.
  replace (9 <=? 4 + String.length ts + 5)%nat with true
    by (symmetry; apply Nat.leb_le; lia).
  rewrite append_assoc. reflexivity.
Qed.

End PathlibFacts.

Module RecorderFacts.

Import Pathlib Datetime Recorder PathlibFacts.
Local Open Scope recorder_scope.

Lemma staging_of_final (dir ts : string) :
  with_suffix (truediv dir ("raw_" +:+ ts +:+ ".h264")) ".tmp"
  = Some (truediv dir ("raw_" +:+ ts +:+ ".tmp")).
Proof.
  rewrite <- !append_assoc.
  apply with_suffix_h264_tmp. discriminate.
Qed.

Lemma staging_not_final (ts : string) :
  is_final_name ("raw_" +:+ ts +:+ ".tmp") = false.
Proof. rewrite <- append_assoc. apply tmp_not_final. Qed.

Ltac mrun :=
  cbv beta iota zeta delta
    [bind ret raise block gets modify try_except emit logger sleep value_of
     on_exception
     with_trace with_archive with_camera_process with_ffmpeg_process
     with_current_file_handle with_is_recording
     trace archive camera_process ffmpeg_process current_file_handle
     is_recording save_dir segment_duration].

End RecorderFacts.

Import Pathlib Datetime Recorder PathlibFacts RecorderFacts.
Local Open Scope recorder_scope.

(** C9: [set_is_recording] returns normally for either argument, and a call
    with the value the flag already has leaves the whole job state as it
    was. *)
Theorem C9_set_is_recording_returns (value : bool) (r : recorder) :
  snd (set_is_recording value r) = Ok tt
  /\ set_is_recording (is_recording r) r = (r, Ok tt).
Proof.
  split.
  - unfold set_is_recording, bind, gets. simpl.
    destruct (Bool.eqb value (is_recording r)); reflexivity.
  - unfold set_is_recording, bind, gets. simpl.
    now rewrite Bool.eqb_reflx.
Qed.
Import Spec Scenarios.

(** Runs a stop on a state whose fields are known, and settles what the
    close flushes: nothing, or at least one byte. *)
Ltac stop_run :=
  cbv beta iota zeta delta
    [stop_camera_streaming on_disconnected stop_process wait_timeout file_close
     flushed_at_close with_buffered isinstance_TimeoutExpired
     bind ret raise block gets modify try_except emit logger sleep
     with_trace with_archive with_camera_process with_ffmpeg_process
     with_current_file_handle with_is_recording
     trace archive camera_process ffmpeg_process current_file_handle
     is_recording save_dir segment_duration
     f_name closed buffered fst snd
     s_camera_exits s_ffmpeg_exits s_close_ok s_close_partial
     graceful_then_forced].

Ltac stop_cases :=
  stop_run;
  repeat match goal with
         | |- context [match ?x with [] => _ | _ :: _ => _ end] =>
             destruct x; stop_run
         end.

(** C8: stopping performs, for the capture child and then for the transcode
    child, exactly the graceful-then-forced sequence of the specification
    (terminate, wait at most 10, and on timeout kill and wait), which always
    contains a wait that has returned; both fields are cleared; with nothing
    running the call only logs its message and returns normally. *)
Theorem C8_stop_is_graceful_then_forced (s : stop_env) (r : recorder) :
  let r' := fst (stop_camera_streaming s r) in
  process_effects (trace r')
  = (process_effects (trace r)
     ++ graceful_then_forced (camera_process r) (s_camera_exits s)
     ++ graceful_then_forced (ffmpeg_process r) (s_ffmpeg_exits s))%list
  /\ camera_process r' = None
  /\ ffmpeg_process r' = None
  /\ (forall (p : Popen) (b : bool),
         reaped p (graceful_then_forced (Some p) b) = true)
  /\ (forall rec dir minutes files tr,
         stop_camera_streaming s
           (mkRecorder None None None rec dir minutes files tr)
         = (mkRecorder None None None rec dir minutes files
              (tr ++ [Log INFO "Stopping camera streaming"])%list, Ok tt)).
Proof.
  destruct s as [ce fe ok part], r as [cp fp h rec dir mins files tr].
  split; [|split; [|split; [|split]]].
  - unfold process_effects.
    destruct cp as [p|], fp as [q|], h as [[n [|] buf]|], ce, fe, ok; stop_cases;
      rewrite ?List.filter_app; cbn [List.filter is_process_effect];
      rewrite <- ?app_assoc, ?app_nil_r; reflexivity.
  - destruct cp as [p|], fp as [q|], h as [[n [|] buf]|], ce, fe, ok; stop_cases;
      reflexivity.
  - destruct cp as [p|], fp as [q|], h as [[n [|] buf]|], ce, fe, ok; stop_cases;
      reflexivity.
  - intros [[|] n] [|]; cbn; unfold Popen_eqb; cbn; now rewrite ?Nat.eqb_refl.
  - intros; reflexivity.
Qed.

(** C4 (the code departs from it): with a segment open, the shutdown path
    closes the handle and clears the field but renames nothing, so the
    staging file stays in the archive directory under its [.tmp] name and
    no final file appears. *)
Theorem C4_shutdown_leaves_staging_file :
  let r := fst (on_disconnected all_exit mid_segment) in
  snd (on_disconnected all_exit mid_segment) = Ok tt
  /\ current_file_handle mid_segment
     = Some {| f_name := "raw_2024-05-17_09-30-00.tmp"; closed := false;
               buffered := [] |}
  /\ current_file_handle r = None
  /\ archive r !! "raw_2024-05-17_09-30-00.tmp" = Some chunk_a
  /\ archive r !! "raw_2024-05-17_09-30-00.h264" = None
  /\ archive r = archive mid_segment.
Proof. vm_compute. repeat split. Qed.

Lemma guarded_pipeline_cases (i : iter_env) (r : recorder) :
  guarded_pipeline i r =
  match pipeline i r with
  | (r1, Raise e) =>
      (with_trace
         (trace r1 ++ [Log ERROR ("Error in camera streaming loop: "
                                  +:+ i_exn_text i e);
                       Sleep 5])%list r1, Ok tt)
  | res => res
  end.
Proof.
  unfold guarded_pipeline, try_except.
  destruct (pipeline i r) as [r1 [[]|e|]]; try reflexivity.
  destruct r1; mrun. now rewrite <- app_assoc.
Qed.


Lemma loop_unfold (i : iter_env) (rest : list iter_env) (r : recorder) :
  is_disconnected (i_state i) = false ->
  _camera_streaming_loop (i :: rest) r =
  match guarded_pipeline i r with
  | (r1, Ok _) => _camera_streaming_loop rest r1
  | (r1, Raise e) => (r1, Raise e)
  | (r1, Pending) => (r1, Pending)
  end.
Proof. intros H. cbn. rewrite H. reflexivity. Qed.


Lemma pipeline_cooldown (i : iter_env) (r : recorder) :
  pipeline i r =
  match stream_once i r with
  | (r0, Ok returncode) =>
      if negb (returncode =? 0)%Z && negb (is_disconnected (i_state_end i))
      then (with_trace
              (trace r0 ++ [Log ERROR "Camera streaming failed, restarting in 5 seconds";
                            Sleep 5])%list r0, Ok tt)
      else (r0, Ok tt)
  | (r0, Raise e) => (r0, Raise e)
  | (r0, Pending) => (r0, Pending)
  end.
Proof.
  unfold pipeline, bind.
  destruct (stream_once i r) as [r0 [rc|e|]]; try reflexivity.
  destruct (negb (rc =? 0)%Z && negb (is_disconnected (i_state_end i))); [|reflexivity].
  destruct r0; mrun. now rewrite <- app_assoc.
Qed.


(** C7 (the code departs from it): when the write to ffmpeg's standard input
    raises, the relay logs the warning and leaves the inner loop, but the
    next statement waits for the capture child without having terminated
    it; while that child keeps running the outer loop does not get control
    back and nothing is restarted, although a further pass is available. *)
Theorem C7_broken_pipe_blocks_in_wait :
  let run := _camera_streaming_loop
               [camera_keeps_running [pipe_closed chunk_a nine_thirty];
                restarted [smooth chunk_b nine_thirty_five]] (fresh false) in
  snd run = Pending
  /\ trace (fst run)
     = [HlsClean true; Spawn (mkPopen rpicam_vid 100); Spawn (mkPopen ffmpeg 101);
        Log WARNING "HLS stream disconnected"]
  /\ spawn_count (trace (fst run)) = 2
  /\ delivered_chunks (trace (fst run)) = [].
Proof. vm_compute. repeat split. Qed.

Lemma broken_pipe_restarts_once_camera_exits :
  let run := _camera_streaming_loop
               [healthy [pipe_closed chunk_a nine_thirty];
                restarted [smooth chunk_b nine_thirty_five]] (fresh false) in
  process_effects (trace (fst run))
  = [Spawn (mkPopen rpicam_vid 100); Spawn (mkPopen ffmpeg 101);
     Wait (mkPopen rpicam_vid 100); Wait (mkPopen ffmpeg 101);
     Spawn (mkPopen rpicam_vid 200); Spawn (mkPopen ffmpeg 201)]
  /\ delivered_chunks (trace (fst run)) = [chunk_b].
Proof. vm_compute. repeat split. Qed.

Module StagingFacts.

Lemma disciplined_weaken (c : option string) (tr : list effect) :
  disciplined None tr -> disciplined c tr.
Proof.
  destruct tr as [|e tr]; [trivial|].
  destruct e; cbn; try tauto. intros [H _]; discriminate.
Qed.

Lemma disciplined_app (c : option string) (a b : list effect) :
  disciplined c a -> disciplined None b -> disciplined c (a ++ b).
Proof.
  revert c; induction a as [|e a IH]; intros c Ha Hb.
  - now apply disciplined_weaken.
  - destruct e; cbn in *; try (apply IH; assumption);
      try (destruct Ha as [? ?]; split; [assumption | apply IH; assumption]).
    destruct Ha as (? & ? & ?). repeat split; try assumption. now apply IH.
Qed.

End StagingFacts.

Module LoopFacts.

Import Pathlib Datetime Recorder Spec Invariants PathlibFacts RecorderFacts StagingFacts.
Local Open Scope recorder_scope.

Ltac atomic x :=
  lazymatch x with
  | context [match _ with _ => _ end] => fail
  | _ => idtac
  end.

Ltac mstep :=
  cbv beta iota zeta delta
    [bind ret raise block gets modify try_except emit logger sleep value_of
     on_exception
     with_trace with_archive with_camera_process with_ffmpeg_process
     with_current_file_handle with_is_recording
     trace archive camera_process ffmpeg_process current_file_handle
     is_recording save_dir segment_duration
     record_chunk promote file_close file_write open_wb path_rename
     path_exists final_path truediv name parent closed f_name buffered
     with_buffered flushed_at_close e_close_partial
     current_file_path current_segment_start
     e_chunk e_pipe e_toggles e_now_check e_now_stamp e_now_start
     e_close_ok e_rename_ok e_open_ok e_write].

(** Symbolic execution: normalise, then split on the next test whose
    scrutinee is not itself a conditional. *)
Ltac crack :=
  repeat first
    [ progress mstep
    | rewrite staging_of_final
    | match goal with
      | H : ?m !! ?k = Some _ |- context [?m !! ?k] => rewrite H
      | |- context [bool_decide (is_Some (Some ?x))] =>
          change (bool_decide (is_Some (Some x))) with true
      | |- context [match ?x with _ => _ end] =>
          atomic x; first [is_var x; destruct x | destruct x eqn:?]
      end ].

Ltac same_lookup :=
  repeat match goal with
  | H1 : ?x = Some ?a, H2 : ?x = Some ?b |- _ =>
      rewrite H1 in H2; injection H2 as H2; subst
  end.

(** *** Final names under the archive operations *)

Lemma finals_kept_refl (a : gmap string bytes) : finals_kept a a.
Proof. intros n _ H; exact H. Qed.

Lemma finals_kept_trans (a b c : gmap string bytes) :
  finals_kept a b -> finals_kept b c -> finals_kept a c.
Proof. intros H1 H2 n Hn Hl. apply H1; [assumption|]. now apply H2. Qed.

Lemma finals_kept_insert_staging (a0 a : gmap string bytes) (k : string) (v : bytes) :
  is_final_name k = false -> finals_kept a0 a -> finals_kept a0 (<[k:=v]> a).
Proof.
  intros Hk H n Hn Hl. apply H; [assumption|].
  rewrite lookup_insert_ne in Hl; [assumption | congruence].
Qed.

Lemma finals_kept_append_staging (a0 a : gmap string bytes) (k : string) (v : bytes) :
  is_final_name k = false -> finals_kept a0 a -> finals_kept a0 (append_bytes k v a).
Proof. apply finals_kept_insert_staging. Qed.

Lemma finals_kept_insert_nonempty (a0 a : gmap string bytes) (k : string) (v : bytes) :
  v <> [] -> finals_kept a0 a -> finals_kept a0 (<[k:=v]> a).
Proof.
  intros Hv H n Hn Hl. destruct (decide (k = n)) as [->|Hne].
  - rewrite lookup_insert_eq in Hl. congruence.
  - rewrite lookup_insert_ne in Hl by assumption. now apply H.
Qed.

Lemma finals_kept_delete (a0 a : gmap string bytes) (k : string) :
  finals_kept a0 a -> finals_kept a0 (delete k a).
Proof.
  intros H n Hn Hl. apply H; [assumption|].
  destruct (decide (k = n)) as [->|Hne].
  - now rewrite lookup_delete_eq in Hl.
  - now rewrite lookup_delete_ne in Hl.
Qed.

Lemma same_except_refl (ds : list string) (a : gmap string bytes) :
  finals_same_except ds a a.
Proof. intros n _; now left. Qed.

Lemma same_except_insert_staging (ds : list string) (a0 a : gmap string bytes)
      (k : string) (v : bytes) :
  is_final_name k = false ->
  finals_same_except ds a0 a -> finals_same_except ds a0 (<[k:=v]> a).
Proof.
  intros Hk H n Hn. rewrite lookup_insert_ne by congruence. now apply H.
Qed.

Lemma same_except_append_staging (ds : list string) (a0 a : gmap string bytes)
      (k : string) (v : bytes) :
  is_final_name k = false ->
  finals_same_except ds a0 a -> finals_same_except ds a0 (append_bytes k v a).
Proof. apply same_except_insert_staging. Qed.

Lemma same_except_delete_staging (ds : list string) (a0 a : gmap string bytes)
      (k : string) :
  is_final_name k = false ->
  finals_same_except ds a0 a -> finals_same_except ds a0 (delete k a).
Proof.
  intros Hk H n Hn. rewrite lookup_delete_ne by congruence. now apply H.
Qed.

Lemma same_except_insert_listed (ds : list string) (a0 a : gmap string bytes)
      (k : string) (v : bytes) :
  In k ds ->
  finals_same_except ds a0 a -> finals_same_except ds a0 (<[k:=v]> a).
Proof.
  intros Hk H n Hn. destruct (decide (k = n)) as [->|Hne].
  - now right.
  - rewrite lookup_insert_ne by assumption. now apply H.
Qed.

Lemma append_bytes_nonempty (k : string) (v : bytes) (a : gmap string bytes) :
  v <> [] ->
  exists data, append_bytes k v a !! k = Some data /\ data <> [].
Proof.
  intros Hv. unfold append_bytes. rewrite lookup_insert_eq.
  eexists; split; [reflexivity|].
  intros H. apply app_eq_nil in H as [_ H]. contradiction.
Qed.

Ltac staging_side := first [apply staging_not_final | assumption].

Ltac finals :=
  repeat first
    [ apply finals_kept_refl
    | apply finals_kept_append_staging; [staging_side|]
    | apply finals_kept_insert_staging; [staging_side|]
    | apply finals_kept_insert_nonempty; [assumption|]
    | apply finals_kept_delete ].

Ltac same_except :=
  repeat first
    [ apply same_except_refl
    | apply same_except_append_staging; [staging_side|]
    | apply same_except_insert_staging; [staging_side|]
    | apply same_except_delete_staging; [staging_side|]
    | apply same_except_insert_listed; [cbn; tauto|] ].

Ltac seg_intro :=
  match goal with
  | Hc : ?chunk <> [] |- exists _ _ _, _ /\ _ /\ append_bytes ?k ?chunk ?m !! _ = _ /\ _ =>
      let data := fresh "data" in
      let H1 := fresh in let H2 := fresh in
      destruct (append_bytes_nonempty k chunk m Hc) as (data & H1 & H2);
      eexists _, _, data; repeat split; [exact H1 | exact H2]
  end.

Ltac emitted :=
  first [ exists []; split; [symmetry; apply app_nil_r|]
        | eexists; split; [rewrite <- ?app_assoc; reflexivity|] ].

Ltac discipline :=
  cbn; repeat split; try reflexivity; try staging_side;
  try (eexists; split; reflexivity).

Ltac evolve :=
  split; [finals|]; emitted; split; [discipline | cbn; same_except].

Lemma record_chunk_sound (e : chunk_env) (l : locals) (chunk : bytes) (r : recorder) :
  chunk <> [] -> handle_staged r -> seg_ok l r ->
  let '(r', o) := record_chunk e l chunk r in
  handle_staged r' /\ evolves r r'
  /\ match o with Ok l' => seg_ok l' r' | _ => True end.
Proof.
  intros Hc Hh Hs.
  destruct r as [cp fp h rec dir mins files tr].
  destruct e as [ch pr tg t1 t2 t3 cok rok ook wr cpart].
  destruct l as [st [p|]]; unfold seg_ok, handle_staged, evolves in *;
    cbn in Hs, Hh.
  - destruct Hs as (d & ts & data & -> & -> & Hdata & Hne).
    crack; same_lookup; (split; [exact I || staging_side|]);
      (split; [evolve|]); try exact I; try seg_intro.
  - destruct h as [[nm cl buf]|]; crack; same_lookup;
      (split; [exact I || staging_side|]);
      (split; [evolve|]); try exact I; try seg_intro.
Qed.

Lemma record_chunk_rename_fails (e : chunk_env) (l : locals) (chunk : bytes) (r : recorder) :
  e_rename_ok e = false -> handle_staged r -> seg_ok l r ->
  let '(r', _) := record_chunk e l chunk r in finals_untouched r r'.
Proof.
  intros Hr Hh Hs.
  destruct r as [cp fp h rec dir mins files tr].
  destruct e as [ch pr tg t1 t2 t3 cok rok ook wr cpart]. cbn in Hr. subst rok.
  assert (Hu : forall a, finals_same_except [] files a ->
                         forall n, is_final_name n = true -> a !! n = files !! n).
  { intros a Ha n Hn. destruct (Ha n Hn) as [H|[]]. exact H. }
  destruct l as [st [p|]]; unfold seg_ok, handle_staged, finals_untouched in *;
    cbn in Hs, Hh.
  - destruct Hs as (d & ts & data & -> & -> & Hdata & Hne).
    crack; cbn [archive]; apply Hu; same_except.
  - destruct h as [[nm cl buf]|]; crack; cbn [archive]; apply Hu; same_except.
Qed.

(** *** Steps that leave the archive side alone *)

Lemma quiet_step_refl (r : recorder) : quiet_step r r.
Proof.
  repeat split. exists []. split; [symmetry; apply app_nil_r | constructor].
Qed.

Lemma quiet_step_trans (a b c : recorder) :
  quiet_step a b -> quiet_step b c -> quiet_step a c.
Proof.
  intros (Ha1 & Hh1 & em1 & Ht1 & Hq1) (Ha2 & Hh2 & em2 & Ht2 & Hq2).
  split; [congruence|]. split; [congruence|].
  exists (em1 ++ em2)%list. split.
  - rewrite Ht2, Ht1. now rewrite app_assoc.
  - now apply Forall_app.
Qed.

Lemma quiet_ret {A} (a : A) : quiet (ret a).
Proof. intros r; apply quiet_step_refl. Qed.

Lemma quiet_raise {A} (e : exn) : quiet (@raise A e).
Proof. intros r; apply quiet_step_refl. Qed.

Lemma quiet_block {A} : quiet (@block A).
Proof. intros r; apply quiet_step_refl. Qed.

Lemma quiet_gets {A} (f : recorder -> A) : quiet (gets f).
Proof. intros r; apply quiet_step_refl. Qed.

Lemma quiet_emit (e : effect) : is_fs_effect e = false -> quiet (emit e).
Proof.
  intros He r. destruct r. repeat split.
  exists [e]. split; [reflexivity | now constructor].
Qed.

Lemma quiet_bind {A B} (m : M A) (k : A -> M B) :
  quiet m -> (forall a, quiet (k a)) -> quiet (bind m k).
Proof.
  intros Hm Hk r. unfold bind. specialize (Hm r).
  destruct (m r) as [r1 [a|e|]]; cbn in *; try assumption.
  eapply quiet_step_trans; [exact Hm | apply Hk].
Qed.

Lemma quiet_try_except {A} (m : M A) (c : exn -> bool) (h : exn -> M A) :
  quiet m -> (forall e, quiet (h e)) -> quiet (try_except m c h).
Proof.
  intros Hm Hh r. unfold try_except. specialize (Hm r).
  destruct (m r) as [r1 [a|e|]]; cbn in *; try assumption.
  destruct (c e); cbn; [|assumption].
  eapply quiet_step_trans; [exact Hm | apply Hh].
Qed.

Lemma quiet_modify (f : recorder -> recorder) :
  (forall r, archive (f r) = archive r) ->
  (forall r, current_file_handle (f r) = current_file_handle r) ->
  (forall r, trace (f r) = trace r) ->
  quiet (modify f).
Proof.
  intros Ha Hh Ht r. cbn. split; [apply Ha|]. split; [apply Hh|].
  exists []. split; [rewrite Ht; symmetry; apply app_nil_r | constructor].
Qed.

Lemma quiet_with_camera_process (v : option Popen) :
  quiet (modify (with_camera_process v)).
Proof. apply quiet_modify; reflexivity. Qed.

Lemma quiet_with_ffmpeg_process (v : option Popen) :
  quiet (modify (with_ffmpeg_process v)).
Proof. apply quiet_modify; reflexivity. Qed.

Lemma quiet_with_is_recording (v : bool) :
  quiet (modify (with_is_recording v)).
Proof. apply quiet_modify; reflexivity. Qed.

Ltac quiet_tac :=
  repeat first
    [ apply quiet_ret | apply quiet_raise | apply quiet_block | apply quiet_gets
    | apply quiet_emit; reflexivity
    | apply quiet_with_camera_process | apply quiet_with_ffmpeg_process
    | apply quiet_with_is_recording
    | apply quiet_bind; [|intros]
    | apply quiet_try_except; [|intros]
    | match goal with
      | |- quiet (match ?x with _ => _ end) => destruct x
      end ].

Lemma quiet_set_is_recording (v : bool) : quiet (set_is_recording v).
Proof. unfold set_is_recording, logger. quiet_tac. Qed.

Lemma quiet_apply_toggles (vs : list bool) : quiet (apply_toggles vs).
Proof.
  induction vs as [|v vs IH]; cbn [apply_toggles]; [apply quiet_ret|].
  apply quiet_bind; [apply quiet_set_is_recording | intros; exact IH].
Qed.

Lemma quiet_relay_to_hls (e : chunk_env) : quiet (relay_to_hls e).
Proof. unfold relay_to_hls, stdout_read, stdin_write, logger. quiet_tac. Qed.

Lemma quiet_clean (ok : bool) (text : string) :
  quiet (_clean_old_hls_segments ok text).
Proof. unfold _clean_old_hls_segments, logger. quiet_tac. Qed.

Lemma quiet_popen (which : program) (spawned : option nat) : quiet (popen which spawned).
Proof. unfold popen. quiet_tac. Qed.

Lemma quiet_process_wait (field : recorder -> option Popen) (exit : option Z) :
  quiet (process_wait field exit).
Proof. unfold process_wait. quiet_tac. Qed.

Lemma quiet_stdin_close (ok : bool) : quiet (stdin_close ok).
Proof. unfold stdin_close. quiet_tac. Qed.

Lemma quiet_on_exception (str : exn -> string) (e : exn) :
  quiet (on_exception str e).
Proof. unfold on_exception, logger, sleep. quiet_tac. Qed.

Lemma quiet_handle_staged (r r' : recorder) :
  quiet_step r r' -> handle_staged r -> handle_staged r'.
Proof. intros (_ & Hh & _). unfold handle_staged. now rewrite Hh. Qed.

Lemma quiet_seg_ok (l : locals) (r r' : recorder) :
  quiet_step r r' -> seg_ok l r -> seg_ok l r'.
Proof.
  intros (Ha & Hh & _). unfold seg_ok. destruct (current_file_path l); [|trivial].
  now rewrite Ha, Hh.
Qed.

Lemma relay_to_hls_chunk (e : chunk_env) (r r' : recorder) (chunk : bytes) :
  relay_to_hls e r = (r', Ok (Some chunk)) -> chunk <> [].
Proof.
  unfold relay_to_hls, stdout_read, stdin_write, try_except, bind, gets, ret,
    raise, logger, emit, modify.
  destruct (camera_process r); [|discriminate].
  destruct (e_chunk e) as [|c cs] eqn:E; [discriminate|].
  destruct (ffmpeg_process r); [|discriminate].
  destruct (e_pipe e); cbn; intros H; inversion H; discriminate.
Qed.

(** *** From one pass to the whole loop

    A relation between job states that is reflexive, transitive, holds across
    quiet steps and across the archive half of every allowed pass holds
    across the whole streaming loop, together with [handle_staged]. *)

Section Lifting.

Variable R : recorder -> recorder -> Prop.
Variable P : chunk_env -> Prop.

Hypothesis R_refl : forall r, R r r.
Hypothesis R_trans : forall a b c, R a b -> R b c -> R a c.
Hypothesis R_quiet : forall r r', quiet_step r r' -> R r r'.
Hypothesis R_pass :
  forall e l chunk r,
    P e -> chunk <> [] -> handle_staged r -> seg_ok l r ->
    let '(r', _) := record_chunk e l chunk r in R r r'.

Local Abbreviation sound := (Invariants.sound R).
Local Abbreviation allowed := (allowed_pass P).

Lemma sound_quiet {A} (m : M A) : quiet m -> sound m.
Proof.
  intros Hq r Hh. split.
  - eapply quiet_handle_staged; [apply Hq | exact Hh].
  - apply R_quiet, Hq.
Qed.

Lemma sound_bind {A B} (m : M A) (k : A -> M B) :
  sound m -> (forall a, sound (k a)) -> sound (bind m k).
Proof.
  intros Hm Hk r Hh. unfold bind. destruct (Hm r Hh) as [H1 H2].
  destruct (m r) as [r1 [a|e|]]; cbn in *; try (split; assumption).
  destruct (Hk a r1 H1) as [H3 H4]. split; [exact H3 | eauto].
Qed.

Lemma sound_try_except {A} (m : M A) (c : exn -> bool) (h : exn -> M A) :
  sound m -> (forall e, sound (h e)) -> sound (try_except m c h).
Proof.
  intros Hm Hk r Hh. unfold try_except. destruct (Hm r Hh) as [H1 H2].
  destruct (m r) as [r1 [a|e|]]; cbn in *; try (split; assumption).
  destruct (c e); cbn; [|split; assumption].
  destruct (Hk e r1 H1) as [H3 H4]. split; [exact H3 | eauto].
Qed.

Lemma relay_chunk_lift (e : chunk_env) (l : locals) (r : recorder) :
  P e -> handle_staged r -> seg_ok l r ->
  let '(r', o) := relay_chunk e l r in
  handle_staged r' /\ R r r'
  /\ match o with Ok (l', Continue) => seg_ok l' r' | _ => True end.
Proof.
  intros HP Hh Hs. unfold relay_chunk, bind.
  pose proof (quiet_relay_to_hls e r) as Hq1.
  destruct (relay_to_hls e r) as [r1 [[chunk|]|x|]] eqn:E1; cbn in Hq1;
    try (split; [eapply quiet_handle_staged; eassumption|];
         split; [now apply R_quiet | exact I]).
  apply relay_to_hls_chunk in E1.
  pose proof (quiet_apply_toggles (e_toggles e) r1) as Hq2.
  assert (Hq : quiet_step r (fst (apply_toggles (e_toggles e) r1)))
    by (eapply quiet_step_trans; eassumption).
  destruct (apply_toggles (e_toggles e) r1) as [r2 [[]|x|]]; cbn in Hq;
    try (split; [eapply quiet_handle_staged; eassumption|];
         split; [now apply R_quiet | exact I]).
  assert (Hh2 : handle_staged r2) by (eapply quiet_handle_staged; eassumption).
  assert (Hs2 : seg_ok l r2) by (eapply quiet_seg_ok; eassumption).
  pose proof (record_chunk_sound e l chunk r2 E1 Hh2 Hs2) as Hsound.
  pose proof (R_pass e l chunk r2 HP E1 Hh2 Hs2) as Hpass.
  destruct (record_chunk e l chunk r2) as [r3 [l'|x|]];
    destruct Hsound as (H1 & _ & H3); cbn;
    (split; [exact H1|]); (split; [eapply R_trans; [apply R_quiet, Hq | exact Hpass]|]);
    trivial.
Qed.

Lemma relay_loop_lift (es : list chunk_env) :
  Forall P es ->
  forall l r, handle_staged r -> seg_ok l r ->
              handle_staged (fst (relay_loop es l r)) /\ R r (fst (relay_loop es l r)).
Proof.
  induction 1 as [|e es He _ IH]; intros l r Hh Hs; cbn [relay_loop].
  - split; [exact Hh | apply R_refl].
  - unfold bind. pose proof (relay_chunk_lift e l r He Hh Hs) as Hc.
    destruct (relay_chunk e l r) as [r1 [[l' [|]]|x|]];
      destruct Hc as (H1 & H2 & H3); cbn; try (split; assumption).
    destruct (IH l' r1 H1 H3) as [H4 H5]. split; [exact H4 | eauto].
Qed.

Lemma sound_relay_loop (es : list chunk_env) :
  Forall P es -> sound (relay_loop es no_locals).
Proof. intros H r Hh. apply relay_loop_lift; [assumption | assumption | exact I]. Qed.

Lemma sound_stream_once (i : iter_env) : allowed i -> sound (stream_once i).
Proof.
  intros Hi. unfold stream_once.
  apply sound_bind; [apply sound_quiet, quiet_clean | intros _].
  apply sound_bind; [apply sound_quiet, quiet_popen | intros cp].
  apply sound_bind; [apply sound_quiet, quiet_with_camera_process | intros _].
  apply sound_bind; [apply sound_quiet, quiet_popen | intros fp].
  apply sound_bind; [apply sound_quiet, quiet_with_ffmpeg_process | intros _].
  apply sound_bind; [now apply sound_relay_loop | intros _].
  apply sound_quiet. quiet_tac; first [apply quiet_process_wait | apply quiet_stdin_close].
Qed.

Lemma sound_guarded_pipeline (i : iter_env) :
  allowed i -> sound (guarded_pipeline i).
Proof.
  intros Hi. unfold guarded_pipeline, pipeline.
  apply sound_try_except; [|intros; apply sound_quiet, quiet_on_exception].
  apply sound_bind; [now apply sound_stream_once | intros rc].
  apply sound_quiet. unfold logger, sleep. quiet_tac.
Qed.

Lemma sound_loop (passes : list iter_env) :
  Forall allowed passes -> sound (_camera_streaming_loop passes).
Proof.
  induction 1 as [|i rest Hi _ IH]; cbn [_camera_streaming_loop].
  - apply sound_quiet, quiet_block.
  - destruct (is_disconnected (i_state i)); [apply sound_quiet, quiet_ret|].
    apply sound_bind; [now apply sound_guarded_pipeline | intros _; exact IH].
Qed.

End Lifting.

(** *** The two instances *)

Lemma disciplined_quiet (c : option string) (em : list effect) :
  Forall (fun e => is_fs_effect e = false) em -> disciplined c em.
Proof.
  intros H; revert c; induction H as [|e em He _ IH]; intros c; [exact I|].
  destruct e; try discriminate He; cbn; apply IH.
Qed.

Lemma promoted_app (a b : list effect) :
  promoted (a ++ b) = (promoted a ++ promoted b)%list.
Proof. unfold promoted. apply flat_map_app. Qed.

Lemma evolves_refl (r : recorder) : evolves r r.
Proof.
  split; [apply finals_kept_refl|]. exists [].
  split; [symmetry; apply app_nil_r|]. split; [exact I | apply same_except_refl].
Qed.

Lemma evolves_trans (a b c : recorder) : evolves a b -> evolves b c -> evolves a c.
Proof.
  intros (Hk1 & em1 & Ht1 & Hd1 & Hs1) (Hk2 & em2 & Ht2 & Hd2 & Hs2).
  split; [eapply finals_kept_trans; eassumption|].
  exists (em1 ++ em2)%list. split; [rewrite Ht2, Ht1; now rewrite app_assoc|].
  split; [now apply disciplined_app|].
  intros n Hn. rewrite promoted_app.
  destruct (Hs2 n Hn) as [E2|I2]; [|right; apply in_or_app; now right].
  destruct (Hs1 n Hn) as [E1|I1]; [left; congruence|].
  right; apply in_or_app; now left.
Qed.

Lemma evolves_quiet (r r' : recorder) : quiet_step r r' -> evolves r r'.
Proof.
  intros (Ha & _ & em & Ht & Hq). unfold evolves. rewrite Ha.
  split; [apply finals_kept_refl|]. exists em. split; [exact Ht|].
  split; [now apply disciplined_quiet | apply same_except_refl].
Qed.

Lemma evolves_pass (e : chunk_env) (l : locals) (chunk : bytes) (r : recorder) :
  True -> chunk <> [] -> handle_staged r -> seg_ok l r ->
  let '(r', _) := record_chunk e l chunk r in evolves r r'.
Proof.
  intros _ Hc Hh Hs. pose proof (record_chunk_sound e l chunk r Hc Hh Hs) as H.
  destruct (record_chunk e l chunk r) as [r' o]. tauto.
Qed.

Lemma loop_evolves (passes : list iter_env) :
  Invariants.sound evolves (_camera_streaming_loop passes).
Proof.
  apply (sound_loop evolves (fun _ => True)
           evolves_refl evolves_trans evolves_quiet evolves_pass).
  apply Forall_forall. intros i _. apply Forall_forall. trivial.
Qed.

Lemma untouched_refl (r : recorder) : finals_untouched r r.
Proof. intros n _; reflexivity. Qed.

Lemma untouched_trans (a b c : recorder) :
  finals_untouched a b -> finals_untouched b c -> finals_untouched a c.
Proof. intros H1 H2 n Hn. rewrite (H2 n Hn). now apply H1. Qed.

Lemma untouched_quiet (r r' : recorder) : quiet_step r r' -> finals_untouched r r'.
Proof. intros (Ha & _) n _. now rewrite Ha. Qed.

Lemma untouched_pass (e : chunk_env) (l : locals) (chunk : bytes) (r : recorder) :
  e_rename_ok e = false -> chunk <> [] -> handle_staged r -> seg_ok l r ->
  let '(r', _) := record_chunk e l chunk r in finals_untouched r r'.
Proof. intros He _ Hh Hs. now apply record_chunk_rename_fails. Qed.

Lemma loop_untouched (passes : list iter_env) :
  Forall (allowed_pass (fun e => e_rename_ok e = false)) passes ->
  Invariants.sound finals_untouched (_camera_streaming_loop passes).
Proof.
  apply (sound_loop finals_untouched (fun e => e_rename_ok e = false)
           untouched_refl untouched_trans untouched_quiet untouched_pass).
Qed.

Lemma relay_chunk_untouched (e : chunk_env) (l : locals) (r : recorder) :
  e_rename_ok e = false -> handle_staged r -> seg_ok l r ->
  finals_untouched r (fst (relay_chunk e l r)).
Proof.
  intros He Hh Hs.
  pose proof (relay_chunk_lift finals_untouched (fun e => e_rename_ok e = false)
                untouched_trans untouched_quiet untouched_pass e l r He Hh Hs) as H.
  destruct (relay_chunk e l r) as [r' o]. cbn. tauto.
Qed.

Lemma stop_evolves (s : stop_env) (r : recorder) :
  handle_staged r ->
  handle_staged (fst (stop_camera_streaming s r))
  /\ evolves r (fst (stop_camera_streaming s r)).
Proof.
  intros Hh.
  destruct s as [ce fe ok part], r as [cp fp h rec dir mins files tr].
  unfold evolves.
  destruct cp as [p|], fp as [q|], h as [[n [|] buf]|], ce, fe, ok; cbn in Hh;
    unfold handle_staged; stop_cases;
    (split; [exact I || exact Hh|]); (split; [finals|]);
    emitted; (split; [discipline | cbn; same_except]).
Qed.

End LoopFacts.

Import Invariants StagingFacts LoopFacts.

(** C2: from a job whose handle (if any) is on a staging name, after any
    number of passes of the streaming loop, and after a shutdown following
    them, no handle is on a final name; nothing was opened or written under
    a final name; every rename took the staging file closed by the operation
    just before it to the final name of the same segment; and a final name
    whose content differs from the start is the target of such a rename. *)
Theorem C2_final_names_only_by_close_then_rename
  (passes : list iter_env) (s : stop_env) (r : recorder) :
  handle_staged r ->
  let r1 := fst (_camera_streaming_loop passes r) in
  let r2 := fst (on_disconnected s r1) in
  handle_staged r1 /\ handle_staged r2
  /\ exists em1 em2,
       trace r1 = (trace r ++ em1)%list
       /\ trace r2 = (trace r1 ++ em2)%list
       /\ disciplined None (em1 ++ em2)
       /\ forall n, is_final_name n = true ->
                    archive r2 !! n = archive r !! n
                    \/ In n (promoted (em1 ++ em2)).
Proof.
  intros Hh r1 r2.
  destruct (loop_evolves passes r Hh) as [H1 E1]. fold r1 in H1, E1.
  destruct (stop_evolves s r1 H1) as [H2 E2].
  change (stop_camera_streaming s r1) with (on_disconnected s r1) in H2, E2.
  fold r2 in H2, E2.
  split; [exact H1|]. split; [exact H2|].
  destruct (evolves_trans _ _ _ E1 E2) as (_ & em & _ & _ & _).
  destruct E1 as (_ & em1 & Ht1 & Hd1 & Hs1), E2 as (_ & em2 & Ht2 & Hd2 & Hs2).
  exists em1, em2. split; [exact Ht1|]. split; [exact Ht2|].
  split; [now apply disciplined_app|].
  intros n Hn. rewrite promoted_app.
  destruct (Hs2 n Hn) as [Ea|Ia]; [|right; apply in_or_app; now right].
  destruct (Hs1 n Hn) as [Eb|Ib]; [left; congruence|].
  right; apply in_or_app; now left.
Qed.

(** C5: the streaming loop never creates a zero-length file under a final
    name (a final file of length zero was already there at the start), so
    toggling [is_recording], however fast, cannot produce one; if every
    rename fails nothing changes under any final name; and a single pass
    whose rename fails changes nothing under any final name. *)
Theorem C5_no_empty_or_unrenamed_final
  (passes : list iter_env) (r : recorder) (n : string)
  (e : chunk_env) (l : locals) (r0 : recorder) :
  handle_staged r ->
  is_final_name n = true ->
  let r' := fst (_camera_streaming_loop passes r) in
  (archive r' !! n = Some [] -> archive r !! n = Some [])
  /\ (Forall (fun i => Forall (fun c => e_rename_ok c = false) (i_chunks i)) passes ->
      archive r' !! n = archive r !! n)
  /\ (handle_staged r0 -> seg_ok l r0 -> e_rename_ok e = false ->
      archive (fst (relay_chunk e l r0)) !! n = archive r0 !! n).
Proof.
  intros Hh Hn r'. split; [|split].
  - destruct (loop_evolves passes r Hh) as [_ [Hk _]]. now apply Hk.
  - intros Hall. destruct (loop_untouched passes Hall r Hh) as [_ Hu]. now apply Hu.
  - intros Hh0 Hs He. now apply relay_chunk_untouched.
Qed.

Lemma C2_final_names_only_by_close_then_rename_witness :
  handle_staged (fresh true)
  /\ handle_staged
       (fst (_camera_streaming_loop
               [healthy [smooth chunk_a nine_thirty; smooth chunk_b nine_forty_five]]
               (fresh true))).
Proof.
  split; [exact I|].
  exact (proj1 (C2_final_names_only_by_close_then_rename
           [healthy [smooth chunk_a nine_thirty; smooth chunk_b nine_forty_five]]
           all_exit (fresh true) I)).
Defined.
Module RecordingFacts.
Import Pathlib Datetime Recorder Spec Invariants Bookkeeping PathlibFacts RecorderFacts StagingFacts LoopFacts.
Local Open Scope recorder_scope.

(** *** Names *)

Lemma append_inj_r (a b s : string) : a +:+ s = b +:+ s -> a = b.
Proof.
  intros H.
  assert (Hlen : String.length a = String.length b).
  { apply (f_equal String.length) in H. rewrite !length_append in H. lia. }
  rewrite <- (take_str_append a s), <- (take_str_append b s).
  now rewrite H, Hlen.
Qed.

Lemma append_inj_l (s a b : string) : s +:+ a = s +:+ b -> a = b.
Proof.
  induction s as [|c s IH]; [trivial|].
  rewrite !append_cons. intros H. injection H as H. now apply IH.
Qed.

Lemma stg_inj (a b : string) : stg a = stg b -> a = b.
Proof. unfold stg. intros H. apply append_inj_l in H. now apply append_inj_r in H. Qed.

Lemma fin_inj (a b : string) : fin a = fin b -> a = b.
Proof. unfold fin. intros H. apply append_inj_l in H. now apply append_inj_r in H. Qed.

Lemma fin_ne_stg (a b : string) : fin a <> stg b.
Proof.
  intros H. pose proof (h264_is_final a) as Ha. pose proof (staging_not_final b) as Hb.
  unfold fin, stg in H. rewrite H in Ha. congruence.
Qed.

(** *** Contents under the archive operations *)

Lemma content_append_same (k : string) (v : bytes) (a : gmap string bytes) :
  content (append_bytes k v a) k = (content a k ++ v)%list.
Proof. unfold content, append_bytes. now rewrite lookup_insert_eq. Qed.

Lemma content_append_ne (k n : string) (v : bytes) (a : gmap string bytes) :
  k <> n -> content (append_bytes k v a) n = content a n.
Proof. intros H. unfold content, append_bytes. now rewrite lookup_insert_ne. Qed.

Lemma content_insert_same (k : string) (v : bytes) (a : gmap string bytes) :
  content (<[k:=v]> a) k = v.
Proof. unfold content. now rewrite lookup_insert_eq. Qed.

Lemma content_insert_ne (k n : string) (v : bytes) (a : gmap string bytes) :
  k <> n -> content (<[k:=v]> a) n = content a n.
Proof. intros H. unfold content. now rewrite lookup_insert_ne. Qed.

Lemma content_delete_ne (k n : string) (a : gmap string bytes) :
  k <> n -> content (delete k a) n = content a n.
Proof. intros H. unfold content. now rewrite lookup_delete_ne. Qed.

Lemma content_lookup (a : gmap string bytes) (n : string) (data : bytes) :
  a !! n = Some data -> content a n = data.
Proof. intros H. unfold content. now rewrite H. Qed.

Lemma done_content_ext (a a' : gmap string bytes) (done : list string) :
  (forall t, In t done -> content a' (fin t) = content a (fin t)) ->
  concat (map (fun t => content a' (fin t)) done)
  = concat (map (fun t => content a (fin t)) done).
Proof.
  intros H. f_equal. apply map_ext_in. exact H.
Qed.

(** *** Traces *)

Lemma opened_app (a b : list effect) :
  opened (a ++ b) = (opened a ++ opened b)%list.
Proof. unfold opened. apply flat_map_app. Qed.

Lemma drop_base (tr0 em : list effect) : drop (length tr0) (tr0 ++ em) = em.
Proof. apply drop_app_length. Qed.

Lemma NoDup_stg (ts : list string) : NoDup (map stg ts) -> NoDup ts.
Proof.
  induction ts as [|t ts IH]; intros H; [constructor|].
  cbn in H. apply NoDup_cons in H as [Hn Hd]. apply NoDup_cons. split.
  - intros Hin. apply Hn. apply list_elem_of_In, in_map, list_elem_of_In, Hin.
  - now apply IH.
Qed.

Lemma NoDup_app_not_in (ts : list string) (t : string) :
  NoDup (ts ++ [t])%list -> forall t', In t' ts -> t' <> t.
Proof.
  intros H t' Hin ->. apply NoDup_app in H as (_ & H & _).
  apply (H t); [now apply list_elem_of_In | now left].
Qed.

Ltac name_ne :=
  first [ apply fin_ne_stg
        | apply not_eq_sym, fin_ne_stg
        | intros Hq; apply fin_inj in Hq; congruence
        | intros Hq; apply stg_inj in Hq; congruence ].

Ltac content_simpl :=
  repeat first
    [ rewrite content_append_same
    | rewrite content_insert_same
    | rewrite content_append_ne by name_ne
    | rewrite content_insert_ne by name_ne
    | rewrite content_delete_ne by name_ne ].

Ltac fold_names :=
  change (fun ts : string => "raw_" +:+ ts +:+ ".tmp") with stg in *;
  change (fun ts : string => "raw_" +:+ ts +:+ ".h264") with fin in *;
  repeat match goal with
  | |- context ["raw_" +:+ ?t +:+ ".tmp"] =>
      change ("raw_" +:+ t +:+ ".tmp") with (stg t) in *
  | |- context ["raw_" +:+ ?t +:+ ".h264"] =>
      change ("raw_" +:+ t +:+ ".h264") with (fin t) in *
  | H : context ["raw_" +:+ ?t +:+ ".tmp"] |- _ =>
      change ("raw_" +:+ t +:+ ".tmp") with (stg t) in *
  | H : context ["raw_" +:+ ?t +:+ ".h264"] |- _ =>
      change ("raw_" +:+ t +:+ ".h264") with (fin t) in *
  end.

Lemma is_Some_append (k : string) (v : bytes) (a : gmap string bytes) :
  is_Some (append_bytes k v a !! k).
Proof. unfold append_bytes. rewrite lookup_insert_eq. eauto. Qed.

Lemma record_chunk_tracks (e : chunk_env) (l : locals) (chunk : bytes) (r : recorder)
      (tr0 : list effect) (done : list string) (cur : option string) (B : bytes) :
  faultless e -> tracks tr0 done cur B l r ->
  let '(r', o) := record_chunk e l chunk r in
  NoDup (opened (drop (length tr0) (trace r'))) ->
  exists l' done' cur',
    o = Ok l'
    /\ tracks tr0 done' cur' (B ++ if is_recording r then chunk else []) l' r'.
Proof.
  intros (Hp & Hc & Hr & Ho & Hw) (Htr & HB & Hst).
  destruct r as [cp fp h rec dir mins files tr].
  destruct e as [ch pr tg t1 t2 t3 cok rok ook wr cpart].
  cbn in Hp, Hc, Hr, Ho, Hw. subst pr cok rok ook wr.
  destruct l as [st p]. cbn in Htr, HB, Hst.
  destruct Htr as (em & -> & Hprom & Hopen).
  destruct cur as [t|].
  - destruct Hst as ((d & Hpath) & Hh & [data Hdata]). cbn in Hpath, Hh. subst p h.
    unfold stg, fin in Hdata |- *. crack; cbn [is_recording];
      rewrite <- ?app_assoc, drop_base, opened_app, Hopen; cbn [app opened flat_map];
      rewrite ?app_nil_r; intros Hnd; fold_names; cbn [option_list] in *.
    + (* the segment is rotated *)
      set (t' := strftime t2) in *.
      assert (Hd : NoDup (done ++ [t])%list).
      { apply NoDup_app in Hnd as (Hnd & _). now apply NoDup_stg. }
      pose proof (NoDup_app_not_in done t Hd) as Hne.
      eexists _, (done ++ [t])%list, (Some t'). split; [reflexivity|].
      split; [|split].
      * exists (em ++ [FsClose (stg t); FsRename (stg t) (fin t);
                       Log INFO ("Completed recording segment: " +:+
                                 str {| parent := d; name := fin t |});
                       FsOpen (stg t'); FsWrite (stg t') chunk])%list.
        split; [reflexivity|]. split.
        -- rewrite promoted_app, Hprom. cbn. now rewrite map_app.
        -- rewrite opened_app, Hopen. cbn. rewrite !map_app. cbn.
           now rewrite <- app_assoc.
      * cbn [archive]. rewrite map_app, concat_app. cbn [map concat].
        rewrite (done_content_ext files _ done).
        2:{ intros t0 Hin. specialize (Hne t0 Hin). content_simpl. reflexivity. }
        content_simpl. rewrite <- HB, (content_lookup _ _ _ Hdata).
        rewrite ?app_nil_r, ?app_nil_l, <- ?app_assoc. reflexivity.
      * cbn. split; [eexists; reflexivity|]. split; [reflexivity|].
        apply is_Some_append.
    + (* the chunk is appended to the open segment *)
      eexists _, done, (Some t). split; [reflexivity|].
      split; [|split].
      * exists (em ++ [FsWrite (stg t) chunk])%list.
        split; [reflexivity|]. split.
        -- rewrite promoted_app, Hprom. cbn. now rewrite app_nil_r.
        -- rewrite opened_app, Hopen. cbn. now rewrite app_nil_r.
      * cbn [archive].
        rewrite (done_content_ext files _ done).
        2:{ intros t0 Hin. content_simpl. reflexivity. }
        content_simpl. rewrite <- HB, <- ?app_assoc. reflexivity.
      * cbn. split; [eexists; reflexivity|]. split; [reflexivity|].
        apply is_Some_append.
    + (* recording is off: the segment is closed and promoted *)
      assert (Hd : NoDup (done ++ [t])%list) by now apply NoDup_stg.
      pose proof (NoDup_app_not_in done t Hd) as Hne.
      eexists _, (done ++ [t])%list, None. split; [reflexivity|].
      split; [|split].
      * exists (em ++ [FsClose (stg t); FsRename (stg t) (fin t);
                       Log INFO ("Completed recording segment: " +:+
                                 str {| parent := d; name := fin t |})])%list.
        split; [reflexivity|]. split.
        -- rewrite promoted_app, Hprom. cbn. now rewrite map_app.
        -- rewrite opened_app, Hopen. cbn. now rewrite !app_nil_r.
      * cbn [archive]. rewrite map_app, concat_app. cbn [map concat].
        rewrite (done_content_ext files _ done).
        2:{ intros t0 Hin. specialize (Hne t0 Hin). content_simpl. reflexivity. }
        content_simpl. rewrite <- HB, (content_lookup _ _ _ Hdata).
        rewrite ?app_nil_r, ?app_nil_l, <- ?app_assoc. reflexivity.
      * cbn. split; reflexivity.
  - destruct Hst as [Hl Hh]. cbn in Hh. subst h. injection Hl as -> ->.
    unfold stg, fin. crack; cbn [is_recording];
      rewrite <- ?app_assoc, ?drop_base, ?opened_app, ?Hopen; cbn [app opened flat_map];
      rewrite ?app_nil_r; intros Hnd; fold_names; cbn [option_list] in *;
      rewrite ?app_nil_r in *.
    + (* a segment is opened *)
      set (t' := strftime t2) in *.
      eexists _, done, (Some t'). split; [reflexivity|].
      split; [|split].
      * exists (em ++ [FsOpen (stg t'); FsWrite (stg t') chunk])%list.
        split; [reflexivity|]. split.
        -- rewrite promoted_app, Hprom. cbn. now rewrite app_nil_r.
        -- rewrite opened_app, Hopen. cbn. now rewrite map_app.
      * cbn [archive].
        rewrite (done_content_ext files _ done).
        2:{ intros t0 Hin. content_simpl. reflexivity. }
        content_simpl. rewrite <- HB. reflexivity.
      * cbn. split; [eexists; reflexivity|]. split; [reflexivity|].
        apply is_Some_append.
    + discriminate Heqb.
    + (* recording is off and nothing is open *)
      eexists _, done, None. split; [reflexivity|].
      split; [|split].
      * exists em. rewrite app_nil_r. repeat split; assumption.
      * cbn [archive]. now rewrite !app_nil_r.
      * split; reflexivity.
Qed.

(** *** Fields and traces across a pass *)

Lemma record_chunk_stable (e : chunk_env) (l : locals) (chunk : bytes) (r : recorder) :
  let '(r', _) := record_chunk e l chunk r in stable r r'.
Proof.
  destruct r as [cp fp h rec dir mins files tr].
  destruct e as [ch pr tg t1 t2 t3 cok rok ook wr cpart].
  destruct l as [st [p|]], h as [[nm cl buf]|]; unfold stable; crack;
    cbn; repeat (split; [reflexivity|]);
    first [ exists []; symmetry; apply app_nil_r
          | eexists; rewrite <- ?app_assoc; reflexivity ].
Qed.

Lemma last_default {A} (x : A) (l : list A) (d d' : A) :
  List.last (x :: l) d = List.last (x :: l) d'.
Proof.
  revert x; induction l as [|y l IH]; intros x; [reflexivity|].
  change (List.last (y :: l) d = List.last (y :: l) d'). apply IH.
Qed.

Lemma apply_toggles_spec (vs : list bool) (r : recorder) :
  exists r', apply_toggles vs r = (r', Ok tt)
             /\ quiet_step r r'
             /\ camera_process r' = camera_process r
             /\ ffmpeg_process r' = ffmpeg_process r
             /\ is_recording r' = List.last vs (is_recording r).
Proof.
  revert r; induction vs as [|v vs IH]; intros r.
  - exists r. repeat split; try reflexivity. apply quiet_step_refl.
  - cbn [apply_toggles]. unfold bind.
    pose proof (quiet_set_is_recording v r) as Hq.
    assert (Hs : exists r1, set_is_recording v r = (r1, Ok tt)
                            /\ camera_process r1 = camera_process r
                            /\ ffmpeg_process r1 = ffmpeg_process r
                            /\ is_recording r1 = v).
    { unfold set_is_recording, bind, gets, modify, logger, emit, ret.
      destruct r as [cp fp h rec dir mins files tr]; cbn.
      destruct (Bool.eqb v rec) eqn:E.
      - apply Bool.eqb_prop in E. subst. eexists; repeat split.
      - eexists; repeat split. }
    destruct Hs as (r1 & E1 & Hc1 & Hf1 & Hr1). rewrite E1 in Hq |- *. cbn in Hq.
    destruct (IH r1) as (r2 & E2 & Hq2 & Hc2 & Hf2 & Hr2).
    exists r2. split; [exact E2|]. split; [eapply quiet_step_trans; eassumption|].
    split; [congruence|]. split; [congruence|].
    rewrite Hr2, Hr1. destruct vs as [|b vs]; [reflexivity|].
    change (List.last (v :: b :: vs) (is_recording r))
      with (List.last (b :: vs) (is_recording r)).
    apply last_default.
Qed.

Lemma quiet_no_names (em : list effect) :
  Forall (fun e => is_fs_effect e = false) em -> promoted em = [] /\ opened em = [].
Proof.
  induction 1 as [|e em He _ [IH1 IH2]]; [split; reflexivity|].
  destruct e; try discriminate He; cbn; split; assumption.
Qed.

Lemma tracks_quiet (tr0 : list effect) (done : list string) (cur : option string)
      (B : bytes) (l : locals) (r r' : recorder) :
  quiet_step r r' -> tracks tr0 done cur B l r -> tracks tr0 done cur B l r'.
Proof.
  intros (Ha & Hh & q & Ht & Hq) ((em & Hem & Hp & Ho) & HB & Hst).
  destruct (quiet_no_names q Hq) as [Hq1 Hq2].
  unfold tracks. rewrite Ha, Hh. split; [|split; assumption].
  exists (em ++ q)%list. split; [rewrite Ht, Hem; now rewrite app_assoc|].
  rewrite promoted_app, opened_app, Hq1, Hq2, !app_nil_r. split; assumption.
Qed.

Lemma relay_to_hls_faultless (e : chunk_env) (r : recorder) (cp fp : Popen) :
  camera_process r = Some cp -> ffmpeg_process r = Some fp ->
  e_pipe e = Delivered ->
  relay_to_hls e r =
  match e_chunk e with
  | [] => (r, Ok None)
  | c :: cs =>
      (with_trace (trace r ++ [StdinWrite fp (c :: cs)])%list r, Ok (Some (c :: cs)))
  end.
Proof.
  intros Hc Hf Hp. destruct r as [cp' fp' h rec dir mins files tr].
  cbn in Hc, Hf. subst cp' fp'.
  unfold relay_to_hls, stdout_read, stdin_write. mrun. rewrite Hp.
  destruct (e_chunk e); reflexivity.
Qed.

Lemma stable_refl (r : recorder) : stable r r.
Proof. repeat split. exists []. symmetry; apply app_nil_r. Qed.

Lemma stable_trans (a b c : recorder) : stable a b -> stable b c -> stable a c.
Proof.
  intros (H1 & H2 & H3 & em1 & H4) (K1 & K2 & K3 & em2 & K4).
  repeat split; try congruence.
  exists (em1 ++ em2)%list. rewrite K4, H4. now rewrite app_assoc.
Qed.

Lemma quiet_extends (r r' : recorder) :
  quiet_step r r' -> exists em, trace r' = (trace r ++ em)%list.
Proof. intros (_ & _ & em & H & _). now exists em. Qed.

Lemma relay_chunk_extends (e : chunk_env) (l : locals) (r : recorder) :
  exists em, trace (fst (relay_chunk e l r)) = (trace r ++ em)%list.
Proof.
  unfold relay_chunk, bind.
  pose proof (quiet_extends _ _ (quiet_relay_to_hls e r)) as [em1 H1].
  destruct (relay_to_hls e r) as [r1 [[chunk|]|x|]]; cbn [fst] in *;
    try (unfold ret; cbn [fst]); eauto.
  destruct (apply_toggles_spec (e_toggles e) r1) as (r2 & E2 & Hq2 & _).
  rewrite E2. apply quiet_extends in Hq2 as [em2 H2].
  pose proof (record_chunk_stable e l chunk r2) as Hs.
  destruct (record_chunk e l chunk r2) as [r3 o3].
  destruct Hs as (_ & _ & _ & em3 & H3).
  exists (em1 ++ em2 ++ em3)%list.
  destruct o3; unfold ret; cbn [fst]; rewrite H3, H2, H1; now rewrite <- !app_assoc.
Qed.

Lemma relay_loop_extends (es : list chunk_env) :
  forall l r, exists em, trace (fst (relay_loop es l r)) = (trace r ++ em)%list.
Proof.
  induction es as [|e es IH]; intros l r; cbn [relay_loop].
  - exists []. symmetry; apply app_nil_r.
  - unfold bind. destruct (relay_chunk_extends e l r) as [em1 H1].
    destruct (relay_chunk e l r) as [r1 [[l' [|]]|x|]]; cbn in *; eauto.
    destruct (IH l' r1) as [em2 H2]. exists (em1 ++ em2)%list.
    rewrite H2, H1. now rewrite app_assoc.
Qed.

Lemma relay_chunk_tracks (e : chunk_env) (l : locals) (r : recorder) (cp fp : Popen)
      (tr0 : list effect) (done : list string) (cur : option string) (B : bytes) :
  faultless e ->
  camera_process r = Some cp -> ffmpeg_process r = Some fp ->
  tracks tr0 done cur B l r ->
  let '(r', o) := relay_chunk e l r in
  match e_chunk e with
  | [] => r' = r /\ o = Ok (l, Break)
  | _ :: _ =>
      camera_process r' = Some cp /\ ffmpeg_process r' = Some fp
      /\ is_recording r' = List.last (e_toggles e) (is_recording r)
      /\ (NoDup (opened (drop (length tr0) (trace r'))) ->
          exists l' done' cur',
            o = Ok (l', Continue)
            /\ tracks tr0 done' cur'
                 (B ++ if is_recording r' then e_chunk e else []) l' r')
  end.
Proof.
  intros Hf Hc Hfp Ht. unfold relay_chunk, bind.
  rewrite (relay_to_hls_faultless e r cp fp Hc Hfp (proj1 Hf)).
  destruct (e_chunk e) as [|c cs] eqn:Ech; [split; reflexivity|].
  set (r1 := with_trace (trace r ++ [StdinWrite fp (c :: cs)])%list r).
  assert (Hq1 : quiet_step r r1).
  { subst r1. destruct r. repeat split. eexists. split; [reflexivity|].
    repeat constructor. }
  destruct (apply_toggles_spec (e_toggles e) r1) as (r2 & E2 & Hq2 & Hc2 & Hf2 & Hr2).
  rewrite E2.
  assert (Ht2 : tracks tr0 done cur B l r2).
  { eapply tracks_quiet; [exact Hq2|]. eapply tracks_quiet; [exact Hq1| exact Ht]. }
  pose proof (record_chunk_stable e l (c :: cs) r2) as Hs.
  pose proof (record_chunk_tracks e l (c :: cs) r2 tr0 done cur B Hf Ht2) as Hrt.
  destruct (record_chunk e l (c :: cs) r2) as [r3 o3].
  destruct Hs as (Hc3 & Hf3 & Hr3 & _).
  assert (Hcam : camera_process r3 = Some cp).
  { rewrite Hc3, Hc2. subst r1. now destruct r. }
  assert (Hff : ffmpeg_process r3 = Some fp).
  { rewrite Hf3, Hf2. subst r1. now destruct r. }
  assert (Hrec : is_recording r3 = List.last (e_toggles e) (is_recording r)).
  { rewrite Hr3, Hr2. subst r1. now destruct r. }
  assert (Hgoal : NoDup (opened (drop (length tr0) (trace r3))) ->
          exists l' done' cur',
            o3 = Ok l'
            /\ tracks tr0 done' cur'
                 (B ++ if is_recording r3 then c :: cs else []) l' r3).
  { intros Hnd. destruct (Hrt Hnd) as (l' & d' & c' & Ho & Htr).
    exists l', d', c'. split; [exact Ho|]. now rewrite Hr3. }
  destruct o3 as [l3|x|]; cbn;
    (split; [exact Hcam|]); (split; [exact Hff|]); (split; [exact Hrec|]);
    intros Hnd; destruct (Hgoal Hnd) as (l' & d' & c' & Ho & Htr);
    try discriminate Ho.
  injection Ho as ->. exists l', d', c'. split; [reflexivity | exact Htr].
Qed.

Lemma relay_loop_tracks (es : list chunk_env) (cp fp : Popen) (tr0 : list effect) :
  Forall faultless es ->
  forall l r done cur B,
    camera_process r = Some cp -> ffmpeg_process r = Some fp ->
    tracks tr0 done cur B l r ->
    NoDup (opened (drop (length tr0) (trace (fst (relay_loop es l r))))) ->
    exists l' done' cur',
      tracks tr0 done' cur' (B ++ concat (recorded (is_recording r) es)) l'
        (fst (relay_loop es l r)).
Proof.
  induction 1 as [|e es He _ IH]; intros l r done cur B Hc Hf Ht Hnd.
  - cbn. rewrite app_nil_r. eauto.
  - cbn [relay_loop recorded] in *. unfold bind in *.
    pose proof (relay_chunk_tracks e l r cp fp tr0 done cur B He Hc Hf Ht) as Hstep.
    pose proof (relay_chunk_extends e l r) as [em1 Hx1].
    destruct (relay_chunk e l r) as [r1 o1]. cbn [fst] in Hx1.
    destruct (e_chunk e) as [|c cs] eqn:Ech.
    + destruct Hstep as [-> ->]. cbn. rewrite app_nil_r. eauto.
    + destruct Hstep as (Hc1 & Hf1 & Hr1 & Hstep).
      destruct Ht as ((em & Hem & Hp & Ho) & HB & Hst).
      destruct o1 as [[l1 [|]]|x|]; unfold ret in Hnd; cbn [fst] in Hnd |- *;
        try (destruct (Hstep Hnd) as (l' & d' & c' & Ho' & _); discriminate Ho').
      assert (Hnd1 : NoDup (opened (drop (length tr0) (trace r1)))).
      { destruct (relay_loop_extends es l1 r1) as [y Hy].
        rewrite Hy, Hx1, Hem in Hnd.
        rewrite <- !app_assoc, drop_base, !opened_app in Hnd.
        rewrite Hx1, Hem, <- app_assoc, drop_base, opened_app.
        rewrite app_assoc in Hnd. now apply NoDup_app in Hnd as (Hnd & _). }
      destruct (Hstep Hnd1) as (l' & d' & c' & Ho' & Ht1).
      injection Ho' as <-.
      destruct (IH l1 r1 d' c' _ Hc1 Hf1 Ht1 Hnd) as (l2 & d2 & c2 & Ht2).
      exists l2, d2, c2. rewrite <- Hr1.
      rewrite concat_app, app_assoc.
      destruct (is_recording r1); cbn [concat] in *;
        rewrite ?app_nil_r in *; exact Ht2.
Qed.

End RecordingFacts.

Import Spec Invariants Bookkeeping Scenarios MoreScenarios RecordingFacts.

(** X1: in one run of the inner loop in which no operation fails and no two
    segments are opened under the same name, the chunks read while
    [is_recording] was set are kept in order, each once: the files promoted
    during the run, in the order of their promotion, followed by the staging
    file that is still open, hold exactly those chunks. *)
Theorem recorded_chunks_are_kept_in_order
  (es : list chunk_env) (r : recorder) (cp fp : Popen) :
  camera_process r = Some cp ->
  ffmpeg_process r = Some fp ->
  current_file_handle r = None ->
  Forall faultless es ->
  let r' := fst (relay_loop es no_locals r) in
  let em := drop (length (trace r)) (trace r') in
  NoDup (opened em) ->
  (concat (map (content (archive r')) (promoted em)) ++ open_content r')%list
  = concat (recorded (is_recording r) es).
Proof.
  intros Hc Hf Hh Hes r' em Hnd.
  assert (Ht0 : tracks (trace r) [] None [] no_locals r).
  { split; [|split].
    - exists []. rewrite app_nil_r. repeat split.
    - reflexivity.
    - split; [reflexivity | exact Hh]. }
  destruct (relay_loop_tracks es cp fp (trace r) Hes no_locals r [] None [] Hc Hf Ht0 Hnd)
    as (l' & done' & cur' & (em' & Hem & Hp & Ho) & HB & Hst).
  fold r' in Hem, HB, Hst.
  assert (Eem : em = em') by (subst em; rewrite Hem; apply drop_base).
  rewrite Eem, Hp, map_map. cbn [app] in HB. rewrite <- HB. f_equal.
  unfold open_content. destruct cur' as [t|].
  - destruct Hst as (_ & -> & _). reflexivity.
  - destruct Hst as (_ & ->). reflexivity.
Qed.

Lemma recorded_chunks_are_kept_in_order_witness :
  (concat (map (content (archive (fst (relay_loop two_segments no_locals (streaming true)))))
             (promoted (drop (length (trace (streaming true)))
                          (trace (fst (relay_loop two_segments no_locals (streaming true)))))))
   ++ open_content (fst (relay_loop two_segments no_locals (streaming true))))%list
  = concat (recorded (is_recording (streaming true)) two_segments).
Proof.
  apply (recorded_chunks_are_kept_in_order two_segments (streaming true)
           (mkPopen rpicam_vid 100) (mkPopen ffmpeg 101));
    try reflexivity.
  - repeat constructor.
  - apply (bool_decide_unpack _). vm_compute. exact I.
Defined.

Module TraceFacts.

Import Pathlib Datetime Recorder Spec Invariants Bookkeeping PathlibFacts RecorderFacts
       StagingFacts LoopFacts RecordingFacts.
Local Open Scope recorder_scope.

(** *** A small program logic over the monad *)

Section Preserving.

Variable I : recorder -> Prop.
Variable R : recorder -> recorder -> Prop.

Hypothesis R_refl : forall r, R r r.
Hypothesis R_trans : forall a b c, R a b -> R b c -> R a c.

Lemma preserves_ret {A} (a : A) : preserves I R (ret a).
Proof. intros r H. split; [exact H | apply R_refl]. Qed.

Lemma preserves_raise {A} (e : exn) : preserves I R (@raise A e).
Proof. intros r H. split; [exact H | apply R_refl]. Qed.

Lemma preserves_block {A} : preserves I R (@block A).
Proof. intros r H. split; [exact H | apply R_refl]. Qed.

Lemma preserves_gets {A} (f : recorder -> A) : preserves I R (gets f).
Proof. intros r H. split; [exact H | apply R_refl]. Qed.

Lemma preserves_bind {A B} (m : M A) (k : A -> M B) :
  preserves I R m -> (forall a, preserves I R (k a)) -> preserves I R (bind m k).
Proof.
  intros Hm Hk r Hr. unfold bind. destruct (Hm r Hr) as [H1 H2].
  destruct (m r) as [r1 [a|e|]]; cbn [fst] in *; try (split; assumption).
  destruct (Hk a r1 H1) as [H3 H4]. split; [exact H3 | eauto].
Qed.

Lemma preserves_try_except {A} (m : M A) (c : exn -> bool) (h : exn -> M A) :
  preserves I R m -> (forall e, preserves I R (h e)) ->
  preserves I R (try_except m c h).
Proof.
  intros Hm Hk r Hr. unfold try_except. destruct (Hm r Hr) as [H1 H2].
  destruct (m r) as [r1 [a|e|]]; cbn [fst] in *; try (split; assumption).
  destruct (c e); cbn [fst]; [|split; assumption].
  destruct (Hk e r1 H1) as [H3 H4]. split; [exact H3 | eauto].
Qed.

End Preserving.

(** Walks a computation built from the monad's operations; [base] settles
    the leaves ([emit] and [modify]). *)
Ltac walk base :=
  repeat first
    [ apply preserves_ret; [assumption..]
    | apply preserves_raise; [assumption..]
    | apply preserves_block; [assumption..]
    | apply preserves_gets; [assumption..]
    | apply preserves_bind; [assumption.. | | intros]
    | apply preserves_try_except; [assumption.. | | intros]
    | base
    | match goal with
      | |- preserves _ _ (match ?x with _ => _ end) => destruct x
      end ].

(** *** Traces that grow by effects of one kind *)

Section Growing.

Variable Q : effect -> Prop.

Let I0 : recorder -> Prop := fun _ => True.

Lemma grows_refl (r : recorder) : grows_by Q r r.
Proof. exists []. split; [symmetry; apply app_nil_r | constructor]. Qed.

Lemma grows_trans (a b c : recorder) :
  grows_by Q a b -> grows_by Q b c -> grows_by Q a c.
Proof.
  intros (em1 & H1 & Q1) (em2 & H2 & Q2). exists (em1 ++ em2)%list.
  split; [rewrite H2, H1; now rewrite app_assoc | now apply Forall_app].
Qed.

Lemma grows_emit (e : effect) : Q e -> preserves I0 (grows_by Q) (emit e).
Proof.
  intros He r _. split; [exact I|]. destruct r. exists [e].
  split; [reflexivity | now constructor].
Qed.

Lemma grows_modify (f : recorder -> recorder) :
  (forall r, trace (f r) = trace r) -> preserves I0 (grows_by Q) (modify f).
Proof.
  intros Hf r _. split; [exact I|]. exists []. cbn.
  split; [rewrite Hf; symmetry; apply app_nil_r | constructor].
Qed.

End Growing.

Ltac grow_base :=
  first [ apply grows_emit; auto; fail
        | apply grows_modify; intros []; reflexivity ].

Ltac grow :=
  match goal with
  | |- preserves _ (grows_by ?Q) _ =>
      pose proof (grows_refl Q); pose proof (grows_trans Q)
  end;
  walk grow_base.

Section LoopGrowth.

Variable Q : effect -> Prop.

Hypothesis Q_fs : forall e, is_fs_effect e = true -> Q e.
Hypothesis Q_log : forall l msg, Q (Log l msg).

Local Abbreviation growing := (preserves (fun _ => True) (grows_by Q)).

Lemma record_chunk_grows (e : chunk_env) (l : locals) (chunk : bytes) :
  growing (record_chunk e l chunk).
Proof.
  unfold record_chunk, promote, file_close, file_write, open_wb, path_rename,
    path_exists, value_of, logger.
  grow.
Qed.

Lemma set_is_recording_grows (v : bool) : growing (set_is_recording v).
Proof. unfold set_is_recording, logger. grow. Qed.

Lemma apply_toggles_grows (vs : list bool) : growing (apply_toggles vs).
Proof.
  induction vs as [|v vs IH]; cbn [apply_toggles]; [grow|].
  pose proof (grows_trans Q).
  apply preserves_bind; [assumption | apply set_is_recording_grows | intros; exact IH].
Qed.

Hypothesis Q_sleep : forall n, Q (Sleep n).
Hypothesis Q_clean : forall ok, Q (HlsClean ok).
Hypothesis Q_spawn : forall p, Q (Spawn p).
Hypothesis Q_stdin : forall p c, Q (StdinWrite p c).
Hypothesis Q_close : forall p, Q (StdinClose p).
Hypothesis Q_wait : forall p, Q (Wait p).

Lemma relay_chunk_grows (e : chunk_env) (l : locals) : growing (relay_chunk e l).
Proof.
  pose proof (grows_trans Q).
  unfold relay_chunk.
  apply preserves_bind; [assumption | | intros [chunk|]].
  - unfold relay_to_hls, stdout_read, stdin_write, logger. grow.
  - apply preserves_bind; [assumption | apply apply_toggles_grows | intros _].
    apply preserves_bind; [assumption | apply record_chunk_grows | intros].
    grow.
  - grow.
Qed.

Lemma relay_loop_grows (es : list chunk_env) : forall l, growing (relay_loop es l).
Proof.
  pose proof (grows_trans Q).
  induction es as [|e es IH]; intros l; cbn [relay_loop]; [grow|].
  apply preserves_bind; [assumption | apply relay_chunk_grows | intros [l' [|]]].
  - apply IH.
  - grow.
Qed.

Lemma guarded_pipeline_grows (i : iter_env) : growing (guarded_pipeline i).
Proof.
  pose proof (grows_trans Q).
  unfold guarded_pipeline, pipeline, stream_once.
  apply preserves_try_except; [assumption | | intros; unfold on_exception, logger, sleep; grow].
  apply preserves_bind; [assumption | | intros; unfold logger, sleep; grow].
  unfold _clean_old_hls_segments, popen, logger.
  do 5 (apply preserves_bind; [assumption | grow | intros]).
  apply preserves_bind; [assumption | apply relay_loop_grows | intros].
  unfold process_wait, stdin_close. grow.
Qed.

Lemma streaming_loop_grows (passes : list iter_env) :
  growing (_camera_streaming_loop passes).
Proof.
  pose proof (grows_trans Q).
  induction passes as [|i rest IH]; cbn [_camera_streaming_loop]; [grow|].
  destruct (is_disconnected (i_state i)); [grow|].
  apply preserves_bind; [assumption | apply guarded_pipeline_grows | intros; exact IH].
Qed.

End LoopGrowth.

End TraceFacts.

Import TraceFacts.

(** X2: the streaming loop never signals a child and never waits for one
    with a timeout.  Whatever the passes do, everything the loop adds to the
    trace is something other than terminate, kill or a bounded wait: a child
    it has started is only ever read from, written to and waited for. *)
Theorem streaming_loop_never_signals_a_child (passes : list iter_env) (r : recorder) :
  let r' := fst (_camera_streaming_loop passes r) in
  trace r' = (trace r ++ emitted r r')%list
  /\ Forall (fun e => is_signal e = false) (emitted r r').
Proof.
  intros r'.
  assert (Hg : preserves (fun _ => True) (grows_by (fun e => is_signal e = false))
                 (_camera_streaming_loop passes)).
  { apply streaming_loop_grows; try (intros; reflexivity).
    intros [] H; try discriminate H; reflexivity. }
  destruct (Hg r I) as [_ (em & Hem & HQ)]. fold r' in Hem.
  unfold emitted. rewrite Hem, drop_base. split; [reflexivity | exact HQ].
Qed.

Module CommandFacts.

Import Commands.

Lemma uint_starts_with_digit (d : Decimal.uint) :
  exists c rest, DecimalString.NilZero.string_of_uint d = String c rest
                 /\ is_digit c = true.
Proof.
  destruct d; cbn; eexists _, _; split; reflexivity.
Qed.

Lemma intlike_str_int (z : Z) : intlike (str_int z) = true.
Proof.
  unfold str_int. destruct (Z.to_int z) as [d|d]; cbn.
  - destruct (uint_starts_with_digit d) as (c & rest & -> & Hc). cbn.
    now rewrite Hc.
  - destruct (uint_starts_with_digit d) as (c & rest & -> & Hc).
    now rewrite Hc, orb_true_r.
Qed.

Lemma str_int_is_no_option (z : Z) (opt : string) :
  intlike opt = false -> String.eqb (str_int z) opt = false.
Proof.
  intros H. destruct (String.eqb (str_int z) opt) eqn:E; [|reflexivity].
  apply String.eqb_eq in E. pose proof (intlike_str_int z) as Hz.
  rewrite E in Hz. congruence.
Qed.

Lemma py_insert_before_last_two {A} (x a b : A) (l : list A) :
  py_insert (-2) x (l ++ [a; b]) = (l ++ [x; a; b])%list.
Proof.
  unfold py_insert. rewrite length_app. cbn [length].
  replace (-2 <? 0)%Z with true by reflexivity.
  replace (-2 + Z.of_nat (length l + 2))%Z with (Z.of_nat (length l)) by lia.
  replace (Z.of_nat (length l) <? 0)%Z with false by (symmetry; apply Z.ltb_ge; lia).
  replace (Z.of_nat (length l + 2) <? Z.of_nat (length l))%Z with false
    by (symmetry; apply Z.ltb_ge; lia).
  rewrite Nat2Z.id, take_app_length, drop_app_length. reflexivity.
Qed.

End CommandFacts.

Import Commands CommandFacts.

(** X3: the capture command line keeps its shape whatever the settings are.
    [--vflip] is on it exactly when [vflip] is set, and then it stands right
    before the output option, so the command always ends with [-o -]; each of
    [--width], [--height], [--framerate] is still followed by its own value
    and [-o] by [-]. *)
Theorem rpicam_cmd_layout (s : settings) :
  rpicam_cmd s
  = (take 17 (rpicam_base s)
     ++ (if vflip s then ["--vflip"] else []) ++ ["-o"; "-"])%list
  /\ (In "--vflip" (rpicam_cmd s) <-> vflip s = true)
  /\ option_value "--width" (rpicam_cmd s) = Some (str_int (width s))
  /\ option_value "--height" (rpicam_cmd s) = Some (str_int (height s))
  /\ option_value "--framerate" (rpicam_cmd s) = Some (str_int (framerate s))
  /\ option_value "-o" (rpicam_cmd s) = Some "-".
Proof.
  assert (Hcmd : rpicam_cmd s
    = (take 17 (rpicam_base s)
       ++ (if vflip s then ["--vflip"] else []) ++ ["-o"; "-"])%list).
  { unfold rpicam_cmd. destruct (vflip s); [|reflexivity].
    change (rpicam_base s) with (take 17 (rpicam_base s) ++ ["-o"; "-"])%list at 1.
    apply py_insert_before_last_two. }
  split; [exact Hcmd|].
  pose proof (str_int_is_no_option (width s)) as Hw.
  pose proof (str_int_is_no_option (height s)) as Hh.
  pose proof (str_int_is_no_option (framerate s)) as Hf.
  rewrite Hcmd. cbn [take rpicam_base app].
  split; [|repeat split].
  - split.
    + intros Hin. destruct (vflip s); [reflexivity|]. exfalso.
      cbn in Hin.
      repeat (destruct Hin as [Hin|Hin];
              [first [discriminate Hin
                     | apply String.eqb_eq in Hin;
                       rewrite ?Hw, ?Hh, ?Hf in Hin by reflexivity; discriminate Hin]|]).
      exact Hin.
    + intros ->. cbn. do 17 right. now left.
  - cbn. rewrite Hw by reflexivity. reflexivity.
  - cbn. rewrite Hw, Hh by reflexivity. reflexivity.
  - cbn. rewrite Hw, Hh, Hf by reflexivity. destruct (vflip s); reflexivity.
Qed.

Module JanitorFacts.

Import Janitor.

Lemma remove_name_In (n m : string) (dir : list string) :
  In m (remove_name n dir) <-> In m dir /\ m <> n.
Proof.
  unfold remove_name. rewrite filter_In. split; intros [H1 H2]; split; trivial.
  - intros ->. now rewrite String.eqb_refl in H2.
  - destruct (String.eqb m n) eqn:E; [|reflexivity].
    apply String.eqb_eq in E. contradiction.
Qed.

(** What one unlinking loop does: it removes a prefix of the names, none of
    which failed, and stops either at the end or at the first name that
    fails. *)
Lemma unlink_each_spec (fails : string -> bool) (names : list string) :
  forall dir,
    exists gone,
      (forall m, In m (fst (unlink_each fails names dir))
                 <-> In m dir /\ ~ In m gone)
      /\ (forall m, In m gone -> In m names /\ fails m = false)
      /\ match snd (unlink_each fails names dir) with
         | None => gone = names
         | Some x => In x names /\ fails x = true
         end.
Proof.
  induction names as [|n rest IH]; intros dir; cbn [unlink_each].
  - exists []. cbn. repeat split; tauto.
  - destruct (fails n) eqn:Hn.
    + exists []. cbn. repeat split; tauto.
    + destruct (IH (remove_name n dir)) as (gone & H1 & H2 & H3).
      exists (n :: gone). split; [|split].
      * intros m. rewrite H1, remove_name_In. cbn. split.
        -- intros [[Hd Hne] Hg]. split; [exact Hd|]. intros [E|Hin]; [now subst | tauto].
        -- intros [Hd Hg]. repeat split; trivial.
           ++ intros ->. apply Hg. now left.
           ++ intros Hin. apply Hg. now right.
      * intros m [<-|Hin]; [split; [now left | exact Hn]|].
        destruct (H2 m Hin). split; [now right | assumption].
      * destruct (snd (unlink_each fails rest (remove_name n dir))).
        -- destruct H3. split; [now right | assumption].
        -- now subst.
Qed.

Lemma manifest_is_no_fragment (n : string) :
  is_manifest n = true -> is_fragment n = false.
Proof. unfold is_manifest. intros H. apply String.eqb_eq in H. now subst. Qed.

End JanitorFacts.

Import Janitor JanitorFacts.

(** X4: when no [unlink] of a stream file fails, cleaning removes every file
    matching [webcam*.ts] and the manifest [webcam.m3u8], keeps every other
    file, and logs nothing. *)
Theorem clean_removes_all_stream_files (fails : string -> bool) (dir : list string) :
  (forall n, In n dir -> is_stream_file n = true -> fails n = false) ->
  snd (_clean_old_hls_segments fails dir) = []
  /\ forall n, In n (fst (_clean_old_hls_segments fails dir))
               <-> In n dir /\ is_stream_file n = false.
Proof.
  intros Hok. unfold _clean_old_hls_segments.
  destruct (unlink_each_spec fails (glob is_fragment dir) dir) as (g1 & A1 & A2 & A3).
  destruct (unlink_each fails (glob is_fragment dir) dir) as [dir1 [x|]]; cbn [fst snd] in *.
  { exfalso. destruct A3 as [Hin Hf]. unfold glob in Hin. apply filter_In in Hin as [Hd Hm].
    rewrite Hok in Hf; [discriminate | exact Hd |]. unfold is_stream_file. now rewrite Hm. }
  subst g1.
  destruct (unlink_each_spec fails (glob is_manifest dir1) dir1) as (g2 & B1 & B2 & B3).
  destruct (unlink_each fails (glob is_manifest dir1) dir1) as [dir2 [x|]]; cbn [fst snd] in *.
  { exfalso. destruct B3 as [Hin Hf]. unfold glob in Hin. apply filter_In in Hin as [Hd Hm].
    apply A1 in Hd as [Hd _].
    rewrite Hok in Hf; [discriminate | exact Hd |]. unfold is_stream_file.
    now rewrite Hm, orb_true_r. }
  subst g2. split; [reflexivity|]. intros n. rewrite B1, A1. unfold glob.
  rewrite !filter_In, A1, filter_In. unfold is_stream_file. split.
  - intros [[Hd Hf] Hm]. split; [exact Hd|].
    destruct (is_fragment n) eqn:E1; [tauto|].
    destruct (is_manifest n) eqn:E2; [|reflexivity]. exfalso. apply Hm. tauto.
  - intros [Hd Hs]. apply orb_false_elim in Hs as [E1 E2].
    repeat split; trivial; intros [_ H]; congruence.
Qed.

Lemma clean_removes_all_stream_files_witness :
  snd (_clean_old_hls_segments (fun _ => false)
         ["webcam0.ts"; "index.html"; "webcam.m3u8"; "webcam17.ts"]) = [].
Proof.
  apply (clean_removes_all_stream_files (fun _ => false)
           ["webcam0.ts"; "index.html"; "webcam.m3u8"; "webcam17.ts"]).
  intros; reflexivity.
Defined.

(** X5: cleaning never raises and never touches anything else.  Whichever
    unlinks fail, the directory afterwards holds only files that were there,
    among them every file that is not a stream file; at most one warning is
    logged; and when none is logged no stream file is left. *)
Theorem clean_only_removes_stream_files (fails : string -> bool) (dir : list string) :
  let dir' := fst (_clean_old_hls_segments fails dir) in
  let log := snd (_clean_old_hls_segments fails dir) in
  (forall n, In n dir' -> In n dir)
  /\ (forall n, In n dir -> is_stream_file n = false -> In n dir')
  /\ (log = [] \/ log = [warning])
  /\ (log = [] -> forall n, In n dir' -> is_stream_file n = false).
Proof.
  unfold _clean_old_hls_segments.
  destruct (unlink_each_spec fails (glob is_fragment dir) dir) as (g1 & A1 & A2 & A3).
  destruct (unlink_each fails (glob is_fragment dir) dir) as [dir1 [x|]]; cbn [fst snd] in *.
  { split; [|split; [|split]].
    - intros n Hn. now apply A1 in Hn.
    - intros n Hd Hs. apply A1. split; [exact Hd|]. intros Hg.
      apply A2 in Hg as [Hg _]. unfold glob in Hg. apply filter_In in Hg as [_ Hg].
      unfold is_stream_file in Hs. now rewrite Hg in Hs.
    - now right.
    - discriminate. }
  subst g1.
  destruct (unlink_each_spec fails (glob is_manifest dir1) dir1) as (g2 & B1 & B2 & B3).
  destruct (unlink_each fails (glob is_manifest dir1) dir1) as [dir2 [x|]]; cbn [fst snd] in *.
  - split; [|split; [|split]].
    + intros n Hn. apply B1 in Hn as [Hn _]. now apply A1 in Hn.
    + intros n Hd Hs. unfold is_stream_file in Hs. apply orb_false_elim in Hs as [E1 E2].
      apply B1. split.
      * apply A1. split; [exact Hd|]. unfold glob. rewrite filter_In. intros [_ H]. congruence.
      * intros Hg. apply B2 in Hg as [Hg _]. unfold glob in Hg.
        apply filter_In in Hg as [_ Hg]. congruence.
    + now right.
    + discriminate.
  - subst g2. split; [|split; [|split]].
    + intros n Hn. apply B1 in Hn as [Hn _]. now apply A1 in Hn.
    + intros n Hd Hs. unfold is_stream_file in Hs. apply orb_false_elim in Hs as [E1 E2].
      apply B1. split.
      * apply A1. split; [exact Hd|]. unfold glob. rewrite filter_In. intros [_ H]. congruence.
      * unfold glob. rewrite filter_In. intros [_ H]. congruence.
    + now left.
    + intros _ n Hn. apply B1 in Hn as [Hn Hm]. apply A1 in Hn as [Hd Hf].
      unfold glob in Hm, Hf. rewrite filter_In in Hm, Hf. unfold is_stream_file.
      destruct (is_fragment n) eqn:E1; [tauto|].
      destruct (is_manifest n) eqn:E2; [|reflexivity].
      exfalso. apply Hm. split; [|reflexivity]. apply A1. split; [exact Hd|].
      rewrite filter_In. intros [_ H]. congruence.
Qed.

(** X6: when the unlink of a fragment fails, the second loop is not run: one
    warning is logged, and a manifest that was there is still there, as is
    the fragment itself. *)
Theorem failed_fragment_leaves_manifest
  (fails : string -> bool) (dir : list string) (n : string) :
  In n dir -> is_fragment n = true -> fails n = true ->
  let dir' := fst (_clean_old_hls_segments fails dir) in
  snd (_clean_old_hls_segments fails dir) = [warning]
  /\ In n dir'
  /\ (In "webcam.m3u8" dir -> In "webcam.m3u8" dir').
Proof.
  intros Hd Hfr Hf. unfold _clean_old_hls_segments.
  destruct (unlink_each_spec fails (glob is_fragment dir) dir) as (g1 & A1 & A2 & A3).
  destruct (unlink_each fails (glob is_fragment dir) dir) as [dir1 [x|]]; cbn [fst snd] in *.
  - split; [reflexivity|]. split.
    + apply A1. split; [exact Hd|]. intros Hg. apply A2 in Hg as [_ Hg]. congruence.
    + intros Hm. apply A1. split; [exact Hm|]. intros Hg. apply A2 in Hg as [Hg _].
      unfold glob in Hg. apply filter_In in Hg as [_ Hg]. discriminate Hg.
  - exfalso. subst g1.
    assert (Hin : In n (glob is_fragment dir)) by (unfold glob; now apply filter_In).
    apply A2 in Hin as [_ Hin]. congruence.
Qed.

Lemma failed_fragment_leaves_manifest_witness :
  snd (_clean_old_hls_segments (fun n => String.eqb n "webcam17.ts")
         ["webcam0.ts"; "index.html"; "webcam.m3u8"; "webcam17.ts"]) = [warning].
Proof.
  apply (failed_fragment_leaves_manifest (fun n => String.eqb n "webcam17.ts")
           ["webcam0.ts"; "index.html"; "webcam.m3u8"; "webcam17.ts"] "webcam17.ts");
    [cbn; tauto | reflexivity | reflexivity].
Defined.

Module IdleFacts.

Import Pathlib Datetime Recorder Spec Invariants Bookkeeping PathlibFacts RecorderFacts
       StagingFacts LoopFacts RecordingFacts TraceFacts.
Local Open Scope recorder_scope.

Local Abbreviation resting := (preserves idle quiet_step).

Lemma idle_emit (e : effect) : is_fs_effect e = false -> resting (emit e).
Proof.
  intros He r Hr. split; [destruct r; exact Hr|]. now apply quiet_emit.
Qed.

Lemma idle_modify (f : recorder -> recorder) :
  (forall r, archive (f r) = archive r) ->
  (forall r, current_file_handle (f r) = current_file_handle r) ->
  (forall r, trace (f r) = trace r) ->
  (forall r, is_recording (f r) = is_recording r) ->
  resting (modify f).
Proof.
  intros Ha Hh Ht Hrec r [H1 H2]. split.
  - split; cbn; [now rewrite Hrec | now rewrite Hh].
  - now apply quiet_modify.
Qed.

Ltac rest_base :=
  first [ apply idle_emit; reflexivity
        | apply idle_modify; intros []; reflexivity ].

Ltac settle :=
  pose proof quiet_step_refl; pose proof quiet_step_trans; walk rest_base.

Lemma idle_record_chunk (e : chunk_env) (l : locals) (chunk : bytes) (r : recorder) :
  idle r -> record_chunk e l chunk r = (r, Ok l).
Proof.
  intros [H1 H2]. destruct r as [cp fp h rec dir mins files tr].
  cbn in H1, H2. subst rec h. reflexivity.
Qed.

Lemma idle_apply_toggles (vs : list bool) (r : recorder) :
  Forall (fun v => v = false) vs -> idle r -> apply_toggles vs r = (r, Ok tt).
Proof.
  induction 1 as [|v vs -> _ IH]; intros Hr; [reflexivity|].
  cbn [apply_toggles]. unfold bind.
  assert (E : set_is_recording false r = (r, Ok tt)).
  { destruct Hr as [H1 _]. destruct r as [cp fp h rec dir mins files tr].
    cbn in H1. subst rec. reflexivity. }
  rewrite E. now apply IH.
Qed.

Lemma resting_relay_chunk (e : chunk_env) (l : locals) :
  leaves_recording_off e -> resting (relay_chunk e l).
Proof.
  intros He r Hr. unfold relay_chunk, bind.
  assert (H1 : resting (relay_to_hls e)).
  { unfold relay_to_hls, stdout_read, stdin_write, logger. settle. }
  destruct (H1 r Hr) as [Hi Hq].
  destruct (relay_to_hls e r) as [r1 [[chunk|]|x|]]; cbn [fst] in *;
    try (split; assumption).
  rewrite (idle_apply_toggles _ r1 He Hi), (idle_record_chunk e l chunk r1 Hi).
  split; assumption.
Qed.

Lemma resting_relay_loop (es : list chunk_env) :
  Forall leaves_recording_off es -> forall l, resting (relay_loop es l).
Proof.
  induction 1 as [|e es He _ IH]; intros l; cbn [relay_loop]; [settle|].
  apply preserves_bind; [apply quiet_step_trans | now apply resting_relay_chunk |].
  intros [l' [|]]; [apply IH | settle].
Qed.

Lemma resting_guarded_pipeline (i : iter_env) :
  Forall leaves_recording_off (i_chunks i) -> resting (guarded_pipeline i).
Proof.
  intros Hi. pose proof quiet_step_trans.
  unfold guarded_pipeline, pipeline, stream_once.
  apply preserves_try_except; [assumption | | intros; unfold on_exception, logger, sleep; settle].
  apply preserves_bind; [assumption | | intros; unfold logger, sleep; settle].
  unfold _clean_old_hls_segments, popen, logger.
  do 5 (apply preserves_bind; [assumption | settle | intros]).
  apply preserves_bind; [assumption | now apply resting_relay_loop | intros].
  unfold process_wait, stdin_close. settle.
Qed.

Lemma resting_loop (passes : list iter_env) :
  Forall (fun i => Forall leaves_recording_off (i_chunks i)) passes ->
  resting (_camera_streaming_loop passes).
Proof.
  induction 1 as [|i more Hi _ IH]; cbn [_camera_streaming_loop]; [settle|].
  destruct (is_disconnected (i_state i)); [settle|].
  apply preserves_bind;
    [apply quiet_step_trans | now apply resting_guarded_pipeline | intros; exact IH].
Qed.

End IdleFacts.

Import IdleFacts.

(** X7: while recording stays off the streaming loop does nothing on the
    archive side.  From a job that is not recording and has no segment open,
    if no other thread switches recording on, then after any number of
    passes the archive directory is as it was, no file operation has taken
    place, and the job is still not recording with no segment open. *)
Theorem streaming_without_recording_leaves_archive_alone
  (passes : list iter_env) (r : recorder) :
  idle r ->
  Forall (fun i => Forall leaves_recording_off (i_chunks i)) passes ->
  let r' := fst (_camera_streaming_loop passes r) in
  archive r' = archive r
  /\ Forall (fun e => is_fs_effect e = false) (emitted r r')
  /\ idle r'.
Proof.
  intros Hr Hp r'.
  destruct (resting_loop passes Hp r Hr) as [Hi (Ha & _ & em & Hem & Hq)].
  fold r' in Hi, Ha, Hem.
  split; [exact Ha|]. split; [|exact Hi].
  unfold emitted. now rewrite Hem, drop_base.
Qed.

Lemma streaming_without_recording_leaves_archive_alone_witness :
  archive (fst (_camera_streaming_loop
                  [healthy [smooth chunk_a nine_thirty; smooth chunk_b nine_forty_five]]
                  (fresh false)))
  = archive (fresh false).
Proof.
  apply (streaming_without_recording_leaves_archive_alone
           [healthy [smooth chunk_a nine_thirty; smooth chunk_b nine_forty_five]]
           (fresh false)).
  - split; reflexivity.
  - repeat constructor.
Defined.

(** X8: [start_camera_streaming] starts a thread only when none is running.
    A second call while the thread of the first is alive changes nothing; a
    call that finds the recorded thread dead starts a new one and records
    it; and becoming ready right after construction starts exactly one
    thread and leaves recording off. *)
Theorem start_camera_streaming_starts_one_thread
  (alive : Lifecycle.Thread -> bool) (t1 t2 : Lifecycle.Thread) (j : Lifecycle.job) :
  alive t1 = true ->
  Lifecycle.start_camera_streaming alive t2
    (Lifecycle.start_camera_streaming alive t1 j)
  = Lifecycle.start_camera_streaming alive t1 j
  /\ (forall dead,
        Lifecycle.streaming_thread j = Some dead -> alive dead = false ->
        Lifecycle.started (Lifecycle.start_camera_streaming alive t1 j)
        = (Lifecycle.started j ++ [t1])%list
        /\ Lifecycle.streaming_thread (Lifecycle.start_camera_streaming alive t1 j)
           = Some t1)
  /\ Lifecycle.started (Lifecycle.on_init_to_ready alive t1 Lifecycle.__init__) = [t1]
  /\ Lifecycle.is_recording (Lifecycle.on_init_to_ready alive t1 Lifecycle.__init__)
     = false.
Proof.
  intros Ha. split; [|split; [|split; reflexivity]].
  - unfold Lifecycle.start_camera_streaming.
    destruct (Lifecycle.streaming_thread j) as [t|] eqn:E.
    + destruct (alive t) eqn:Et; cbn; [now rewrite E, Et | now rewrite Ha].
    + cbn. now rewrite Ha.
  - intros dead E Hd. unfold Lifecycle.start_camera_streaming.
    rewrite E, Hd. split; reflexivity.
Qed.

Lemma start_camera_streaming_starts_one_thread_witness :
  Lifecycle.start_camera_streaming (fun _ => true) (Lifecycle.mkThread 2)
    (Lifecycle.start_camera_streaming (fun _ => true) (Lifecycle.mkThread 1)
       Lifecycle.__init__)
  = Lifecycle.start_camera_streaming (fun _ => true) (Lifecycle.mkThread 1)
      Lifecycle.__init__.
Proof.
  apply (start_camera_streaming_starts_one_thread (fun _ => true)
           (Lifecycle.mkThread 1) (Lifecycle.mkThread 2) Lifecycle.__init__).
  reflexivity.
Defined.

(** ** Stopping, toggling and naming *)

Module ConductFacts.

Import Pathlib Datetime Recorder Spec Invariants Bookkeeping Runs PathlibFacts
       RecorderFacts StagingFacts LoopFacts RecordingFacts.
Local Open Scope recorder_scope.

Lemma flips_alternate (vs : list bool) : forall cur, alternating cur (flips cur vs).
Proof.
  induction vs as [|v vs IH]; intros cur; cbn; [exact I|].
  destruct (Bool.eqb v cur) eqn:E; [apply IH|].
  cbn. split; [|apply IH]. destruct v, cur; try reflexivity; discriminate.
Qed.

Lemma digit_inj (a b : Z) :
  (0 <= a < 10)%Z -> (0 <= b < 10)%Z -> digit a = digit b -> a = b.
Proof.
  intros Ha Hb H. unfold digit in H.
  rewrite !Z.mod_small in H by lia.
  apply (f_equal nat_of_ascii) in H.
  rewrite !nat_ascii_embedding in H by lia. lia.
Qed.

Lemma digit_mod (a : Z) : digit a = digit (a mod 10).
Proof. unfold digit. now rewrite Z.mod_mod by lia. Qed.

Lemma pad2_inj (a b : Z) :
  (0 <= a < 100)%Z -> (0 <= b < 100)%Z -> pad2 a = pad2 b -> a = b.
Proof.
  intros Ha Hb H. unfold pad2 in H. injection H as H1 H2.
  rewrite (digit_mod a), (digit_mod b) in H2.
  apply digit_inj in H1; [|split; [apply Z.div_pos|apply Z.div_lt_upper_bound]; lia ..].
  apply digit_inj in H2; [|apply Z.mod_pos_bound; lia ..].
  rewrite (Z.div_mod a 10), (Z.div_mod b 10) by lia. lia.
Qed.

Lemma pad4_inj (a b : Z) :
  (0 <= a < 10000)%Z -> (0 <= b < 10000)%Z -> pad4 a = pad4 b -> a = b.
Proof.
  intros Ha Hb H. unfold pad4, pad2 in H. injection H as H1 H2 H3 H4.
  rewrite (digit_mod a), (digit_mod b) in H4.
  rewrite (digit_mod (a / 10)), (digit_mod (b / 10)) in H3.
  rewrite (digit_mod (a / 100)), (digit_mod (b / 100)) in H2.
  apply digit_inj in H1; [|split; [apply Z.div_pos|apply Z.div_lt_upper_bound]; lia ..].
  apply digit_inj in H2; [|apply Z.mod_pos_bound; lia ..].
  apply digit_inj in H3; [|apply Z.mod_pos_bound; lia ..].
  apply digit_inj in H4; [|apply Z.mod_pos_bound; lia ..].
  pose proof (Z.div_mod a 10 ltac:(lia)).
  pose proof (Z.div_mod b 10 ltac:(lia)).
  pose proof (Z.div_mod (a / 10) 10 ltac:(lia)).
  pose proof (Z.div_mod (b / 10) 10 ltac:(lia)).
  pose proof (Z.div_mod (a / 100) 10 ltac:(lia)).
  pose proof (Z.div_mod (b / 100) 10 ltac:(lia)).
  assert (a / 10 / 10 = a / 100)%Z by (rewrite Z.div_div by lia; reflexivity).
  assert (b / 10 / 10 = b / 100)%Z by (rewrite Z.div_div by lia; reflexivity).
  assert (a / 100 / 10 = a / 1000)%Z by (rewrite Z.div_div by lia; reflexivity).
  assert (b / 100 / 10 = b / 1000)%Z by (rewrite Z.div_div by lia; reflexivity).
  lia.
Qed.

Lemma set_is_recording_step (v : bool) (r : recorder) :
  set_is_recording v r
  = (if Bool.eqb v (is_recording r) then r
     else with_trace (trace r ++ [recording_message v])%list (with_is_recording v r),
     Ok tt).
Proof. destruct r as [cp fp h rec dir mins files tr]. cbn. now destruct (Bool.eqb v rec). Qed.

End ConductFacts.

Import Runs ConductFacts.

(** X9: [stop_camera_streaming] returns normally unless the close of an open
    segment file fails, in which case the [OSError] leaves the method after
    both children were stopped.  The archive directory changes in one way
    only: the close writes what an earlier failed write left in the handle's
    buffer to the end of that handle's file (all of it when the close
    succeeds, the part the failing close still wrote otherwise).  With no
    handle, a closed handle or an empty buffer the directory is as it
    was. *)
Theorem stop_raises_only_when_close_fails (s : stop_env) (r : recorder) :
  let closes :=
    match current_file_handle r with
    | Some f => closed f || s_close_ok s
    | None => true
    end in
  let r' := fst (stop_camera_streaming s r) in
  snd (stop_camera_streaming s r) = (if closes then Ok tt else Raise OSError)
  /\ camera_process r' = None
  /\ ffmpeg_process r' = None
  /\ (closes = true -> current_file_handle r' = None)
  /\ archive r'
     = match current_file_handle r with
       | Some f =>
           if closed f then archive r
           else
             match flushed_at_close (s_close_ok s) (s_close_partial s) f with
             | [] => archive r
             | out => append_bytes (f_name f) out (archive r)
             end
       | None => archive r
       end
  /\ (forall f, current_file_handle r = Some f -> buffered f = [] ->
      archive r' = archive r).
Proof.
  intros closes r'.
  assert (Hfirst :
    snd (stop_camera_streaming s r) = (if closes then Ok tt else Raise OSError)
    /\ camera_process r' = None
    /\ ffmpeg_process r' = None
    /\ (closes = true -> current_file_handle r' = None)
    /\ archive r'
       = match current_file_handle r with
         | Some f =>
             if closed f then archive r
             else
               match flushed_at_close (s_close_ok s) (s_close_partial s) f with
               | [] => archive r
               | out => append_bytes (f_name f) out (archive r)
               end
         | None => archive r
         end).
  { subst closes r'.
    destruct r as [[cp|] [fp|] [[nm [|] buf]|] rec dir mins files tr];
      destruct s as [[|] [|] [|] part]; stop_cases;
      repeat split; try reflexivity; discriminate. }
  destruct Hfirst as (H1 & H2 & H3 & H4 & H5).
  repeat split; try assumption.
  intros f Hf Hb. rewrite H5, Hf. destruct (closed f); [reflexivity|].
  unfold flushed_at_close. rewrite Hb.
  destruct (s_close_ok s); [reflexivity | now rewrite take_nil].
Qed.

(** X10: a second stop after one that returned finds nothing to stop: it
    logs its message and changes nothing else, whatever its environment. *)
Theorem second_stop_only_logs (s1 s2 : stop_env) (r : recorder) :
  snd (stop_camera_streaming s1 r) = Ok tt ->
  let r1 := fst (stop_camera_streaming s1 r) in
  on_disconnected s2 r1
  = (with_trace (trace r1 ++ [Log INFO "Stopping camera streaming"])%list r1, Ok tt).
Proof.
  destruct r as [[cp|] [fp|] [[nm [|] buf]|] rec dir mins files tr];
    destruct s1 as [[|] [|] [|] part]; destruct s2 as [ce2 fe2 ok2 part2];
    stop_cases; intros H; try discriminate H; reflexivity.
Qed.

Lemma second_stop_only_logs_witness :
  on_disconnected all_exit (fst (stop_camera_streaming all_exit mid_segment))
  = (with_trace (trace (fst (stop_camera_streaming all_exit mid_segment))
                 ++ [Log INFO "Stopping camera streaming"])%list
       (fst (stop_camera_streaming all_exit mid_segment)), Ok tt).
Proof.
  apply (second_stop_only_logs all_exit all_exit mid_segment).
  vm_compute. reflexivity.
Defined.

(** X11: after any sequence of [set_is_recording] calls the flag holds the
    last value passed, the calls have logged one line for each call that
    changed the flag and nothing else, the logged values alternate starting
    with the opposite of the initial flag, and every other field is as
    before. *)
Theorem recording_log_alternates (vs : list bool) (r : recorder) :
  apply_toggles vs r
  = (with_trace (trace r ++ map recording_message (flips (is_recording r) vs))%list
       (with_is_recording (List.last vs (is_recording r)) r), Ok tt)
  /\ alternating (is_recording r) (flips (is_recording r) vs).
Proof.
  split; [|apply flips_alternate].
  revert r. induction vs as [|v vs IH]; intros r.
  - destruct r; cbn. now rewrite app_nil_r.
  - cbn [apply_toggles flips]. unfold bind at 1.
    rewrite set_is_recording_step. cbn [fst snd].
    destruct r as [cp fp h rec dir mins files tr]. cbn [is_recording].
    destruct (Bool.eqb v rec) eqn:E; rewrite IH; cbn.
    + apply eqb_prop in E. subst v. destruct vs; reflexivity.
    + unfold with_trace, with_is_recording. cbn.
      rewrite <- app_assoc. destruct vs as [|b vs]; [reflexivity|].
      now rewrite (last_default b vs rec v).
Qed.

(** X12: the timestamp of a segment name determines the clock reading up to
    the microseconds: two readings [datetime] can hold give the same segment
    name exactly when they lie in the same second. *)
Theorem segment_names_differ_unless_same_second (dir : string) (a b : datetime) :
  on_calendar a -> on_calendar b ->
  final_path dir a = final_path dir b <-> same_second a b.
Proof.
  intros Ha Hb. unfold on_calendar, same_second in *. split.
  - intros H. unfold final_path, truediv in H.
    injection H as Hy1 Hy2 Hy3 Hy4 Hm1 Hm2 Hd1 Hd2 Hh1 Hh2 Hi1 Hi2 Hs1 Hs2.
    repeat split.
    + apply pad4_inj; [lia | lia |]. unfold pad4, pad2. congruence.
    + apply pad2_inj; [lia | lia |]. unfold pad2. congruence.
    + apply pad2_inj; [lia | lia |]. unfold pad2. congruence.
    + apply pad2_inj; [lia | lia |]. unfold pad2. congruence.
    + apply pad2_inj; [lia | lia |]. unfold pad2. congruence.
    + apply pad2_inj; [lia | lia |]. unfold pad2. congruence.
  - intros (Hy & Hm & Hd & Hh & Hi & Hs).
    unfold final_path, strftime. now rewrite Hy, Hm, Hd, Hh, Hi, Hs.
Qed.

Lemma segment_names_differ_unless_same_second_witness :
  final_path "/home/pioreactor/data/camera" nine_thirty
  = final_path "/home/pioreactor/data/camera" (mkDatetime 2024 5 17 9 30 0 250000)
  <-> same_second nine_thirty (mkDatetime 2024 5 17 9 30 0 250000).
Proof.
  apply (segment_names_differ_unless_same_second
           "/home/pioreactor/data/camera" nine_thirty
           (mkDatetime 2024 5 17 9 30 0 250000));
    unfold on_calendar; cbn; lia.
Defined.

(** ** What reaches ffmpeg *)

Module DeliveryFacts.

Import Pathlib Datetime Recorder Spec Invariants Bookkeeping Runs PathlibFacts
       RecorderFacts StagingFacts LoopFacts RecordingFacts TraceFacts.
Local Open Scope recorder_scope.

(** *** Computations that never block *)

Lemma settles_ret {A} (a : A) : settles (ret a).
Proof. intros r; discriminate. Qed.

Lemma settles_raise {A} (e : exn) : settles (@raise A e).
Proof. intros r; discriminate. Qed.

Lemma settles_gets {A} (f : recorder -> A) : settles (gets f).
Proof. intros r; discriminate. Qed.

Lemma settles_modify (f : recorder -> recorder) : settles (modify f).
Proof. intros r; discriminate. Qed.

Lemma settles_emit (e : effect) : settles (emit e).
Proof. intros r; discriminate. Qed.

Lemma settles_bind {A B} (m : M A) (k : A -> M B) :
  settles m -> (forall a, settles (k a)) -> settles (bind m k).
Proof.
  intros Hm Hk r. unfold bind. specialize (Hm r).
  destruct (m r) as [r1 [a|e|]]; cbn in *; [apply Hk | discriminate | congruence].
Qed.

Lemma settles_try_except {A} (m : M A) (c : exn -> bool) (h : exn -> M A) :
  settles m -> (forall e, settles (h e)) -> settles (try_except m c h).
Proof.
  intros Hm Hh r. unfold try_except. specialize (Hm r).
  destruct (m r) as [r1 [a|e|]]; cbn in *; [discriminate | | congruence].
  destruct (c e); [apply Hh | discriminate].
Qed.

Ltac settle_down :=
  repeat first
    [ apply settles_ret | apply settles_raise | apply settles_gets
    | apply settles_modify | apply settles_emit
    | apply settles_bind; [|intros]
    | apply settles_try_except; [|intros]
    | match goal with
      | |- settles (match ?x with _ => _ end) => destruct x
      end ].

Lemma settles_set_is_recording (v : bool) : settles (set_is_recording v).
Proof. unfold set_is_recording, logger. settle_down. Qed.

Lemma settles_apply_toggles (vs : list bool) : settles (apply_toggles vs).
Proof.
  induction vs as [|v vs IH]; cbn [apply_toggles]; [apply settles_ret|].
  apply settles_bind; [apply settles_set_is_recording | intros; exact IH].
Qed.

Lemma settles_record_chunk (e : chunk_env) (l : locals) (chunk : bytes) :
  settles (record_chunk e l chunk).
Proof.
  unfold record_chunk, promote, file_close, file_write, open_wb, path_rename,
    path_exists, value_of, logger.
  settle_down.
Qed.

Lemma settles_relay_chunk (e : chunk_env) (l : locals) : settles (relay_chunk e l).
Proof.
  unfold relay_chunk, relay_to_hls, stdout_read, stdin_write, logger.
  apply settles_bind; [settle_down | intros [chunk|]; [|apply settles_ret]].
  apply settles_bind; [apply settles_apply_toggles | intros].
  apply settles_bind; [apply settles_record_chunk | intros; apply settles_ret].
Qed.

(** *** The chunks written to ffmpeg's standard input *)

Lemma delivered_app (a b : list effect) :
  delivered_chunks (a ++ b) = (delivered_chunks a ++ delivered_chunks b)%list.
Proof. apply flat_map_app. Qed.

Lemma delivered_none (em : list effect) :
  Forall (fun e => is_stdin_write e = false) em -> delivered_chunks em = [].
Proof.
  induction 1 as [|e em He _ IH]; [reflexivity|].
  destruct e; try discriminate He; exact IH.
Qed.

Local Abbreviation not_to_ffmpeg := (fun e : effect => is_stdin_write e = false).

Lemma not_to_ffmpeg_fs (e : effect) : is_fs_effect e = true -> not_to_ffmpeg e.
Proof. destruct e; intros H; try discriminate H; reflexivity. Qed.

Lemma not_to_ffmpeg_log (l : level) (msg : string) : not_to_ffmpeg (Log l msg).
Proof. reflexivity. Qed.

(** What the first half of a pass leaves behind. *)
Lemma relay_to_hls_cases (e : chunk_env) (r : recorder) :
  match relay_to_hls e r with
  | (r1, Ok (Some chunk)) =>
      chunk = e_chunk e /\ handed_over e
      /\ exists p, trace r1 = (trace r ++ [StdinWrite p chunk])%list
  | (r1, _) =>
      exists em, trace r1 = (trace r ++ em)%list /\ delivered_chunks em = []
  end.
Proof.
  unfold relay_to_hls, stdout_read, stdin_write, try_except, bind, gets, ret,
    raise, logger, emit, modify, handed_over.
  destruct r as [cp fp h rec dir mins files tr]. cbn.
  destruct cp as [p|]; [|exists []; now rewrite app_nil_r].
  destruct (e_chunk e) as [|c cs] eqn:E; [exists []; now rewrite app_nil_r|].
  destruct fp as [q|]; [|exists []; now rewrite app_nil_r].
  destruct (e_pipe e); cbn.
  - split; [reflexivity|].
    split; [split; [intros H; discriminate H | reflexivity]|].
    now exists q.
  - now eexists [_].
  - now eexists [_].
Qed.

(** After the hand-over, the rest of a pass writes nothing to ffmpeg. *)
Lemma archive_half_is_not_to_ffmpeg (e : chunk_env) (l : locals) (chunk : bytes)
      (r : recorder) :
  grows_by not_to_ffmpeg r
    (fst ((apply_toggles (e_toggles e) ;; l' <- record_chunk e l chunk ;;
           ret (l', Continue)) r)).
Proof.
  assert (H : preserves (fun _ => True) (grows_by not_to_ffmpeg)
                (apply_toggles (e_toggles e) ;; l' <- record_chunk e l chunk ;;
                 ret (l', Continue))).
  { pose proof (grows_refl not_to_ffmpeg). pose proof (grows_trans not_to_ffmpeg).
    apply preserves_bind; [assumption | | intros].
    - apply apply_toggles_grows; [apply not_to_ffmpeg_fs || apply not_to_ffmpeg_log ..].
    - apply preserves_bind; [assumption | | intros; apply preserves_ret; assumption].
      apply record_chunk_grows; [apply not_to_ffmpeg_fs | apply not_to_ffmpeg_log]. }
  apply (H r I).
Qed.

Lemma relay_chunk_unfold (e : chunk_env) (l : locals) (r : recorder) :
  relay_chunk e l r
  = let '(r1, o) := relay_to_hls e r in
    match o with
    | Ok (Some chunk) =>
        (apply_toggles (e_toggles e) ;; l' <- record_chunk e l chunk ;;
         ret (l', Continue)) r1
    | Ok None => (r1, Ok (l, Break))
    | Raise x => (r1, Raise x)
    | Pending => (r1, Pending)
    end.
Proof.
  unfold relay_chunk. unfold bind at 1.
  destruct (relay_to_hls e r) as [r1 [[c|]|x|]]; reflexivity.
Qed.

Lemma relay_chunk_delivers (e : chunk_env) (l : locals) (r : recorder) :
  exists em,
    trace (fst (relay_chunk e l r)) = (trace r ++ em)%list
    /\ ((delivered_chunks em = [e_chunk e] /\ handed_over e)
        \/ (delivered_chunks em = []
            /\ forall l', snd (relay_chunk e l r) <> Ok (l', Continue))).
Proof.
  rewrite (relay_chunk_unfold e l r).
  pose proof (relay_to_hls_cases e r) as Hc.
  destruct (relay_to_hls e r) as [r1 [[chunk|]|x|]]; cbv beta iota.
  - destruct Hc as (-> & Hh & p & Ht).
    destruct (archive_half_is_not_to_ffmpeg e l (e_chunk e) r1) as (em & Hem & Hq).
    exists ([StdinWrite p (e_chunk e)] ++ em)%list. split.
    + rewrite Hem, Ht. now rewrite <- app_assoc.
    + left. split; [|exact Hh]. rewrite delivered_app, (delivered_none em Hq).
      reflexivity.
  - destruct Hc as (em & Ht & Hd). exists em. split; [exact Ht|].
    right. split; [exact Hd | intros l' H; cbn in H; discriminate H].
  - destruct Hc as (em & Ht & Hd). exists em. split; [exact Ht|].
    right. split; [exact Hd | intros l' H; cbn in H; discriminate H].
  - destruct Hc as (em & Ht & Hd). exists em. split; [exact Ht|].
    right. split; [exact Hd | intros l' H; cbn in H; discriminate H].
Qed.

Lemma relay_loop_delivers (es : list chunk_env) :
  forall (l : locals) (r : recorder),
  exists em k,
    trace (fst (relay_loop es l r)) = (trace r ++ em)%list
    /\ delivered_chunks em = map e_chunk (take k es)
    /\ Forall handed_over (take k es)
    /\ (snd (relay_loop es l r) = Pending -> k = length es).
Proof.
  induction es as [|e es IH]; intros l r.
  - exists [], 0. cbn. rewrite app_nil_r. repeat split. constructor.
  - cbn [relay_loop]. unfold bind.
    destruct (relay_chunk_delivers e l r) as (em & Ht & Hd).
    pose proof (settles_relay_chunk e l r) as Hs.
    destruct (relay_chunk e l r) as [r1 [[l' [|]]|x|]]; cbn [fst snd] in *.
    + destruct Hd as [[Hd Hh]|[_ Hn]]; [|now destruct (Hn l')].
      destruct (IH l' r1) as (em' & k & Ht' & Hd' & Hf & Hp).
      exists (em ++ em')%list, (S k). cbn [take map length]. repeat split.
      * rewrite Ht', Ht. now rewrite app_assoc.
      * rewrite delivered_app, Hd, Hd'. reflexivity.
      * constructor; assumption.
      * intros H. now rewrite (Hp H).
    + destruct Hd as [[Hd Hh]|[Hd _]].
      * exists em, 1. cbn. rewrite take_0. repeat split; try assumption; try discriminate.
        constructor; [assumption | constructor].
      * exists em, 0. cbn. repeat split; try assumption; try discriminate. constructor.
    + destruct Hd as [[Hd Hh]|[Hd _]].
      * exists em, 1. cbn. rewrite take_0. repeat split; try assumption; try discriminate.
        constructor; [assumption | constructor].
      * exists em, 0. cbn. repeat split; try assumption; try discriminate. constructor.
    + now destruct Hs.
Qed.

End DeliveryFacts.

Import DeliveryFacts.

(** X13: the relay loop writes to ffmpeg exactly the chunks of the first [k]
    reads, unchanged and in the order they were read, for some [k]: nothing
    is dropped, repeated or reordered, no empty chunk is written, and each
    of those writes succeeded.  While the loop has not ended, [k] is the
    number of reads so far. *)
Theorem ffmpeg_receives_a_prefix_of_the_reads
  (es : list chunk_env) (l : locals) (r : recorder) :
  let r' := fst (relay_loop es l r) in
  exists k,
    delivered_chunks (emitted r r') = map e_chunk (take k es)
    /\ Forall handed_over (take k es)
    /\ (snd (relay_loop es l r) = Pending -> k = length es).
Proof.
  destruct (relay_loop_delivers es l r) as (em & k & Ht & Hd & Hf & Hp).
  exists k. cbv zeta. unfold emitted. rewrite Ht, drop_base. auto.
Qed.

(** ** Which children the job still knows *)

Module ChildFacts.

Import Pathlib Datetime Recorder Spec Invariants Bookkeeping Runs PathlibFacts
       RecorderFacts StagingFacts LoopFacts RecordingFacts TraceFacts.
Local Open Scope recorder_scope.

Local Abbreviation anyhow := (fun _ : recorder => True).

Lemma steady_refl (r : recorder) : steady r r.
Proof.
  repeat split. exists []. split; [symmetry; apply app_nil_r | constructor].
Qed.

Lemma steady_trans (a b c : recorder) : steady a b -> steady b c -> steady a c.
Proof.
  intros (Hc1 & Hf1 & em1 & Ht1 & Hq1) (Hc2 & Hf2 & em2 & Ht2 & Hq2).
  split; [congruence|]. split; [congruence|].
  exists (em1 ++ em2)%list. split.
  - rewrite Ht2, Ht1. now rewrite app_assoc.
  - now apply Forall_app.
Qed.

Lemma steady_emit (e : effect) : is_spawn e = false -> preserves anyhow steady (emit e).
Proof.
  intros He r _. split; [exact I|]. destruct r. repeat split.
  exists [e]. split; [reflexivity | now constructor].
Qed.

Lemma steady_modify (f : recorder -> recorder) :
  (forall r, camera_process (f r) = camera_process r) ->
  (forall r, ffmpeg_process (f r) = ffmpeg_process r) ->
  (forall r, trace (f r) = trace r) ->
  preserves anyhow steady (modify f).
Proof.
  intros Hc Hf Ht r _. split; [exact I|]. cbn.
  split; [apply Hc|]. split; [apply Hf|].
  exists []. split; [rewrite Ht; symmetry; apply app_nil_r | constructor].
Qed.

Ltac steady_base :=
  first [ apply steady_emit; reflexivity
        | apply steady_modify; intros []; reflexivity ].

Ltac keep_steady :=
  pose proof steady_refl; pose proof steady_trans; walk steady_base.

Lemma steady_record_chunk (e : chunk_env) (l : locals) (chunk : bytes) :
  preserves anyhow steady (record_chunk e l chunk).
Proof.
  unfold record_chunk, promote, file_close, file_write, open_wb, path_rename,
    path_exists, value_of, logger.
  keep_steady.
Qed.

Lemma steady_set_is_recording (v : bool) : preserves anyhow steady (set_is_recording v).
Proof. unfold set_is_recording, logger. keep_steady. Qed.

Lemma steady_apply_toggles (vs : list bool) : preserves anyhow steady (apply_toggles vs).
Proof.
  induction vs as [|v vs IH]; cbn [apply_toggles]; [keep_steady|].
  apply preserves_bind;
    [apply steady_trans | apply steady_set_is_recording | intros; exact IH].
Qed.

Lemma steady_relay_chunk (e : chunk_env) (l : locals) :
  preserves anyhow steady (relay_chunk e l).
Proof.
  unfold relay_chunk.
  apply preserves_bind; [apply steady_trans | | intros [chunk|]].
  - unfold relay_to_hls, stdout_read, stdin_write, logger. keep_steady.
  - apply preserves_bind; [apply steady_trans | apply steady_apply_toggles | intros _].
    apply preserves_bind; [apply steady_trans | apply steady_record_chunk | intros].
    keep_steady.
  - keep_steady.
Qed.

Lemma steady_relay_loop (es : list chunk_env) :
  forall l, preserves anyhow steady (relay_loop es l).
Proof.
  induction es as [|e es IH]; intros l; cbn [relay_loop]; [keep_steady|].
  apply preserves_bind; [apply steady_trans | apply steady_relay_chunk | intros [l' [|]]].
  - apply IH.
  - keep_steady.
Qed.

(** *** The fields follow the spawns *)

Lemma last_spawned_app (w : program) (a b : list effect) (x : option Popen) :
  last_spawned w (a ++ b) x = last_spawned w b (last_spawned w a x).
Proof. apply fold_left_app. Qed.

Lemma last_spawned_none (w : program) (em : list effect) (x : option Popen) :
  Forall (fun e => is_spawn e = false) em -> last_spawned w em x = x.
Proof.
  intros H. revert x. induction H as [|e em He _ IH]; intros x; [reflexivity|].
  destruct e; try discriminate He; apply IH.
Qed.

Lemma follow_refl (r : recorder) : fields_follow_spawns r r.
Proof. exists []. rewrite app_nil_r. repeat split. Qed.

Lemma follow_trans (a b c : recorder) :
  fields_follow_spawns a b -> fields_follow_spawns b c -> fields_follow_spawns a c.
Proof.
  intros (em1 & Ht1 & Hc1 & Hf1) (em2 & Ht2 & Hc2 & Hf2).
  exists (em1 ++ em2)%list. rewrite !last_spawned_app, <- Hc1, <- Hf1.
  repeat split; try assumption. rewrite Ht2, Ht1. now rewrite app_assoc.
Qed.

Lemma steady_follows (r r' : recorder) : steady r r' -> fields_follow_spawns r r'.
Proof.
  intros (Hc & Hf & em & Ht & Hq). exists em.
  rewrite !last_spawned_none by assumption. auto.
Qed.

Lemma follows_steady {A} (m : M A) :
  preserves anyhow steady m -> preserves anyhow fields_follow_spawns m.
Proof. intros H r Hr. split; [exact I|]. apply steady_follows, H, Hr. Qed.

(** Starting a child and storing it in its field. *)
Lemma follows_spawn_camera {B} (c : option nat) (k : Popen -> unit -> M B) :
  (forall p u, preserves anyhow fields_follow_spawns (k p u)) ->
  preserves anyhow fields_follow_spawns
    (cp <- popen rpicam_vid c ;; u <- modify (with_camera_process (Some cp)) ;; k cp u).
Proof.
  intros Hk r _. split; [exact I|]. destruct c as [n|]; [|apply follow_refl].
  unfold popen. unfold bind at 1 2. unfold emit at 1, modify at 1, ret at 1.
  cbv beta iota. unfold bind at 1. unfold modify at 1. cbv beta iota.
  eapply follow_trans; [|apply Hk; exact I].
  destruct r. exists [Spawn {| prog := rpicam_vid; pid := n |}]. repeat split.
Qed.

Lemma follows_spawn_ffmpeg {B} (c : option nat) (k : Popen -> unit -> M B) :
  (forall p u, preserves anyhow fields_follow_spawns (k p u)) ->
  preserves anyhow fields_follow_spawns
    (fp <- popen ffmpeg c ;; u <- modify (with_ffmpeg_process (Some fp)) ;; k fp u).
Proof.
  intros Hk r _. split; [exact I|]. destruct c as [n|]; [|apply follow_refl].
  unfold popen. unfold bind at 1 2. unfold emit at 1, modify at 1, ret at 1.
  cbv beta iota. unfold bind at 1. unfold modify at 1. cbv beta iota.
  eapply follow_trans; [|apply Hk; exact I].
  destruct r. exists [Spawn {| prog := ffmpeg; pid := n |}]. repeat split.
Qed.

Lemma follows_guarded_pipeline (i : iter_env) :
  preserves anyhow fields_follow_spawns (guarded_pipeline i).
Proof.
  pose proof follow_refl. pose proof follow_trans.
  unfold guarded_pipeline, pipeline, stream_once.
  apply preserves_try_except; [assumption | |].
  2: { intros. apply follows_steady. unfold on_exception, logger, sleep. keep_steady. }
  apply preserves_bind; [assumption | |].
  2: { intros. apply follows_steady. unfold logger, sleep. keep_steady. }
  apply preserves_bind; [assumption | |].
  { apply follows_steady. unfold Recorder._clean_old_hls_segments, logger. keep_steady. }
  intros _. apply follows_spawn_camera. intros _ _.
  apply follows_spawn_ffmpeg. intros _ _.
  apply follows_steady.
  apply preserves_bind; [apply steady_trans | apply steady_relay_loop | intros].
  unfold process_wait, stdin_close. keep_steady.
Qed.

Lemma follows_loop (passes : list iter_env) :
  preserves anyhow fields_follow_spawns (_camera_streaming_loop passes).
Proof.
  pose proof follow_refl. pose proof follow_trans.
  induction passes as [|i more IH]; cbn [_camera_streaming_loop].
  - apply preserves_block; assumption.
  - destruct (is_disconnected (i_state i)); [apply preserves_ret; assumption|].
    apply preserves_bind; [assumption | apply follows_guarded_pipeline | intros; exact IH].
Qed.

(** *** Whom a stop signals *)

Lemma stop_signals_the_fields (s : stop_env) (r : recorder) :
  exists em,
    trace (fst (stop_camera_streaming s r)) = (trace r ++ em)%list
    /\ forall p, In (Terminate p) em \/ In (Kill p) em ->
                 camera_process r = Some p \/ ffmpeg_process r = Some p.
Proof.
  destruct r as [[cp|] [fp|] [[nm [|] buf]|] rec dir mins files tr];
    destruct s as [[|] [|] [|] part]; stop_cases;
    (eexists; split; [rewrite <- ?app_assoc; reflexivity|]);
    intros p [H|H]; cbn in H; intuition congruence.
Qed.

Lemma no_signal_in (em : list effect) (p : Popen) :
  Forall (fun e => is_signal e = false) em ->
  ~ (In (Terminate p) em \/ In (Kill p) em).
Proof.
  intros Hq. rewrite List.Forall_forall in Hq.
  intros [H|H]; apply Hq in H; discriminate H.
Qed.

End ChildFacts.

Import ChildFacts.

(** X14: the streaming loop never clears the process fields: after any
    number of passes each field holds the child of its program that was
    started last (or what it held before, if none was started).  A shutdown
    after the loop therefore terminates or kills only those two children; a
    child of an earlier pass that the loop did not wait for is never
    signalled. *)
Theorem shutdown_signals_only_the_latest_children
  (passes : list iter_env) (s : stop_env) (r : recorder) :
  let r1 := fst (_camera_streaming_loop passes r) in
  let r2 := fst (on_disconnected s r1) in
  camera_process r1 = last_spawned rpicam_vid (emitted r r1) (camera_process r)
  /\ ffmpeg_process r1 = last_spawned ffmpeg (emitted r r1) (ffmpeg_process r)
  /\ forall p, In (Terminate p) (emitted r r2) \/ In (Kill p) (emitted r r2) ->
               camera_process r1 = Some p \/ ffmpeg_process r1 = Some p.
Proof.
  cbv zeta.
  destruct (follows_loop passes r I) as [_ (em1 & Ht1 & Hc & Hf)].
  destruct (stop_signals_the_fields s (fst (_camera_streaming_loop passes r)))
    as (em2 & Ht2 & Hs).
  assert (Hq : Forall (fun e => is_signal e = false) em1).
  { destruct (streaming_loop_grows (fun e => is_signal e = false)) with
      (passes := passes) (r := r) as [_ (em & Hem & Hq)];
      try (intros; reflexivity); try exact I.
    - intros e He. destruct e; try discriminate He; reflexivity.
    - rewrite Ht1 in Hem. now apply app_inv_head in Hem as <-. }
  unfold on_disconnected, emitted. rewrite Ht2, Ht1, drop_base.
  rewrite <- app_assoc, drop_base.
  repeat split; try assumption.
  intros p Hp. apply Hs.
  destruct Hp as [Hp|Hp]; apply in_app_or in Hp as [Hp|Hp]; auto;
    exfalso; eapply no_signal_in; eauto.
Qed.

(** ** Which staging file a pass promotes *)

Module OwnFacts.

Import Pathlib Datetime Recorder Spec Invariants Bookkeeping Runs PathlibFacts
       RecorderFacts StagingFacts LoopFacts RecordingFacts TraceFacts DeliveryFacts.
Local Open Scope recorder_scope.

Local Abbreviation anyhow := (fun _ : recorder => True).
Local Abbreviation plain := (fun e : effect => is_plain e = true).

Lemma owned_app (a b : list effect) :
  forall c, owned c a -> owned (fold_left own_state a c) b -> owned c (a ++ b).
Proof.
  induction a as [|e a IH]; intros c Ha Hb; [exact Hb|].
  destruct Ha as [He Ha]. split; [exact He|]. now apply IH.
Qed.

Lemma owned_plain (em : list effect) :
  Forall (fun e => is_fs_effect e = false) em -> forall c, owned c em.
Proof.
  induction 1 as [|e em He _ IH]; intros c; [exact I|].
  split; [|apply IH]. destruct e; try exact I; discriminate He.
Qed.

Lemma own_state_plain (em : list effect) (c : option string) :
  Forall (fun e => is_plain e = true) em -> fold_left own_state em c = c.
Proof.
  induction 1 as [|e em He _ IH]; [reflexivity|].
  cbn [fold_left]. destruct e; try discriminate He; exact IH.
Qed.

Lemma plain_no_fs (em : list effect) :
  Forall (fun e => is_plain e = true) em ->
  Forall (fun e => is_fs_effect e = false) em.
Proof.
  intros H. eapply Forall_impl; [exact H|].
  intros e He. destruct e; try reflexivity; discriminate He.
Qed.

Ltac own_leaf :=
  emitted; cbn [owned own_state fold_left agrees current_file_path];
  rewrite ?staging_of_final; cbn [name truediv];
  repeat split; try reflexivity; try assumption;
  try match goal with
      | H : with_suffix _ _ = _ |- _ => rewrite H; reflexivity
      end.

Lemma record_chunk_owned (e : chunk_env) (l : locals) (chunk : bytes)
      (r : recorder) (c : option string) :
  agrees l c ->
  let '(r', o) := record_chunk e l chunk r in
  exists em, trace r' = (trace r ++ em)%list /\ owned c em
    /\ match o with Ok l' => agrees l' (fold_left own_state em c) | _ => True end.
Proof.
  intros Hag.
  destruct r as [cp fp h rec dir mins files tr].
  destruct e as [ch pr tg t1 t2 t3 cok rok ook wr cpart].
  destruct l as [st [p|]]; unfold agrees in Hag; cbn in Hag.
  - destruct (with_suffix p ".tmp") as [[td tn]|] eqn:Ew.
    + cbn in Hag. subst c. mstep. rewrite ?Ew. crack; own_leaf.
    + mstep. rewrite ?Ew. crack; own_leaf.
  - crack; own_leaf.
Qed.


Lemma relay_to_hls_plain (e : chunk_env) :
  preserves anyhow (grows_by plain) (relay_to_hls e).
Proof.
  assert (forall l m, plain (Log l m)) by reflexivity.
  assert (forall p c, plain (StdinWrite p c)) by reflexivity.
  unfold relay_to_hls, stdout_read, stdin_write, logger. grow.
Qed.

Lemma apply_toggles_plain (vs : list bool) :
  preserves anyhow (grows_by plain) (apply_toggles vs).
Proof. apply apply_toggles_grows. reflexivity. Qed.

Lemma relay_chunk_owned (e : chunk_env) (l : locals) (r : recorder)
      (c : option string) :
  agrees l c ->
  let '(r', o) := relay_chunk e l r in
  exists em, trace r' = (trace r ++ em)%list /\ owned c em
    /\ match o with
       | Ok (l', Continue) => agrees l' (fold_left own_state em c)
       | _ => True
       end.
Proof.
  intros Hag. rewrite relay_chunk_unfold.
  destruct (relay_to_hls_plain e r I) as [_ (em1 & Ht1 & Hq1)].
  destruct (relay_to_hls e r) as [r1 [[chunk|]|x|]]; cbn [fst] in *;
    try (exists em1; split; [exact Ht1|];
         split; [apply owned_plain, plain_no_fs, Hq1 | exact I]).
  unfold bind at 1.
  destruct (apply_toggles_plain (e_toggles e) r1 I) as [_ (em2 & Ht2 & Hq2)].
  destruct (apply_toggles (e_toggles e) r1) as [r2 [[]|x|]]; cbn [fst] in *;
    try (exists (em1 ++ em2)%list; split; [rewrite Ht2, Ht1; now rewrite app_assoc|];
         split; [apply owned_plain, plain_no_fs, Forall_app; now split | exact I]).
  unfold bind.
  pose proof (record_chunk_owned e l chunk r2 c Hag) as H.
  destruct (record_chunk e l chunk r2) as [r3 o]. destruct H as (em3 & Ht3 & Ho & Hl).
  assert (Hq : Forall plain (em1 ++ em2)) by (apply Forall_app; now split).
  assert (Hw : exists em, trace r3 = (trace r ++ em)%list /\ owned c em
                          /\ fold_left own_state em c = fold_left own_state em3 c).
  { exists ((em1 ++ em2) ++ em3)%list. split.
    - rewrite Ht3, Ht2, Ht1. now rewrite !app_assoc.
    - split.
      + apply owned_app; [apply owned_plain, plain_no_fs, Hq|].
        now rewrite (own_state_plain _ c Hq).
      + rewrite List.fold_left_app. now rewrite (own_state_plain _ c Hq). }
  destruct Hw as (em & Ht & Hown & Hst).
  destruct o as [l'|x|]; cbn; exists em; (split; [exact Ht|]);
    (split; [exact Hown|]); try exact I.
  now rewrite Hst.
Qed.

Lemma relay_loop_owned (es : list chunk_env) :
  forall (l : locals) (r : recorder) (c : option string),
    agrees l c ->
    exists em, trace (fst (relay_loop es l r)) = (trace r ++ em)%list /\ owned c em.
Proof.
  induction es as [|e es IH]; intros l r c Hag.
  - exists []. cbn. now rewrite app_nil_r.
  - cbn [relay_loop]. unfold bind.
    pose proof (relay_chunk_owned e l r c Hag) as H.
    destruct (relay_chunk e l r) as [r1 [[l' [|]]|x|]];
      destruct H as (em & Ht & Ho & Hl); cbn [fst];
      try (exists em; split; assumption).
    destruct (IH l' r1 _ Hl) as (em' & Ht' & Ho').
    exists (em ++ em')%list. split.
    + rewrite Ht', Ht. now rewrite app_assoc.
    + now apply owned_app.
Qed.

(** *** From the relay loop to the whole streaming loop *)

Lemma own_refl (r : recorder) : promotes_own r r.
Proof. exists []. rewrite app_nil_r. split; [reflexivity | intros c; exact I]. Qed.

Lemma own_trans (a b c : recorder) :
  promotes_own a b -> promotes_own b c -> promotes_own a c.
Proof.
  intros (em1 & Ht1 & H1) (em2 & Ht2 & H2). exists (em1 ++ em2)%list. split.
  - rewrite Ht2, Ht1. now rewrite app_assoc.
  - intros x. apply owned_app; [apply H1 | apply H2].
Qed.

Lemma own_quiet {A} (m : M A) : quiet m -> preserves anyhow promotes_own m.
Proof.
  intros Hq r _. split; [exact I|].
  destruct (Hq r) as (_ & _ & em & Ht & Hf).
  exists em. split; [exact Ht | now apply owned_plain].
Qed.

Lemma own_relay_loop (es : list chunk_env) :
  preserves anyhow promotes_own (relay_loop es no_locals).
Proof.
  intros r _. split; [exact I|].
  assert (Hs : forall c, exists em,
             trace (fst (relay_loop es no_locals r)) = (trace r ++ em)%list
             /\ owned c em)
    by (intros c; now apply relay_loop_owned).
  destruct (Hs None) as (em & Ht & _). exists em. split; [exact Ht|].
  intros c. destruct (Hs c) as (em' & Ht' & Ho).
  rewrite Ht in Ht'. now apply app_inv_head in Ht' as <-.
Qed.

Ltac hush :=
  apply own_quiet;
  unfold Recorder._clean_old_hls_segments, popen, process_wait, stdin_close,
    on_exception, logger, sleep;
  quiet_tac.

Lemma own_guarded_pipeline (i : iter_env) :
  preserves anyhow promotes_own (guarded_pipeline i).
Proof.
  pose proof own_refl. pose proof own_trans.
  unfold guarded_pipeline, pipeline, stream_once.
  apply preserves_try_except; [assumption | | intros; hush].
  apply preserves_bind; [assumption | | intros; hush].
  do 5 (apply preserves_bind; [assumption | hush | intros]).
  apply preserves_bind; [assumption | apply own_relay_loop | intros].
  hush.
Qed.

Lemma own_loop (passes : list iter_env) :
  preserves anyhow promotes_own (_camera_streaming_loop passes).
Proof.
  pose proof own_refl. pose proof own_trans.
  induction passes as [|i more IH]; cbn [_camera_streaming_loop].
  - apply preserves_block; assumption.
  - destruct (is_disconnected (i_state i)); [apply preserves_ret; assumption|].
    apply preserves_bind; [assumption | apply own_guarded_pipeline | intros; exact IH].
Qed.

Lemma owned_rename_was_opened (em : list effect) (s d : string) :
  forall c, owned c em -> In (FsRename s d) em -> c = Some s \/ In (FsOpen s) em.
Proof.
  induction em as [|e em IH]; intros c Ho Hin; [destruct Hin|].
  destruct Ho as [He Ho]. destruct Hin as [->|Hin].
  - now left.
  - destruct (IH _ Ho Hin) as [Hc|Hc]; [|right; now right].
    destruct e; cbn in Hc; try (now left); try discriminate Hc.
    injection Hc as ->. right. now left.
Qed.

End OwnFacts.

Import OwnFacts.

(** X15: every rename the streaming loop performs takes the staging file
    that the same pipeline pass opened, after its children were started and
    after its previous rename.  A segment that is still open when a pass
    ends is therefore never promoted: the next pass starts with no segment
    path, closes the handle it finds and renames nothing.  In particular
    every renamed staging file was opened during the run. *)
Theorem a_pass_promotes_only_its_own_segment (passes : list iter_env) (r : recorder) :
  let r' := fst (_camera_streaming_loop passes r) in
  owned None (emitted r r')
  /\ forall s d, In (FsRename s d) (emitted r r') -> In (FsOpen s) (emitted r r').
Proof.
  cbv zeta. destruct (own_loop passes r I) as [_ (em & Ht & Ho)].
  unfold emitted. rewrite Ht, drop_base. split; [apply Ho|].
  intros s d Hin.
  destruct (owned_rename_was_opened em s d None (Ho None) Hin) as [H|H];
    [discriminate H | exact H].
Qed.

(** ** How a pass starts its pipeline *)

Module StartupFacts.

Import Pathlib Datetime Recorder Spec Invariants Bookkeeping Runs PathlibFacts
       RecorderFacts StagingFacts LoopFacts RecordingFacts TraceFacts.
Local Open Scope recorder_scope.

Local Abbreviation anyhow := (fun _ : recorder => True).
Local Abbreviation later := (fun e : effect => is_startup e = false).

Lemma starts_refl (r : recorder) : starts [] r r.
Proof. exists []. now rewrite app_nil_r. Qed.

Lemma starts_trans (X Y : list effect) (a b c : recorder) :
  starts X a b -> starts Y b c -> starts (X ++ Y) a c.
Proof.
  intros (em1 & Ht1 & H1) (em2 & Ht2 & H2). exists (em1 ++ em2)%list. split.
  - rewrite Ht2, Ht1. now rewrite app_assoc.
  - now rewrite List.filter_app, H1, H2.
Qed.

Lemma starts_later (r r' : recorder) : grows_by later r r' -> starts [] r r'.
Proof.
  intros (em & Ht & Hq). exists em. split; [exact Ht|].
  clear Ht. induction Hq as [|e em He _ IH]; [reflexivity|].
  cbn [List.filter]. rewrite He. exact IH.
Qed.

(** A first part that returns, followed by anything. *)
Lemma starts_bind_ok {A B} (X Y : list effect) (m : M A) (k : A -> M B) (r : recorder) :
  (exists r1 a, m r = (r1, Ok a) /\ starts X r r1 /\ starts Y r1 (fst (k a r1))) ->
  starts (X ++ Y) r (fst (bind m k r)).
Proof.
  intros (r1 & a & Hm & H1 & H2). unfold bind. rewrite Hm.
  eapply starts_trans; eassumption.
Qed.

(** A first part followed by a part without start-up effects. *)
Lemma starts_bind_later {A B} (X : list effect) (m : M A) (k : A -> M B) (r : recorder) :
  starts X r (fst (m r)) ->
  (forall a, preserves anyhow (grows_by later) (k a)) ->
  starts X r (fst (bind m k r)).
Proof.
  intros H1 Hk. unfold bind.
  destruct (m r) as [r1 [a|x|]]; cbn [fst] in *; try exact H1.
  rewrite <- (app_nil_r X). eapply starts_trans; [exact H1|].
  apply starts_later, Hk. exact I.
Qed.

Lemma starts_try_later {A} (X : list effect) (m : M A) (c : exn -> bool)
      (h : exn -> M A) (r : recorder) :
  starts X r (fst (m r)) ->
  (forall x, preserves anyhow (grows_by later) (h x)) ->
  starts X r (fst (try_except m c h r)).
Proof.
  intros H1 Hh. unfold try_except.
  destruct (m r) as [r1 [a|x|]]; cbn [fst] in *; try exact H1.
  destruct (c x); cbn [fst]; [|exact H1].
  rewrite <- (app_nil_r X). eapply starts_trans; [exact H1|].
  apply starts_later, Hh. exact I.
Qed.

Lemma later_fs (e : effect) : is_fs_effect e = true -> later e.
Proof. destruct e; intros H; try discriminate H; reflexivity. Qed.

(** Everything after the two starts. *)
Lemma after_the_starts (i : iter_env) :
  preserves anyhow (grows_by later)
    (relay_loop (i_chunks i)
       {| current_segment_start := None; current_file_path := None |} ;;
     returncode <- process_wait camera_process (i_camera_exit i) ;;
     stdin_close (i_stdin_close_ok i) ;;
     process_wait ffmpeg_process (i_ffmpeg_exit i) ;;
     ret returncode).
Proof.
  pose proof (grows_refl later). pose proof (grows_trans later).
  apply preserves_bind; [assumption | | intros].
  - apply relay_loop_grows; try (intros; reflexivity). apply later_fs.
  - unfold process_wait, stdin_close.
    assert (forall p, later (Wait p)) by reflexivity.
    assert (forall p, later (StdinClose p)) by reflexivity.
    grow.
Qed.

Lemma clean_starts (ok : bool) (text : string) (r : recorder) :
  exists r1, Recorder._clean_old_hls_segments ok text r = (r1, Ok tt)
             /\ starts [HlsClean ok] r r1.
Proof.
  destruct r as [cp fp h rec dir mins files tr]. destruct ok; cbn.
  - eexists. split; [reflexivity|]. now exists [HlsClean true].
  - eexists. split; [reflexivity|].
    exists [HlsClean false;
            Log WARNING ("Failed to clean old HLS segments: " +:+ text)].
    cbn. now rewrite <- app_assoc.
Qed.

Lemma stream_once_starts (i : iter_env) (r : recorder) :
  starts (starts_of i) r (fst (stream_once i r)).
Proof.
  unfold stream_once, starts_of.
  destruct (clean_starts (i_clean_ok i) (i_clean_text i) r) as (r1 & Hc & Hs).
  change (HlsClean (i_clean_ok i) :: ?t) with ([HlsClean (i_clean_ok i)] ++ t)%list.
  apply starts_bind_ok. exists r1, tt. split; [exact Hc|]. split; [exact Hs|].
  clear Hc Hs r. destruct (i_camera i) as [n|]; [|apply starts_refl].
  unfold popen at 1. unfold bind at 1 2. unfold emit at 1, modify at 1, ret at 1.
  cbv beta iota. unfold bind at 1. unfold modify at 1. cbv beta iota.
  change (Spawn ?p :: ?t) with ([Spawn p] ++ t)%list.
  lazymatch goal with
  | |- starts _ _ (fst (_ ?st)) => apply (starts_trans _ _ r1 st)
  end.
  { destruct r1. now exists [Spawn {| prog := rpicam_vid; pid := n |}]. }
  set (r2 := with_camera_process _ _). clearbody r2. clear r1.
  destruct (i_ffmpeg i) as [m|]; [|apply starts_refl].
  unfold popen at 1. unfold bind at 1 2. unfold emit at 1, modify at 1, ret at 1.
  cbv beta iota. unfold bind at 1. unfold modify at 1. cbv beta iota.
  rewrite <- (app_nil_r [Spawn _]).
  lazymatch goal with
  | |- starts _ _ (fst (_ ?st)) => apply (starts_trans _ _ r2 st)
  end.
  { destruct r2. now exists [Spawn {| prog := ffmpeg; pid := m |}]. }
  apply starts_later, after_the_starts. exact I.
Qed.

Lemma guarded_pipeline_starts (i : iter_env) (r : recorder) :
  starts (starts_of i) r (fst (guarded_pipeline i r)).
Proof.
  pose proof (grows_refl later). pose proof (grows_trans later).
  unfold guarded_pipeline, pipeline.
  apply starts_try_later.
  - apply starts_bind_later; [apply stream_once_starts|].
    intros rc. unfold logger, sleep.
    assert (forall l m, later (Log l m)) by reflexivity.
    assert (forall n, later (Sleep n)) by reflexivity.
    grow.
  - intros x. unfold on_exception, logger, sleep.
    assert (forall l m, later (Log l m)) by reflexivity.
    assert (forall n, later (Sleep n)) by reflexivity.
    grow.
Qed.

Lemma loop_starts (passes : list iter_env) :
  forall r, exists k,
    starts (flat_map starts_of (take k passes)) r
      (fst (_camera_streaming_loop passes r)).
Proof.
  induction passes as [|i more IH]; intros r; cbn [_camera_streaming_loop].
  - exists 0. apply starts_refl.
  - destruct (is_disconnected (i_state i)); [exists 0; apply starts_refl|].
    unfold bind. pose proof (guarded_pipeline_starts i r) as Hp.
    destruct (guarded_pipeline i r) as [r1 [[]|x|]]; cbn [fst] in *.
    + destruct (IH r1) as (k & Hk). exists (S k). cbn [take flat_map].
      eapply starts_trans; eassumption.
    + exists 1. cbn. now rewrite take_0, app_nil_r.
    + exists 1. cbn. now rewrite take_0, app_nil_r.
Qed.

End StartupFacts.

Import StartupFacts.

(** X16: the start-up effects of the streaming loop are those of its first
    [k] passes, pass after pass: each pass cleans the HLS directory once,
    then starts the capture child, then the transcode child, and stops at
    the first start that fails.  No transcode child is started without a
    capture child started just before it, and nothing else in a pass cleans
    or starts anything. *)
Theorem each_pass_cleans_then_starts_camera_then_ffmpeg
  (passes : list iter_env) (r : recorder) :
  let r' := fst (_camera_streaming_loop passes r) in
  exists k,
    List.filter is_startup (emitted r r') = flat_map starts_of (take k passes).
Proof.
  cbv zeta. destruct (loop_starts passes r) as (k & em & Ht & Hf).
  exists k. unfold emitted. now rewrite Ht, drop_base.
Qed.

(** ** Which exceptions a pass can end with *)

Module SafetyFacts.

Import Pathlib Datetime Recorder Spec Invariants Bookkeeping Runs PathlibFacts
       RecorderFacts StagingFacts LoopFacts RecordingFacts TraceFacts ChildFacts.
Local Open Scope recorder_scope.

Ltac safe_leaf :=
  unfold in_segment; cbn;
  repeat split; try reflexivity; try exact I; eauto.

Lemma record_chunk_safe (e : chunk_env) (l : locals) (chunk : bytes) (r : recorder) :
  in_segment l r ->
  let '(r', o) := record_chunk e l chunk r in
  os_error_only o
  /\ match o with
     | Ok l' => in_segment l' r'
     | Raise _ => True
     | Pending => False
     end.
Proof.
  intros H.
  destruct r as [cp fp h rec dir mins files tr].
  destruct e as [ch pr tg t1 t2 t3 cok rok ook wr cpart].
  destruct l as [[st|] [p|]]; unfold in_segment in H; cbn in H; try contradiction.
  - destruct H as ((d & ts & ->) & n & ->). crack; safe_leaf.
  - clear H. destruct h as [[nm cl buf]|]; crack; safe_leaf.
Qed.


Lemma in_segment_quiet (l : locals) (r r' : recorder) :
  quiet_step r r' -> in_segment l r -> in_segment l r'.
Proof.
  intros (_ & Hh & _). unfold in_segment.
  destruct (current_segment_start l), (current_file_path l); try exact id.
  now rewrite Hh.
Qed.

(** With both children in their fields the first half of a pass returns. *)
Lemma relay_to_hls_returns (e : chunk_env) (r : recorder) (cp fp : Popen) :
  camera_process r = Some cp -> ffmpeg_process r = Some fp ->
  exists r1 sent, relay_to_hls e r = (r1, Ok sent).
Proof.
  intros Hc Hf.
  unfold relay_to_hls, stdout_read, stdin_write, try_except, bind, gets, ret,
    raise, logger, emit, modify.
  rewrite Hc. destruct (e_chunk e) as [|c cs]; [eauto|].
  rewrite Hf. destruct (e_pipe e); cbn; eauto.
Qed.

Lemma relay_chunk_safe (e : chunk_env) (l : locals) (r : recorder) (cp fp : Popen) :
  camera_process r = Some cp -> ffmpeg_process r = Some fp -> in_segment l r ->
  let '(r', o) := relay_chunk e l r in
  camera_process r' = Some cp /\ ffmpeg_process r' = Some fp
  /\ os_error_only o
  /\ match o with
     | Ok (l', _) => in_segment l' r'
     | Raise _ => True
     | Pending => False
     end.
Proof.
  intros Hc Hf Hs.
  destruct (steady_relay_chunk e l r I) as [_ (Hc' & Hf' & _)].
  rewrite Hc in Hc'. rewrite Hf in Hf'.
  unfold relay_chunk, bind in *.
  destruct (relay_to_hls_returns e r cp fp Hc Hf) as (r1 & sent & E1).
  pose proof (quiet_relay_to_hls e r) as Hq1. rewrite E1 in *. cbn [fst] in Hq1.
  apply (in_segment_quiet l) in Hq1; [|exact Hs].
  destruct sent as [chunk|]; [|cbn in *; auto].
  destruct (apply_toggles_spec (e_toggles e) r1) as (r2 & E2 & Hq2 & _).
  rewrite E2 in *. apply (in_segment_quiet l) in Hq2; [|exact Hq1].
  pose proof (record_chunk_safe e l chunk r2 Hq2) as H3.
  destruct (record_chunk e l chunk r2) as [r3 [l'|x|]]; cbn in *;
    destruct H3 as [Ho Hl]; auto.
Qed.

Lemma relay_loop_safe (es : list chunk_env) :
  forall (l : locals) (r : recorder) (cp fp : Popen),
    camera_process r = Some cp -> ffmpeg_process r = Some fp -> in_segment l r ->
    let '(r', o) := relay_loop es l r in
    camera_process r' = Some cp /\ ffmpeg_process r' = Some fp /\ os_error_only o.
Proof.
  induction es as [|e es IH]; intros l r cp fp Hc Hf Hs.
  - cbn. auto.
  - cbn [relay_loop]. unfold bind.
    pose proof (relay_chunk_safe e l r cp fp Hc Hf Hs) as H.
    destruct (relay_chunk e l r) as [r1 [[l' [|]]|x|]];
      destruct H as (Hc1 & Hf1 & Ho & Hl); cbn; auto.
    now apply IH.
Qed.

(** The waits and the close after the relay loop. *)
Lemma waits_safe (i : iter_env) (r : recorder) (cp fp : Popen) :
  camera_process r = Some cp -> ffmpeg_process r = Some fp ->
  os_error_only
    (snd ((returncode <- process_wait camera_process (i_camera_exit i) ;;
           stdin_close (i_stdin_close_ok i) ;;
           process_wait ffmpeg_process (i_ffmpeg_exit i) ;;
           ret returncode) r)).
Proof.
  intros Hc Hf. destruct r as [c f h rec dir mins files tr]. cbn in Hc, Hf. subst c f.
  destruct (i_camera_exit i), (i_stdin_close_ok i), (i_ffmpeg_exit i);
    vm_compute; try exact I; reflexivity.
Qed.

Lemma stream_once_safe (i : iter_env) (r : recorder) :
  os_error_only (snd (stream_once i r)).
Proof.
  unfold stream_once.
  assert (Hclean : exists r1,
             Recorder._clean_old_hls_segments (i_clean_ok i) (i_clean_text i) r
             = (r1, Ok tt)).
  { destruct r. destruct (i_clean_ok i); cbn; eauto. }
  destruct Hclean as (r1 & Hc). unfold bind at 1. rewrite Hc. clear Hc r.
  destruct (i_camera i) as [n|]; [|reflexivity].
  unfold popen at 1. unfold bind at 1 2. unfold emit at 1, modify at 1, ret at 1.
  cbv beta iota. unfold bind at 1. unfold modify at 1. cbv beta iota.
  set (r2 := with_camera_process _ _).
  assert (H2 : camera_process r2 = Some {| prog := rpicam_vid; pid := n |})
    by (destruct r1; reflexivity).
  clearbody r2. clear r1.
  destruct (i_ffmpeg i) as [m|]; [|reflexivity].
  unfold popen at 1. unfold bind at 1 2. unfold emit at 1, modify at 1, ret at 1.
  cbv beta iota. unfold bind at 1. unfold modify at 1. cbv beta iota.
  set (r3 := with_ffmpeg_process _ _).
  assert (H3 : camera_process r3 = Some {| prog := rpicam_vid; pid := n |}
               /\ ffmpeg_process r3 = Some {| prog := ffmpeg; pid := m |})
    by (destruct r2; cbn in *; split; [exact H2 | reflexivity]).
  clearbody r3. clear r2 H2. destruct H3 as [Hc Hf].
  unfold bind at 1.
  pose proof (relay_loop_safe (i_chunks i)
                {| current_segment_start := None; current_file_path := None |}
                r3 _ _ Hc Hf I) as H.
  destruct (relay_loop (i_chunks i) _ r3) as [r4 [[]|x|]];
    destruct H as (Hc4 & Hf4 & Ho); try exact Ho.
  now apply (waits_safe i r4 _ _ Hc4 Hf4).
Qed.

End SafetyFacts.

Import SafetyFacts.

(** X17: as long as no other thread stops the children, a pass of the outer
    loop can only end with an exception of the operating system ([OSError]
    or [BrokenPipeError]): it never reads from, writes to or waits for a
    child that is not there, never writes to a closed segment file, and
    never builds a malformed staging path.  When the pipeline part of a
    pass raises, the handler logs the line [Error in camera streaming loop: ]
    followed by the text of the exception ([str(e)], whatever it is) and
    sleeps 5 seconds, and the exception is one of those two. *)
Theorem a_pass_fails_only_with_os_errors (i : iter_env) (r : recorder) :
  os_error_only (snd (pipeline i r))
  /\ forall x, snd (stream_once i r) = Raise x ->
       fst (guarded_pipeline i r)
       = with_trace
           (trace (fst (stream_once i r))
            ++ [Log ERROR ("Error in camera streaming loop: " +:+ i_exn_text i x);
                Sleep 5])%list
           (fst (stream_once i r))
       /\ (x = OSError \/ x = BrokenPipeError).
Proof.
  pose proof (stream_once_safe i r) as H.
  unfold guarded_pipeline, try_except, pipeline, bind.
  destruct (stream_once i r) as [r1 [rc|x|]]; cbn [fst snd] in *.
  - split; [|intros x Hx; discriminate Hx].
    destruct (negb (rc =? 0)%Z && negb (is_disconnected (i_state_end i))); exact I.
  - split; [exact H|]. intros y Hy. injection Hy as <-.
    split; [destruct r1; cbn; now rewrite <- app_assoc|].
    destruct x; try discriminate H; auto.
  - split; [exact I | intros x Hx; discriminate Hx].
Qed.

(** ** What a completed pass has done with its children *)

Module ReapFacts.

Import Pathlib Datetime Recorder Spec Invariants Bookkeeping Runs PathlibFacts
       RecorderFacts StagingFacts LoopFacts RecordingFacts TraceFacts ChildFacts.
Local Open Scope recorder_scope.

Local Abbreviation aside := (fun e : effect => is_process_effect e = false).

Lemma aside_fs (e : effect) : is_fs_effect e = true -> aside e.
Proof. destruct e; intros H; try discriminate H; reflexivity. Qed.

Lemma process_effects_app (a b : list effect) :
  process_effects (a ++ b) = (process_effects a ++ process_effects b)%list.
Proof. apply List.filter_app. Qed.

Lemma process_effects_aside (em : list effect) :
  Forall aside em -> process_effects em = [].
Proof.
  induction 1 as [|e em He _ IH]; [reflexivity|].
  unfold process_effects. cbn [List.filter]. rewrite He. exact IH.
Qed.

Lemma Popen_eqb_refl (p : Popen) : Popen_eqb p p = true.
Proof.
  unfold Popen_eqb. rewrite Nat.eqb_refl. now destruct (prog p).
Qed.

Lemma reaped_app (p : Popen) (a b : list effect) :
  reaped p (a ++ b) = reaped p a || reaped p b.
Proof. apply existsb_app. Qed.

(** The waits and the close after the relay loop, when they all return. *)
Lemma waits_return (i : iter_env) (r r' : recorder) (cp fp : Popen) (rc : Z) :
  camera_process r = Some cp -> ffmpeg_process r = Some fp ->
  (returncode <- process_wait camera_process (i_camera_exit i) ;;
   stdin_close (i_stdin_close_ok i) ;;
   process_wait ffmpeg_process (i_ffmpeg_exit i) ;;
   ret returncode) r = (r', Ok rc) ->
  i_camera_exit i = Some rc
  /\ trace r' = (trace r ++ [Wait cp; StdinClose fp; Wait fp])%list.
Proof.
  intros Hc Hf. destruct r as [c f h rec dir mins files tr]. cbn in Hc, Hf. subst c f.
  destruct (i_camera_exit i) as [z|], (i_stdin_close_ok i), (i_ffmpeg_exit i) as [z'|];
    cbn; intros H; try discriminate H.
  injection H as <- ->. split; [reflexivity|]. cbn. now rewrite <- !app_assoc.
Qed.

Lemma stream_once_shape (i : iter_env) (r r' : recorder) (rc : Z) :
  stream_once i r = (r', Ok rc) ->
  exists n m pre mid,
    i_camera i = Some n /\ i_ffmpeg i = Some m /\ i_camera_exit i = Some rc
    /\ trace r'
       = (trace r ++ pre
          ++ [Spawn {| prog := rpicam_vid; pid := n |};
              Spawn {| prog := ffmpeg; pid := m |}]
          ++ mid
          ++ [Wait {| prog := rpicam_vid; pid := n |};
              StdinClose {| prog := ffmpeg; pid := m |};
              Wait {| prog := ffmpeg; pid := m |}])%list
    /\ Forall aside pre /\ Forall aside mid.
Proof.
  unfold stream_once.
  assert (Hclean : exists r1 pre,
             Recorder._clean_old_hls_segments (i_clean_ok i) (i_clean_text i) r
             = (r1, Ok tt)
             /\ trace r1 = (trace r ++ pre)%list /\ Forall aside pre).
  { destruct r. destruct (i_clean_ok i); cbn.
    - eexists _, [_]. repeat split. now constructor.
    - eexists _, [HlsClean false;
                  Log WARNING ("Failed to clean old HLS segments: "
                               +:+ i_clean_text i)].
      split; [reflexivity|]. split; [cbn; now rewrite <- app_assoc|].
      repeat constructor. }
  destruct Hclean as (r1 & pre & Hc & Ht1 & Hpre). unfold bind at 1. rewrite Hc.
  destruct (i_camera i) as [n|]; [|intros H; discriminate H].
  unfold popen at 1. unfold bind at 1 2. unfold emit at 1, modify at 1, ret at 1.
  cbv beta iota. unfold bind at 1. unfold modify at 1. cbv beta iota.
  set (r2 := with_camera_process _ _).
  assert (H2 : camera_process r2 = Some {| prog := rpicam_vid; pid := n |}
               /\ trace r2 = (trace r1 ++ [Spawn {| prog := rpicam_vid; pid := n |}])%list)
    by (destruct r1; split; reflexivity).
  clearbody r2. destruct H2 as [Hc2 Ht2].
  destruct (i_ffmpeg i) as [m|]; [|intros H; discriminate H].
  unfold popen at 1. unfold bind at 1 2. unfold emit at 1, modify at 1, ret at 1.
  cbv beta iota. unfold bind at 1. unfold modify at 1. cbv beta iota.
  set (r3 := with_ffmpeg_process _ _).
  assert (H3 : camera_process r3 = Some {| prog := rpicam_vid; pid := n |}
               /\ ffmpeg_process r3 = Some {| prog := ffmpeg; pid := m |}
               /\ trace r3 = (trace r2 ++ [Spawn {| prog := ffmpeg; pid := m |}])%list)
    by (destruct r2; cbn in *; repeat split; assumption || reflexivity).
  clearbody r3. destruct H3 as (Hc3 & Hf3 & Ht3).
  unfold bind at 1.
  destruct (steady_relay_loop (i_chunks i)
              {| current_segment_start := None; current_file_path := None |} r3 I)
    as [_ (Hc4 & Hf4 & _)].
  destruct (relay_loop_grows aside aside_fs
              ltac:(reflexivity) ltac:(reflexivity) (i_chunks i)
              {| current_segment_start := None; current_file_path := None |} r3 I)
    as [_ (mid & Ht4 & Hmid)].
  destruct (relay_loop (i_chunks i) _ r3) as [r4 [[]|x|]]; cbn [fst snd] in *;
    try (intros H; discriminate H).
  intros H. rewrite Hc3 in Hc4. rewrite Hf3 in Hf4.
  destruct (waits_return i r4 r' _ _ rc Hc4 Hf4 H) as [Hrc Ht5].
  exists n, m, pre, mid. repeat split; try assumption.
  rewrite Ht5, Ht4, Ht3, Ht2, Ht1. now rewrite <- !app_assoc.
Qed.

End ReapFacts.

Import ReapFacts.

(** X18: a pass whose pipeline part returns has started both children and
    waited for both: the process operations of the pass are exactly start
    capture, start transcode, wait for capture, wait for transcode, in that
    order (the transcode child's standard input is closed between the two
    waits), so neither child is left unreaped, and the value returned is the
    capture child's exit status. *)
Theorem completed_pass_reaps_both_children (i : iter_env) (r : recorder) (rc : Z) :
  snd (stream_once i r) = Ok rc ->
  let r' := fst (stream_once i r) in
  exists n m,
    let cam := {| prog := rpicam_vid; pid := n |} in
    let ff := {| prog := ffmpeg; pid := m |} in
    i_camera i = Some n /\ i_ffmpeg i = Some m /\ i_camera_exit i = Some rc
    /\ process_effects (emitted r r') = [Spawn cam; Spawn ff; Wait cam; Wait ff]
    /\ reaped cam (emitted r r') = true
    /\ reaped ff (emitted r r') = true.
Proof.
  intros H. cbv zeta.
  destruct (stream_once i r) as [r' o] eqn:E. cbn [fst snd] in *. subst o.
  destruct (stream_once_shape i r r' rc E) as (n & m & pre & mid & Hn & Hm & Hrc & Ht & Hp & Hq).
  exists n, m. unfold emitted. rewrite Ht, drop_base.
  repeat split; try assumption.
  - rewrite !process_effects_app, (process_effects_aside pre Hp),
      (process_effects_aside mid Hq). reflexivity.
  - rewrite !reaped_app. cbn. rewrite Nat.eqb_refl, !orb_true_r. reflexivity.
  - rewrite !reaped_app. cbn. rewrite Nat.eqb_refl, !orb_true_r. reflexivity.
Qed.

Lemma completed_pass_reaps_both_children_witness :
  exists n m,
    i_camera (healthy [smooth chunk_a nine_thirty; smooth [] nine_thirty_five]) = Some n
    /\ i_ffmpeg (healthy [smooth chunk_a nine_thirty; smooth [] nine_thirty_five]) = Some m.
Proof.
  destruct (completed_pass_reaps_both_children
              (healthy [smooth chunk_a nine_thirty; smooth [] nine_thirty_five])
              (fresh false) 0%Z ltac:(vm_compute; reflexivity))
    as (n & m & Hn & Hm & _).
  exists n, m. split; assumption.
Defined.

(** * Failures, names and kept chunks *)

Import Bookkeeping Runs Passes MoreScenarios.




(** ** A pass whose archive write fails *)

Module FailureFacts.

Import Pathlib Datetime Recorder Spec Invariants Bookkeeping Runs Passes
       PathlibFacts RecorderFacts StagingFacts LoopFacts RecordingFacts TraceFacts
       DeliveryFacts ChildFacts SafetyFacts StartupFacts.
Local Open Scope recorder_scope.

(** A rename is only tried on a file that is there. *)
Ltac there :=
  try (exfalso;
       match goal with
       | H : bool_decide (is_Some None) = true |- _ => discriminate H
       | H : segment_due _ {| current_segment_start := None;
                              current_file_path := _ |} _ = false |- _ =>
           discriminate H
       | H1 : bool_decide (is_Some ?x) = true, H2 : ?x = None |- _ =>
           rewrite H2 in H1; discriminate H1
       end).

Lemma record_chunk_returns (e : chunk_env) (l : locals) (chunk : bytes) (r : recorder) :
  in_segment l r ->
  e_close_ok e = true -> e_rename_ok e = true -> e_open_ok e = true ->
  e_write e = Written ->
  exists l', snd (record_chunk e l chunk r) = Ok l'.
Proof.
  intros H Hc Hr Ho Hw.
  destruct r as [cp fp h rec dir mins files tr].
  destruct e as [ch pr tg t1 t2 t3 cok rok ook wr cpart].
  cbn in Hc, Hr, Ho, Hw. subst cok rok ook wr.
  destruct l as [[st|] [p|]]; unfold in_segment in H; cbn in H; try contradiction.
  - destruct H as ((d & ts & ->) & n & ->). crack; there; eexists; reflexivity.
  - clear H. destruct h as [[nm cl buf]|]; crack; there; eexists; reflexivity.
Qed.

Lemma record_chunk_write_fails (e : chunk_env) (l : locals) (chunk : bytes)
      (r : recorder) (k m : nat) :
  in_segment l r -> is_recording r = true ->
  e_close_ok e = true -> e_rename_ok e = true -> e_open_ok e = true ->
  e_write e = Failed k m ->
  snd (record_chunk e l chunk r) = Raise OSError.
Proof.
  intros H Hrec Hc Hr Ho Hw.
  destruct r as [cp fp h rec dir mins files tr].
  destruct e as [ch pr tg t1 t2 t3 cok rok ook wr cpart].
  cbn in Hrec, Hc, Hr, Ho, Hw. subst rec cok rok ook wr.
  destruct l as [[st|] [p|]]; unfold in_segment in H; cbn in H; try contradiction.
  - destruct H as ((d & ts & ->) & n & ->). crack; there; reflexivity.
  - clear H. destruct h as [[nm cl buf]|]; crack; there; reflexivity.
Qed.

Local Abbreviation not_to_ffmpeg := (fun e : effect => is_stdin_write e = false).

(** A pass that hands its chunk to ffmpeg, up to the archive half. *)
Lemma relay_chunk_delivered (e : chunk_env) (l : locals) (r : recorder) (cp fp : Popen) :
  camera_process r = Some cp -> ffmpeg_process r = Some fp ->
  e_chunk e <> [] -> e_pipe e = Delivered ->
  exists r2,
    relay_chunk e l r
    = (let '(r3, o) := record_chunk e l (e_chunk e) r2 in
       (r3, match o with
            | Ok l' => Ok (l', Continue)
            | Raise x => Raise x
            | Pending => Pending
            end))
    /\ camera_process r2 = Some cp /\ ffmpeg_process r2 = Some fp
    /\ is_recording r2 = List.last (e_toggles e) (is_recording r)
    /\ (in_segment l r -> in_segment l r2)
    /\ exists em, trace r2 = (trace r ++ em)%list
                  /\ delivered_chunks em = [e_chunk e].
Proof.
  intros Hc Hf He Hp.
  rewrite relay_chunk_unfold, (relay_to_hls_faultless e r cp fp Hc Hf Hp).
  destruct (e_chunk e) as [|c cs] eqn:E; [congruence|]. cbv beta iota.
  set (r1 := with_trace _ r).
  assert (H1 : camera_process r1 = Some cp /\ ffmpeg_process r1 = Some fp
               /\ is_recording r1 = is_recording r
               /\ trace r1 = (trace r ++ [StdinWrite fp (c :: cs)])%list
               /\ quiet_step r r1).
  { subst r1. destruct r. cbn in *. repeat split; try assumption.
    exists [StdinWrite fp (c :: cs)]. split; [reflexivity | now constructor]. }
  clearbody r1. destruct H1 as (Hc1 & Hf1 & Hr1 & Ht1 & Hq1).
  destruct (apply_toggles_spec (e_toggles e) r1) as (r2 & E2 & Hq2 & Hc2 & Hf2 & Hr2).
  destruct (apply_toggles_grows not_to_ffmpeg ltac:(reflexivity) (e_toggles e) r1 I)
    as [_ (em2 & Ht2 & Hn2)].
  rewrite E2 in Ht2. cbn [fst] in Ht2.
  exists r2. unfold bind at 1. rewrite E2. unfold bind.
  split; [destruct (record_chunk e l (c :: cs) r2) as [r3 [l'|x|]]; reflexivity|].
  split; [congruence|]. split; [congruence|]. split; [congruence|].
  split; [intros Hs; eapply in_segment_quiet; [exact Hq2|];
          eapply in_segment_quiet; eassumption|].
  exists ([StdinWrite fp (c :: cs)] ++ em2)%list. split.
  - rewrite Ht2, Ht1. now rewrite <- app_assoc.
  - rewrite delivered_app, (delivered_none em2 Hn2). reflexivity.
Qed.

(** What the archive half leaves alone. *)
Lemma record_chunk_keeps (e : chunk_env) (l : locals) (chunk : bytes) (r : recorder) :
  let r' := fst (record_chunk e l chunk r) in
  camera_process r' = camera_process r /\ ffmpeg_process r' = ffmpeg_process r
  /\ is_recording r' = is_recording r
  /\ exists em, trace r' = (trace r ++ em)%list /\ delivered_chunks em = [].
Proof.
  cbv zeta.
  pose proof (record_chunk_stable e l chunk r) as Hs.
  destruct (record_chunk_grows not_to_ffmpeg not_to_ffmpeg_fs not_to_ffmpeg_log
              e l chunk r I) as [_ (em & Ht & Hn)].
  destruct (record_chunk e l chunk r) as [r' o]. cbn [fst] in *.
  destruct Hs as (Hc & Hf & Hr & _).
  repeat split; try assumption.
  exists em. split; [exact Ht | now apply delivered_none].
Qed.

Lemma relay_chunk_uneventful (e : chunk_env) (l : locals) (r : recorder) (cp fp : Popen) :
  camera_process r = Some cp -> ffmpeg_process r = Some fp -> in_segment l r ->
  uneventful e ->
  exists r' l',
    relay_chunk e l r = (r', Ok (l', Continue))
    /\ camera_process r' = Some cp /\ ffmpeg_process r' = Some fp
    /\ in_segment l' r'
    /\ is_recording r' = List.last (e_toggles e) (is_recording r)
    /\ exists em, trace r' = (trace r ++ em)%list
                  /\ delivered_chunks em = [e_chunk e].
Proof.
  intros Hc Hf Hs [(Hp & Hcl & Hrn & Hop & Hw) He].
  destruct (relay_chunk_delivered e l r cp fp Hc Hf He Hp)
    as (r2 & E & Hc2 & Hf2 & Hr2 & Hs2 & em & Ht & Hd).
  specialize (Hs2 Hs).
  destruct (record_chunk_returns e l (e_chunk e) r2 Hs2 Hcl Hrn Hop Hw) as (l' & Hret).
  pose proof (record_chunk_safe e l (e_chunk e) r2 Hs2) as Hsafe.
  destruct (record_chunk_keeps e l (e_chunk e) r2) as (Hc3 & Hf3 & Hr3 & em3 & Ht3 & Hd3).
  destruct (record_chunk e l (e_chunk e) r2) as [r3 o]. cbn [fst snd] in *. subst o.
  exists r3, l'. split; [exact E|].
  split; [congruence|]. split; [congruence|]. split; [apply Hsafe|].
  split; [congruence|].
  exists (em ++ em3)%list. split.
  - rewrite Ht3, Ht. now rewrite app_assoc.
  - rewrite delivered_app, Hd, Hd3. reflexivity.
Qed.

Lemma relay_chunk_write_fails (e : chunk_env) (l : locals) (r : recorder)
      (cp fp : Popen) (k m : nat) :
  camera_process r = Some cp -> ffmpeg_process r = Some fp -> in_segment l r ->
  e_chunk e <> [] -> e_pipe e = Delivered ->
  e_close_ok e = true -> e_rename_ok e = true -> e_open_ok e = true ->
  e_write e = Failed k m ->
  List.last (e_toggles e) (is_recording r) = true ->
  exists r',
    relay_chunk e l r = (r', Raise OSError)
    /\ exists em, trace r' = (trace r ++ em)%list
                  /\ delivered_chunks em = [e_chunk e].
Proof.
  intros Hc Hf Hs He Hp Hcl Hrn Hop Hw Hrec.
  destruct (relay_chunk_delivered e l r cp fp Hc Hf He Hp)
    as (r2 & E & Hc2 & Hf2 & Hr2 & Hs2 & em & Ht & Hd).
  specialize (Hs2 Hs). rewrite Hrec in Hr2.
  pose proof (record_chunk_write_fails e l (e_chunk e) r2 k m Hs2 Hr2 Hcl Hrn Hop Hw)
    as Hfail.
  destruct (record_chunk_keeps e l (e_chunk e) r2) as (_ & _ & _ & em3 & Ht3 & Hd3).
  destruct (record_chunk e l (e_chunk e) r2) as [r3 o]. cbn [fst snd] in *. subst o.
  exists r3. split; [exact E|].
  exists (em ++ em3)%list. split.
  - rewrite Ht3, Ht. now rewrite app_assoc.
  - rewrite delivered_app, Hd, Hd3. reflexivity.
Qed.

(** The relay loop runs through the passes before the failing one and ends
    with its exception; the passes after it are not run. *)
Lemma relay_loop_fails_at (before : list chunk_env) :
  forall (e : chunk_env) (after : list chunk_env) (l : locals) (r : recorder)
         (cp fp : Popen) (k m : nat),
    camera_process r = Some cp -> ffmpeg_process r = Some fp -> in_segment l r ->
    Forall uneventful before ->
    e_chunk e <> [] -> e_pipe e = Delivered ->
    e_close_ok e = true -> e_rename_ok e = true -> e_open_ok e = true ->
    e_write e = Failed k m ->
    List.last (e_toggles e) (flag_after (is_recording r) before) = true ->
    exists r',
      relay_loop (before ++ e :: after) l r = (r', Raise OSError)
      /\ exists em, trace r' = (trace r ++ em)%list
                    /\ delivered_chunks em = map e_chunk (before ++ [e]).
Proof.
  induction before as [|c before IH];
    intros e after l r cp fp k m Hc Hf Hs Hall He Hp Hcl Hrn Hop Hw Hrec.
  - cbn [app relay_loop]. unfold bind. cbn in Hrec.
    destruct (relay_chunk_write_fails e l r cp fp k m Hc Hf Hs He Hp Hcl Hrn Hop Hw Hrec)
      as (r' & E & em & Ht & Hd).
    rewrite E. exists r'. split; [reflexivity|]. exists em. now split.
  - inversion Hall as [|? ? Hu Hall']; subst.
    destruct (relay_chunk_uneventful c l r cp fp Hc Hf Hs Hu)
      as (r1 & l1 & E1 & Hc1 & Hf1 & Hs1 & Hr1 & em1 & Ht1 & Hd1).
    cbn in Hrec. rewrite <- Hr1 in Hrec.
    destruct (IH e after l1 r1 cp fp k m Hc1 Hf1 Hs1 Hall' He Hp Hcl Hrn Hop Hw Hrec)
      as (r' & E & em & Ht & Hd).
    cbn [app relay_loop]. unfold bind at 1. rewrite E1.
    exists r'. split; [exact E|].
    exists (em1 ++ em)%list. split.
    + rewrite Ht, Ht1. now rewrite app_assoc.
    + rewrite delivered_app, Hd1, Hd. reflexivity.
Qed.

(** The effects before the relay loop of a pass that starts both children. *)
Lemma pipeline_start (i : iter_env) (r : recorder) (n m : nat) {B}
      (k : M B) :
  i_camera i = Some n -> i_ffmpeg i = Some m ->
  exists r3 pre,
    (Recorder._clean_old_hls_segments (i_clean_ok i) (i_clean_text i) ;;
     cp <- popen rpicam_vid (i_camera i) ;;
     modify (with_camera_process (Some cp)) ;;
     fp <- popen ffmpeg (i_ffmpeg i) ;;
     modify (with_ffmpeg_process (Some fp)) ;;
     k) r = k r3
    /\ camera_process r3 = Some {| prog := rpicam_vid; pid := n |}
    /\ ffmpeg_process r3 = Some {| prog := ffmpeg; pid := m |}
    /\ is_recording r3 = is_recording r
    /\ current_file_handle r3 = current_file_handle r
    /\ trace r3 = (trace r ++ pre)%list
    /\ delivered_chunks pre = [].
Proof.
  intros Hn Hm. rewrite Hn, Hm.
  destruct r as [cp fp h rec dir mins files tr].
  unfold Recorder._clean_old_hls_segments, popen.
  destruct (i_clean_ok i); mrun.
  - eexists _, [_; _; _]. split; [reflexivity|]. cbn.
    repeat split; [rewrite <- !app_assoc; reflexivity | reflexivity].
  - eexists _, [_; _; _; _]. split; [reflexivity|]. cbn.
    repeat split; [rewrite <- !app_assoc; reflexivity | reflexivity].
Qed.

Lemma loop_extends (passes : list iter_env) (r : recorder) :
  exists em, trace (fst (_camera_streaming_loop passes r)) = (trace r ++ em)%list.
Proof.
  destruct (streaming_loop_grows (fun _ => True)) with (passes := passes) (r := r)
    as [_ (em & Ht & _)]; try (intros; exact I).
  now exists em.
Qed.

End FailureFacts.

Import FailureFacts.

(** C1, as stated, fails: recording is on, a segment is open, and the archive
    write of the second chunk raises.  The third chunk of the same capture
    child is never handed to ffmpeg; the handler of the outer loop runs
    instead and the next pass starts new children. *)
Lemma C1_archive_failure_stops_live_path :
  let passes := [healthy [smooth chunk_a nine_thirty;
                          disk_full chunk_b nine_thirty_five 2;
                          smooth chunk_c nine_thirty_five];
                 restarted []] in
  let tr := trace (fst (_camera_streaming_loop passes (fresh true))) in
  ~ (In chunk_c (delivered_chunks tr) /\ spawn_count tr = 2)
  /\ delivered_chunks tr = [chunk_a; chunk_b]
  /\ spawn_count tr = 4
  /\ In (Log ERROR ("Error in camera streaming loop: "
                    +:+ "[Errno 28] No space left on device")) tr.
Proof.
  vm_compute. split; [|repeat split].
  - intros [_ H]. discriminate H.
  - right. right. right. right. right. right. right. right. now left.
Qed.

(** C1 (amended): in a pass of the outer loop that has started both
    children, let some chunk be read while recording is on, after any number
    of passes of the inner loop in which nothing failed, and let its archive
    write raise (whether the segment was open before, was rotated for this
    chunk or was opened for it; the close, rename and open of that pass, if
    it has any, work).  Then the pass has handed that chunk and
    all earlier ones to ffmpeg, and none of the chunks that would follow;
    the exception is caught by the handler of the outer loop, which logs it
    as an error with its text and sleeps 5 seconds; and the outer loop goes
    on with its next pass, which starts a new capture child. *)
Theorem C1_archive_failure_restarts_the_pipeline
  (i j : iter_env) (rest : list iter_env) (r : recorder) (n m : nat)
  (before after : list chunk_env) (e : chunk_env) (k kept : nat) :
  is_disconnected (i_state i) = false ->
  i_camera i = Some n -> i_ffmpeg i = Some m ->
  i_chunks i = (before ++ e :: after)%list ->
  Forall uneventful before ->
  e_chunk e <> [] -> e_pipe e = Delivered ->
  e_close_ok e = true -> e_rename_ok e = true -> e_open_ok e = true ->
  e_write e = Failed k kept ->
  List.last (e_toggles e) (flag_after (is_recording r) before) = true ->
  let r1 := fst (guarded_pipeline i r) in
  snd (guarded_pipeline i r) = Ok tt
  /\ delivered_chunks (emitted r r1) = map e_chunk (before ++ [e])
  /\ (exists tr0,
        trace r1
        = (tr0 ++ [Log ERROR ("Error in camera streaming loop: "
                              +:+ i_exn_text i OSError); Sleep 5])%list)
  /\ _camera_streaming_loop (i :: j :: rest) r
     = _camera_streaming_loop (j :: rest) r1
  /\ (is_disconnected (i_state j) = false ->
      forall n', i_camera j = Some n' ->
        In (Spawn {| prog := rpicam_vid; pid := n' |})
           (emitted r1 (fst (_camera_streaming_loop (j :: rest) r1)))).
Proof.
  intros Hi Hn Hm Hch Hall He Hp Hcl Hrn Hop Hw Hrec.
  assert (Hs : exists r', stream_once i r = (r', Raise OSError)
                 /\ exists em, trace r' = (trace r ++ em)%list
                               /\ delivered_chunks em = map e_chunk (before ++ [e])).
  { unfold stream_once.
    destruct (pipeline_start i r n m
                (relay_loop (i_chunks i)
                   {| current_segment_start := None; current_file_path := None |} ;;
                 returncode <- process_wait camera_process (i_camera_exit i) ;;
                 stdin_close (i_stdin_close_ok i) ;;
                 process_wait ffmpeg_process (i_ffmpeg_exit i) ;;
                 ret returncode) Hn Hm)
      as (r3 & pre & E & Hc3 & Hf3 & Hr3 & _ & Ht3 & Hd3).
    rewrite E. rewrite Hch. rewrite <- Hr3 in Hrec.
    destruct (relay_loop_fails_at before e after
                {| current_segment_start := None; current_file_path := None |}
                r3 _ _ k kept Hc3 Hf3 I Hall He Hp Hcl Hrn Hop Hw Hrec)
      as (r' & El & em & Ht & Hd).
    unfold bind at 1. rewrite El. exists r'. split; [reflexivity|].
    exists (pre ++ em)%list. split.
    - rewrite Ht, Ht3. now rewrite app_assoc.
    - rewrite delivered_app, Hd3, Hd. reflexivity. }
  destruct Hs as (r' & Es & em & Ht & Hd).
  assert (Hg : guarded_pipeline i r
               = (with_trace
                    (trace r' ++ [Log ERROR ("Error in camera streaming loop: "
                                             +:+ i_exn_text i OSError); Sleep 5])%list r',
                  Ok tt)).
  { rewrite guarded_pipeline_cases, pipeline_cooldown, Es. reflexivity. }
  cbv zeta. rewrite Hg. cbn [fst snd].
  split; [reflexivity|]. split; [|split; [|split]].
  - unfold emitted. destruct r'. cbn [trace with_trace] in *.
    rewrite Ht, <- app_assoc, drop_base, delivered_app, Hd. cbn. apply app_nil_r.
  - exists (trace r'). destruct r'. reflexivity.
  - rewrite loop_unfold by assumption. now rewrite Hg.
  - intros Hj n' Hn'.
    set (r1 := with_trace _ r').
    rewrite loop_unfold by assumption.
    destruct (guarded_pipeline_starts j r1) as (emj & Htj & Hfj).
    assert (Hin : In (Spawn {| prog := rpicam_vid; pid := n' |}) emj).
    { apply (proj1 (List.filter_In is_startup _ emj)). rewrite Hfj.
      unfold starts_of. rewrite Hn'. right. now left. }
    destruct (guarded_pipeline j r1) as [r2 [[]|x|]]; cbn [fst] in *.
    + destruct (loop_extends rest r2) as (em' & Ht').
      unfold emitted. rewrite Ht', Htj, <- app_assoc, drop_base.
      apply in_or_app. now left.
    + unfold emitted. now rewrite Htj, drop_base.
    + unfold emitted. now rewrite Htj, drop_base.
Qed.

Lemma C1_archive_failure_restarts_the_pipeline_witness :
  snd (guarded_pipeline
         (healthy [smooth chunk_a nine_thirty;
                   disk_full chunk_b nine_thirty_five 2;
                   smooth chunk_c nine_thirty_five])
         (fresh true))
  = Ok tt.
Proof.
  refine (proj1 (C1_archive_failure_restarts_the_pipeline
    (healthy [smooth chunk_a nine_thirty;
              disk_full chunk_b nine_thirty_five 2;
              smooth chunk_c nine_thirty_five])
    (restarted []) [] (fresh true) 100 101
    [smooth chunk_a nine_thirty] [smooth chunk_c nine_thirty_five]
    (disk_full chunk_b nine_thirty_five 2) 2 4
    _ _ _ _ _ _ _ _ _ _ _ _)); try reflexivity.
  - repeat constructor; discriminate.
  - discriminate.
Defined.

(** ** The names the loop opens, writes, closes and renames *)

Module NamingFacts.

Import Pathlib Datetime Recorder Spec Invariants Bookkeeping Runs Passes
       PathlibFacts RecorderFacts StagingFacts LoopFacts RecordingFacts TraceFacts.
Local Open Scope recorder_scope.

Section Named.

Variable ds : list datetime.
Variable left : option string.

Local Abbreviation staged := (staged_effect ds left).
Local Abbreviation keeps_names := (preserves (handle_named ds left) (grows_by staged)).

Lemma staged_plain (e : effect) : is_fs_effect e = false -> staged e.
Proof. destruct e; intros H; try exact I; discriminate H. Qed.

Lemma named_quiet {A} (m : M A) : quiet m -> keeps_names m.
Proof.
  intros Hq r Hr. destruct (Hq r) as (_ & Hh & em & Ht & Hf). split.
  - unfold handle_named. now rewrite Hh.
  - exists em. split; [exact Ht|].
    eapply Forall_impl; [exact Hf|]. apply staged_plain.
Qed.

Ltac stamp :=
  match goal with
  | H : In ?t _ |- staging_name_of _ ("raw_" +:+ strftime ?t +:+ ".tmp") =>
      exists t; split; [exact H | reflexivity]
  | H : In ?t _ |- exists d, In d _ /\ _ +:+ strftime ?t +:+ _ = _ /\ _ =>
      exists t; split; [exact H | split; reflexivity]
  | H : In ?t _
    |- exists dir d, In d _
                     /\ {| parent := ?dir0; name := _ +:+ strftime ?t +:+ _ |} = _ =>
      exists dir0, t; split; [exact H | reflexivity]
  end.

Ltac named_leaf :=
  cbn [handle_named path_named current_file_handle current_file_path f_name
       with_buffered];
  repeat match goal with
         | |- _ /\ _ => split
         | |- True => exact I
         | |- grows_by _ _ _ => emitted
         | |- Forall _ _ => constructor
         | |- staged_effect _ _ _ => cbn [staged_effect]
         end;
  try assumption; try stamp; try (left; stamp).

Lemma record_chunk_named (e : chunk_env) (l : locals) (chunk : bytes) (r : recorder) :
  In (e_now_stamp e) ds -> handle_named ds left r -> path_named ds l ->
  let '(r', o) := record_chunk e l chunk r in
  handle_named ds left r'
  /\ grows_by staged r r'
  /\ match o with Ok l' => path_named ds l' | _ => True end.
Proof.
  intros Hin Hh Hp.
  destruct r as [cp fp h rec dir mins files tr].
  destruct e as [ch pr tg t1 t2 t3 cok rok ook wr cpart].
  cbn [e_now_stamp] in Hin.
  unfold handle_named in Hh. cbn [current_file_handle] in Hh.
  destruct l as [st [p|]]; unfold path_named in Hp; cbn [current_file_path] in Hp.
  - destruct Hp as (dir0 & d & Hd & ->). unfold final_path.
    destruct h as [[nm cl buf]|]; cbn [f_name] in Hh; crack; named_leaf.
  - destruct h as [[nm cl buf]|]; cbn [f_name] in Hh; crack; named_leaf.
Qed.

Lemma relay_chunk_named (e : chunk_env) (l : locals) (r : recorder) :
  In (e_now_stamp e) ds -> handle_named ds left r -> path_named ds l ->
  let '(r', o) := relay_chunk e l r in
  handle_named ds left r'
  /\ grows_by staged r r'
  /\ match o with Ok (l', _) => path_named ds l' | _ => True end.
Proof.
  intros Hin Hh Hp. unfold relay_chunk, bind.
  destruct (named_quiet _ (quiet_relay_to_hls e) r Hh) as [H1 G1].
  destruct (relay_to_hls e r) as [r1 [[chunk|]|x|]]; cbn [fst] in *;
    try (split; [exact H1 | split; [exact G1 | exact I || exact Hp]]).
  destruct (named_quiet _ (quiet_apply_toggles (e_toggles e)) r1 H1) as [H2 G2].
  destruct (apply_toggles (e_toggles e) r1) as [r2 [[]|x|]]; cbn [fst] in *;
    try (split; [exact H2 | split; [eapply grows_trans; eassumption | exact I]]).
  pose proof (record_chunk_named e l chunk r2 Hin H2 Hp) as H.
  destruct (record_chunk e l chunk r2) as [r3 o]. destruct H as (H3 & G3 & Hl).
  assert (G : grows_by staged r r3).
  { eapply grows_trans; [|exact G3]. eapply grows_trans; eassumption. }
  destruct o as [l'|x|]; cbn; (split; [exact H3 | split; [exact G | assumption]]).
Qed.

Lemma relay_loop_named (es : list chunk_env) :
  (forall e, In e es -> In (e_now_stamp e) ds) ->
  forall (l : locals) (r : recorder),
    handle_named ds left r -> path_named ds l ->
    handle_named ds left (fst (relay_loop es l r))
    /\ grows_by staged r (fst (relay_loop es l r)).
Proof.
  induction es as [|e es IH]; intros Hes l r Hh Hp.
  - split; [exact Hh | apply grows_refl].
  - cbn [relay_loop]. unfold bind.
    pose proof (relay_chunk_named e l r (Hes e (or_introl eq_refl)) Hh Hp) as H.
    destruct (relay_chunk e l r) as [r1 [[l' [|]]|x|]];
      destruct H as (H1 & G1 & Hl); cbn [fst]; try (split; assumption).
    destruct (IH (fun c Hc => Hes c (or_intror Hc)) l' r1 H1 Hl) as [H2 G2].
    split; [exact H2 | eapply grows_trans; eassumption].
Qed.

Ltac name_hush :=
  apply named_quiet;
  unfold Recorder._clean_old_hls_segments, popen, process_wait, stdin_close,
    on_exception, logger, sleep;
  quiet_tac.

Lemma guarded_pipeline_named (i : iter_env) :
  (forall e, In e (i_chunks i) -> In (e_now_stamp e) ds) ->
  keeps_names (guarded_pipeline i).
Proof.
  intros Hi.
  pose proof (grows_refl staged). pose proof (grows_trans staged).
  unfold guarded_pipeline, pipeline, stream_once.
  apply preserves_try_except; [assumption | | intros; name_hush].
  apply preserves_bind; [assumption | | intros; name_hush].
  do 5 (apply preserves_bind; [assumption | name_hush | intros]).
  apply preserves_bind; [assumption | | intros; name_hush].
  intros r Hr. now apply relay_loop_named.
Qed.

Lemma loop_named (passes : list iter_env) :
  (forall i, In i passes -> forall e, In e (i_chunks i) -> In (e_now_stamp e) ds) ->
  keeps_names (_camera_streaming_loop passes).
Proof.
  pose proof (grows_refl staged). pose proof (grows_trans staged).
  induction passes as [|i more IH]; intros Hall; cbn [_camera_streaming_loop].
  - apply preserves_block; assumption.
  - destruct (is_disconnected (i_state i)); [apply preserves_ret; assumption|].
    apply preserves_bind; [assumption | | intros; apply IH].
    + apply guarded_pipeline_named. apply Hall. now left.
    + intros j Hj. apply Hall. now right.
Qed.

End Named.

Lemma stamps_cover (passes : list iter_env) (i : iter_env) (e : chunk_env) :
  In i passes -> In e (i_chunks i) -> In (e_now_stamp e) (stamps passes).
Proof.
  intros Hi He. unfold stamps. apply in_flat_map. exists i. split; [exact Hi|].
  now apply in_map.
Qed.

End NamingFacts.

Import NamingFacts.

(** C10: every segment the streaming loop opens is opened under the name
    [raw_<timestamp>.tmp], the final path [raw_<timestamp>.h264] with its
    suffix replaced, where the timestamp is the clock reading taken for the
    name in that pass.  The loop writes to and closes only such files (or
    the file of a handle that was there when the loop started), and every
    rename takes a [raw_<timestamp>.tmp] to the [raw_<timestamp>.h264] with
    the same timestamp.  No name the loop opens matches [raw_*.h264], and
    no write of the loop goes to a name that does, the handle of before the
    loop apart. *)
Theorem C10_segments_are_written_under_staging_names
  (passes : list iter_env) (r : recorder) :
  let r' := fst (_camera_streaming_loop passes r) in
  let left := option_map f_name (current_file_handle r) in
  Forall (staged_effect (stamps passes) left) (emitted r r')
  /\ (forall n, In (FsOpen n) (emitted r r') -> is_final_name n = false)
  /\ (forall n data, In (FsWrite n data) (emitted r r') ->
        left = Some n \/ is_final_name n = false)
  /\ (forall dir d,
        with_suffix (final_path dir d) ".tmp"
        = Some (truediv dir ("raw_" +:+ strftime d +:+ ".tmp"))
        /\ is_final_name ("raw_" +:+ strftime d +:+ ".tmp") = false
        /\ is_final_name (name (final_path dir d)) = true).
Proof.
  cbv zeta.
  set (left := option_map f_name (current_file_handle r)).
  assert (Hh : handle_named (stamps passes) left r).
  { unfold handle_named, left. destruct (current_file_handle r); [now right | exact I]. }
  destruct (loop_named (stamps passes) left passes
              (fun i Hi e He => stamps_cover passes i e Hi He) r Hh)
    as [_ (em & Ht & Hq)].
  unfold emitted. rewrite Ht, drop_base.
  split; [exact Hq|]. split; [|split].
  - intros n Hn. apply (proj1 (List.Forall_forall _ em) Hq) in Hn.
    destruct Hn as (d & _ & ->). apply staging_not_final.
  - intros n data Hn. apply (proj1 (List.Forall_forall _ em) Hq) in Hn.
    destruct Hn as [(d & _ & ->)|Hn]; [right; apply staging_not_final | now left].
  - intros dir d. split; [apply staging_of_final|].
    split; [apply staging_not_final | apply h264_is_final].
Qed.

(** ** What becomes of the recorded chunks *)


Lemma C5_no_empty_or_unrenamed_final_witness :
  handle_staged (fresh true)
  /\ is_final_name "raw_2024-05-17_09-30-00.h264" = true
  /\ archive (fst (_camera_streaming_loop [healthy two_segments] (fresh true)))
       !! "raw_2024-05-17_09-30-00.h264" <> Some [].
Proof.
  split; [exact I|]. split; [reflexivity|]. intros H.
  pose proof (proj1 (C5_no_empty_or_unrenamed_final
                       [healthy two_segments] (fresh true)
                       "raw_2024-05-17_09-30-00.h264"
                       (smooth chunk_a nine_thirty) no_locals (fresh true)
                       I eq_refl) H) as H0.
  vm_compute in H0. discriminate H0.
Defined.
